(** * Round-robin structure [Robin] with its overflow buffer [LIFOBuffer]

    A shallow embedding of the Go package [robin] (files [robin.go] and
    [lifobuffer.go]) together with the properties stated about it.

    Modelling conventions.
    - The element type [T] is instantiated with Go's [int], as in the tests;
      values are integers [Z].
    - Go's [int] arithmetic on the buffer's counters is 64-bit two's
      complement: every [+] and [-] of the source goes through [wrap64].
    - A run-time panic (nil dereference, index out of range, division by
      zero, [make] with a bad length) is the outcome [Panic]; an operation
      that returns normally yields [Ok].
    - [*node[T]] is a pointer: nodes live in a store (a list of cells
      addressed by position, grown by allocation, never freed), and [nil] is
      [None].  Links are followed and written through that store, so aliasing
      between [r.next], [r.nodes] and the [prev]/[next] fields is the
      source's. *)

From Stdlib Require Import ZArith List Lia.
From stdpp Require Import base option list gmap.

Local Open Scope Z_scope.

(** ** Outcomes of operations that may panic *)

Inductive outcome (A : Type) : Type :=
| Ok (a : A)
| Panic.
Arguments Ok {A} a.
Arguments Panic {A}.

Global Instance outcome_bind : MBind outcome := fun A B k m =>
  match m with
  | Ok a => k a
  | Panic => Panic
  end.

Definition completes {A : Type} (m : outcome A) : Prop := ∃ a, m = Ok a.

(** ** Go's [int] *)

Definition wrap64 (z : Z) : Z := (z + 2 ^ 63) mod 2 ^ 64 - 2 ^ 63.
Definition add64 (a b : Z) : Z := wrap64 (a + b).
Definition sub64 (a b : Z) : Z := wrap64 (a - b).

(** [a % b]: truncated remainder, panics on a zero divisor. *)
Definition rem64 (a b : Z) : outcome Z :=
  if b =? 0 then Panic else Ok (Z.rem a b).

(** [make([]int, len)] panics on a negative length and on a length whose
    byte size exceeds the allocator's limit ([maxAlloc = 2^48] bytes on
    64-bit platforms, 8 bytes per [int]). *)
Definition maxSliceLen : Z := 2 ^ 45.

Definition make_slice (len : Z) : outcome (list Z) :=
  if (len <? 0) || (maxSliceLen <? len) then Panic
  else Ok (replicate (Z.to_nat len) 0).

(** [s[k]] and [s[k] = x] panic when [k] is out of range. *)
Definition slice_get (s : list Z) (k : Z) : outcome Z :=
  if k <? 0 then Panic
  else match s !! Z.to_nat k with
       | Some x => Ok x
       | None => Panic
       end.

Definition slice_set (s : list Z) (k : Z) (x : Z) : outcome (list Z) :=
  if k <? 0 then Panic
  else match s !! Z.to_nat k with
       | Some _ => Ok (<[Z.to_nat k := x]> s)
       | None => Panic
       end.

(** ** lifobuffer.go *)

Module LIFOBuffer.

(** The struct [LIFOBuffer[int]]: the circular array [buf], the write
    cursor [i], the live count [n], the multiplicity map [count]. *)
Record t : Type := mk {
  buf : list Z;
  i : Z;
  n : Z;
  count : gmap Z Z;
  capacity : Z
}.

(** [NewLIFOBuffer(capacity)]; [make] is where it can fail. *)
Definition NewLIFOBuffer (c : Z) : outcome t :=
  s ← make_slice c;
  Ok {| capacity := c; buf := s; i := 0; n := 0; count := ∅ |}.

(** [b.n++; b.count[v]++] (a missing key reads as 0). *)
Definition incCount (x : Z) (b : t) : t :=
  {| buf := buf b; i := i b;
     n := add64 (n b) 1;
     count := <[x := add64 (default 0 (count b !! x)) 1]> (count b);
     capacity := capacity b |}.

(** [b.n--; b.count[v]--; if b.count[v] == 0 { delete(b.count, v) }]. *)
Definition decCount (x : Z) (b : t) : t :=
  let c := sub64 (default 0 (count b !! x)) 1 in
  {| buf := buf b; i := i b;
     n := sub64 (n b) 1;
     count := if c =? 0 then delete x (count b) else <[x := c]> (count b);
     capacity := capacity b |}.

(** [Push(v)]: evict the value under the cursor when at capacity, count
    [v], write it under the cursor, advance the cursor modulo capacity. *)
Definition Push (x : Z) (b : t) : outcome t :=
  b1 ← (if n b =? capacity b
         then (old ← slice_get (buf b) (i b); Ok (decCount old b))
         else Ok b);
  let b2 := incCount x b1 in
  s ← slice_set (buf b2) (i b2) x;
  j ← rem64 (add64 (i b2) 1) (capacity b2);
  Ok {| buf := s; i := j; n := n b2; count := count b2;
        capacity := capacity b2 |}.

(** [Pop()]: the result is the triple (value, presence flag, buffer
    afterwards); [*new(T)] is 0. *)
Definition Pop (b : t) : outcome (Z * bool * t) :=
  if n b =? 0 then Ok (0, false, b)
  else
    j ← rem64 (add64 (sub64 (i b) 1) (capacity b)) (capacity b);
    x ← slice_get (buf b) j;
    Ok (x, true,
        decCount x {| buf := buf b; i := j; n := n b; count := count b;
                      capacity := capacity b |}).

(** [Contains(v)]: [v] is a key of the multiplicity map. *)
Definition Contains (x : Z) (b : t) : bool :=
  match count b !! x with
  | Some _ => true
  | None => false
  end.

Definition Len (b : t) : Z := n b.

(** [Reset()]: the array keeps its contents. *)
Definition Reset (b : t) : t :=
  {| buf := buf b; i := 0; n := 0; count := ∅; capacity := capacity b |}.

End LIFOBuffer.

(** ** robin.go *)

Abbreviation ptr := nat.

Module node.
(** The struct [node[int]]. *)
Record t : Type := mk {
  v : Z;
  prev : option ptr;
  next : option ptr
}.

(** Assignments [nd.v = x], [nd.prev = p], [nd.next = p]. *)
Definition set_v (x : Z) (nd : t) : t :=
  {| v := x; prev := prev nd; next := next nd |}.
Definition set_prev (p : option ptr) (nd : t) : t :=
  {| v := v nd; prev := p; next := next nd |}.
Definition set_next (p : option ptr) (nd : t) : t :=
  {| v := v nd; prev := prev nd; next := p |}.
End node.

(** The store of node cells. *)
Abbreviation store := (list node.t).

(** Read through a pointer; [nil] panics. *)
Definition load (p : option ptr) (h : store) : outcome node.t :=
  match p with
  | None => Panic
  | Some a => match h !! a with
              | Some nd => Ok nd
              | None => Panic
              end
  end.

(** Write one field through a pointer; [nil] panics. *)
Definition upd (p : option ptr) (f : node.t → node.t) (h : store) : outcome store :=
  match p with
  | None => Panic
  | Some a => match h !! a with
              | Some nd => Ok (<[a := f nd]> h)
              | None => Panic
              end
  end.

Global Arguments load : simpl never.
Global Arguments upd : simpl never.

(** [&node[T]{v: v}]: a fresh cell with nil links. *)
Definition alloc (x : Z) (h : store) : ptr * store :=
  (length h, h ++ [node.mk x None None]).

Module Robin.

(** The struct [Robin[int]] with the store holding its nodes.  The
    [buffer] interface value is [nil] ([None]) or the package's
    [LIFOBuffer], owned by this Robin. *)
Record t : Type := mk {
  heap : store;
  next : option ptr;
  nodes : gmap Z ptr;
  maxLen : Z;
  buffer : option LIFOBuffer.t
}.

(** Assignments to one field. *)
Definition set_heap (h : store) (r : t) : t :=
  {| heap := h; next := next r; nodes := nodes r; maxLen := maxLen r;
     buffer := buffer r |}.
Definition set_next (p : option ptr) (r : t) : t :=
  {| heap := heap r; next := p; nodes := nodes r; maxLen := maxLen r;
     buffer := buffer r |}.
Definition set_nodes (m : gmap Z ptr) (r : t) : t :=
  {| heap := heap r; next := next r; nodes := m; maxLen := maxLen r;
     buffer := buffer r |}.
Definition set_buffer (b : option LIFOBuffer.t) (r : t) : t :=
  {| heap := heap r; next := next r; nodes := nodes r; maxLen := maxLen r;
     buffer := b |}.

(** [NewUnbounded()]. *)
Definition NewUnbounded : t :=
  {| heap := []; next := None; nodes := ∅; maxLen := 0; buffer := None |}.

(** [WithBuffer(buffer)]: the option that sets [r.buffer]. *)
Definition WithBuffer (b : LIFOBuffer.t) (r : t) : t :=
  set_buffer (Some b) r.

(** [NewBounded(len, options...)]: a non-positive [len] gives an unbounded
    Robin and ignores the options; otherwise they are applied in order. *)
Definition NewBounded (len : Z) (options : list (t → t)) : t :=
  if len <=? 0 then NewUnbounded
  else
    fold_left (fun r option => option r) options
      {| heap := []; next := None; nodes := ∅; maxLen := len;
         buffer := None |}.

(** [len(r.nodes)]. *)
Definition Len (r : t) : Z := Z.of_nat (size (nodes r)).

(** The test [r.maxLen > 0 && len(r.nodes) == r.maxLen] of [Add]. *)
Definition full (r : t) : bool :=
  (0 <? maxLen r) && (Len r =? maxLen r).

(** [attach(head, tail)]: the chain is closed on itself when the ring is
    empty, and spliced between the cursor and its predecessor otherwise;
    the cursor moves to [head]. *)
Definition attach (head tail : option ptr) (r : t) : outcome t :=
  match head with
  | None => Ok r
  | Some _ =>
    match next r with
    | None =>
      h1 ← upd head (node.set_prev tail) (heap r);
      h2 ← upd tail (node.set_next head) h1;
      Ok (set_next head (set_heap h2 r))
    | Some _ =>
      cur ← load (next r) (heap r);
      let prev := node.prev cur in
      let next := next r in
      h1 ← upd head (node.set_prev prev) (heap r);
      h2 ← upd tail (node.set_next next) h1;
      h3 ← upd prev (node.set_next head) h2;
      h4 ← upd next (node.set_prev tail) h3;
      Ok (set_next head (set_heap h4 r))
    end
  end.

(** The [for _, v := range vs] loop of [Add], threading the Robin and the
    local variables [head] and [tail]. *)
Fixpoint Add_loop (vs : list Z) (r : t) (head tail : option ptr)
  : outcome (t * option ptr * option ptr) :=
  match vs with
  | [] => Ok (r, head, tail)
  | x :: vs' =>
    match nodes r !! x with
    | Some _ => Add_loop vs' r head tail
    | None =>
      if full r then
        match buffer r with
        | None => Ok (r, head, tail)
        | Some b =>
          if LIFOBuffer.Contains x b then Add_loop vs' r head tail
          else
            b' ← LIFOBuffer.Push x b;
            Add_loop vs' (set_buffer (Some b') r) head tail
        end
      else
        let '(p, h) := alloc x (heap r) in
        let r1 := set_nodes (<[x := p]> (nodes r)) (set_heap h r) in
        match head with
        | None => Add_loop vs' r1 (Some p) (Some p)
        | Some _ =>
          h1 ← upd (Some p) (node.set_prev tail) h;
          h2 ← upd tail (node.set_next (Some p)) h1;
          Add_loop vs' (set_heap h2 r1) head (Some p)
        end
    end
  end.

(** [Add(vs...)]. *)
Definition Add (vs : list Z) (r : t) : outcome t :=
  if full r && negb (bool_decide (is_Some (buffer r))) then Ok r
  else
    '(r', head, tail) ← Add_loop vs r None None;
    attach head tail r'.

(** [unlink(node)]; every [node.prev] and [node.next] of the source is a
    read of the store at that point. *)
Definition unlink (p : ptr) (r : t) : outcome t :=
  nd ← load (Some p) (heap r);
  if bool_decide (Some p = node.next nd) then Ok (set_next None r)
  else
    h1 ← upd (node.prev nd) (node.set_next (node.next nd)) (heap r);
    nd1 ← load (Some p) h1;
    h2 ← upd (node.next nd1) (node.set_prev (node.prev nd1)) h1;
    if bool_decide (Some p = next r) then
      nd2 ← load (Some p) h2;
      Ok (set_next (node.next nd2) (set_heap h2 r))
    else Ok (set_heap h2 r).

(** [replaceValue(node)]: the result is the pair (replaced, Robin
    afterwards). *)
Definition replaceValue (p : ptr) (r : t) : outcome (bool * t) :=
  match buffer r with
  | Some b =>
    '(x, ok, b') ← LIFOBuffer.Pop b;
    if ok : bool then
      h ← upd (Some p) (node.set_v x) (heap r);
      Ok (true,
          set_nodes (<[x := p]> (nodes r))
            (set_heap h (set_buffer (Some b') r)))
    else Ok (false, set_buffer (Some b') r)
  | None => Ok (false, r)
  end.

(** [Remove(vs...)]. *)
Fixpoint Remove (vs : list Z) (r : t) : outcome t :=
  match vs with
  | [] => Ok r
  | x :: vs' =>
    match nodes r !! x with
    | Some p =>
      '(ok, r1) ← replaceValue p (set_nodes (delete x (nodes r)) r);
      if ok : bool then Remove vs' r1
      else (r2 ← unlink p r1; Remove vs' r2)
    | None => Remove vs' r
    end
  end.

(** [Next()]: the result is the triple (value, presence flag, Robin
    afterwards). *)
Definition Next (r : t) : outcome (Z * bool * t) :=
  match next r with
  | None => Ok (0, false, r)
  | Some _ =>
    nd ← load (next r) (heap r);
    Ok (node.v nd, true, set_next (node.next nd) r)
  end.

Definition Contains (x : Z) (r : t) : bool :=
  match nodes r !! x with
  | Some _ => true
  | None => false
  end.

Definition BufferContains (x : Z) (r : t) : bool :=
  match buffer r with
  | None => false
  | Some b => LIFOBuffer.Contains x b
  end.

Definition BufferLen (r : t) : Z :=
  match buffer r with
  | None => 0
  | Some b => LIFOBuffer.Len b
  end.

(** [Reset()]: the cells stay in the store, unreachable. *)
Definition Reset (r : t) : t :=
  match buffer r with
  | None => set_nodes ∅ (set_next None r)
  | Some b =>
    set_nodes ∅ (set_buffer (Some (LIFOBuffer.Reset b)) (set_next None r))
  end.

(** [k] successive calls of [Next], collecting the returned pairs. *)
Fixpoint Nexts (k : nat) (r : t) : outcome (list (Z * bool) * t) :=
  match k with
  | O => Ok ([], r)
  | S k' =>
    '(x, ok, r1) ← Next r;
    '(out, r2) ← Nexts k' r1;
    Ok ((x, ok) :: out, r2)
  end.

End Robin.

(** ** The LIFO buffer as a stack

    The stack a [LIFOBuffer] stands for is a list of values, most recent
    push first.  [lifo_rep b l] relates a buffer to it: the [n] live slots
    of the circular array, read backwards from the write cursor, are [l],
    and the multiplicity map counts the occurrences in [l]. *)

(** The number of occurrences of [x] in [l]. *)
Definition occ (x : Z) (l : list Z) : Z :=
  Z.of_nat (length (filter (λ y, y = x) l)).

(** What the multiplicity map holds for a value occurring [z] times. *)
Definition cnt (z : Z) : option Z := if z =? 0 then None else Some z.

(** The ranges of the fields. *)
Record lifo_wf (b : LIFOBuffer.t) : Prop := {
  wf_capacity : 0 < LIFOBuffer.capacity b <= maxSliceLen;
  wf_buf : Z.of_nat (length (LIFOBuffer.buf b)) = LIFOBuffer.capacity b;
  wf_i : 0 <= LIFOBuffer.i b < LIFOBuffer.capacity b;
  wf_n : 0 <= LIFOBuffer.n b <= LIFOBuffer.capacity b
}.

(** The position in the array of the [k]-th most recent value. *)
Definition slot (b : LIFOBuffer.t) (k : nat) : nat :=
  Z.to_nat ((LIFOBuffer.i b - 1 - Z.of_nat k) mod LIFOBuffer.capacity b).

Record lifo_rep (b : LIFOBuffer.t) (l : list Z) : Prop := {
  rep_wf : lifo_wf b;
  rep_n : LIFOBuffer.n b = Z.of_nat (length l);
  rep_buf : ∀ (k : nat) (x : Z),
      l !! k = Some x → LIFOBuffer.buf b !! slot b k = Some x;
  rep_count : ∀ x : Z,
      LIFOBuffer.count b !! x = cnt (occ x l)
}.

(** The stack discipline in the words of the specification: a push at
    capacity discards the oldest value, a pop returns the most recent. *)
Module Stack.
Definition push (c : Z) (x : Z) (l : list Z) : list Z :=
  x :: (if Z.of_nat (length l) =? c then take (length l - 1) l else l).

Definition pop (l : list Z) : Z * bool * list Z :=
  match l with
  | [] => (0, false, [])
  | x :: l' => (x, true, l')
  end.
End Stack.

Inductive lifo_op : Type :=
| OPush (x : Z)
| OPop
| OReset.

(** A sequence of calls on a buffer, collecting what the [Pop]s return. *)
Fixpoint lifo_run (ops : list lifo_op) (b : LIFOBuffer.t)
  : outcome (list (Z * bool) * LIFOBuffer.t) :=
  match ops with
  | [] => Ok ([], b)
  | OPush x :: ops' => b' ← LIFOBuffer.Push x b; lifo_run ops' b'
  | OPop :: ops' =>
    '(x, ok, b') ← LIFOBuffer.Pop b;
    '(out, b'') ← lifo_run ops' b';
    Ok ((x, ok) :: out, b'')
  | OReset :: ops' => lifo_run ops' (LIFOBuffer.Reset b)
  end.

Fixpoint stack_run (c : Z) (ops : list lifo_op) (l : list Z)
  : list (Z * bool) * list Z :=
  match ops with
  | [] => ([], l)
  | OPush x :: ops' => stack_run c ops' (Stack.push c x l)
  | OPop :: ops' =>
    let '(x, ok, l') := Stack.pop l in
    let '(out, l'') := stack_run c ops' l' in
    ((x, ok) :: out, l'')
  | OReset :: ops' => stack_run c ops' []
  end.

(** ** The ring as a list of cells

    [seg h pv ps nx]: in store [h] the cells [ps] are doubly linked in this
    order, the first one's [prev] being [pv] and the last one's [next]
    being [nx].  A ring is a segment closed on itself. *)

Definition succ_of (ps : list ptr) (nx : option ptr) : option ptr :=
  match ps with
  | [] => nx
  | q :: _ => Some q
  end.

Definition pred_of (pv : option ptr) (ps : list ptr) : option ptr :=
  match last ps with
  | Some q => Some q
  | None => pv
  end.

Fixpoint seg (h : store) (pv : option ptr) (ps : list ptr) (nx : option ptr)
  : Prop :=
  match ps with
  | [] => True
  | p :: ps' =>
    (∃ nd, h !! p = Some nd ∧ node.prev nd = pv ∧
           node.next nd = succ_of ps' nx) ∧
    seg h (Some p) ps' nx
  end.

Definition ring (h : store) (ps : list ptr) : Prop :=
  seg h (last ps) ps (head ps).

(** [h'] is [h] with the links of cell [p] rewritten. *)
Definition relinked (h h' : store) (p : ptr) : Prop :=
  ∃ nd nd', h !! p = Some nd ∧ h' = <[p := nd']> h ∧ node.v nd' = node.v nd.

(** The value stored in a cell. *)
Definition val (h : store) (p : ptr) : Z :=
  match h !! p with
  | Some nd => node.v nd
  | None => 0
  end.

(** The values of the cells [ps], in order. *)
Definition vals (h : store) (ps : list ptr) : list Z := val h <$> ps.

(** The structural invariant of a Robin whose ring, read from the cursor
    in [next] direction, is [ps]: the cells are distinct and closed into one
    cycle starting at the cursor; the index maps exactly the values of the
    ring's cells to their cells (so values are unique in the ring); a
    bounded Robin holds at most [maxLen] cells. *)
Record Inv (r : Robin.t) (ps : list ptr) : Prop := {
  inv_nodup : NoDup ps;
  inv_cursor : Robin.next r = head ps;
  inv_ring : ring (Robin.heap r) ps;
  inv_index : ∀ (x : Z) (p : ptr),
      Robin.nodes r !! x = Some p ↔ p ∈ ps ∧ val (Robin.heap r) p = x;
  inv_bound : 0 < Robin.maxLen r → Z.of_nat (length ps) <= Robin.maxLen r
}.

(** The coupling of a Robin with its buffer, whose stack is [l]: the
    buffer holds no value twice and none that is indexed, and holds a
    value only while the Robin is full. *)
Record Coupled (r : Robin.t) (b : LIFOBuffer.t) (l : list Z) : Prop := {
  cpl_rep : lifo_rep b l;
  cpl_nodup : NoDup l;
  cpl_disjoint : ∀ x, x ∈ l → Robin.nodes r !! x = None;
  cpl_full : l ≠ [] → Robin.full r = true
}.

(** The buffer of the Robin, seen as a capacity and a stack. *)
Definition BufRep (r : Robin.t) (bf : option (Z * list Z)) : Prop :=
  match Robin.buffer r, bf with
  | None, None => True
  | Some b, Some (c, l) => LIFOBuffer.capacity b = c ∧ Coupled r b l
  | _, _ => False
  end.

(** The number of values of a buffer seen as a stack. *)
Definition stack_len (bf : option (Z * list Z)) : Z :=
  match bf with
  | None => 0
  | Some (_, l) => Z.of_nat (length l)
  end.

(** The invariant of a Robin and its buffer together. *)
Definition RInv (r : Robin.t) : Prop :=
  (∃ ps, Inv r ps) ∧ (∃ bf, BufRep r bf).

(** ** The Robin as a rotation of values

    The model the specification describes: the rotation [cur] of values,
    starting with the one the next [Next()] returns, and the buffer as a
    capacity with its stack. *)
Module Model.

(** [Add]: the values of [vs] in order; [new] is the chain added so far
    in this call. *)
Fixpoint add (mx : Z) (vs cur new : list Z) (bf : option (Z * list Z))
  : list Z * option (Z * list Z) :=
  match vs with
  | [] => (new, bf)
  | x :: vs' =>
    if decide (x ∈ new ++ cur) then add mx vs' cur new bf
    else if (0 <? mx) && (Z.of_nat (length (new ++ cur)) =? mx) then
      match bf with
      | None => (new, bf)
      | Some (c, l) =>
        if decide (x ∈ l) then add mx vs' cur new bf
        else add mx vs' cur new (Some (c, Stack.push c x l))
      end
    else add mx vs' cur (new ++ [x]) bf
  end.

Definition Add (mx : Z) (vs cur : list Z) (bf : option (Z * list Z))
  : list Z * option (Z * list Z) :=
  let '(new, bf') := add mx vs cur [] bf in (new ++ cur, bf').

(** Removal of one value [x] of the rotation: replaced in place by the
    value popped from the buffer if there is one, taken out otherwise. *)
Definition remove1 (x : Z) (cur : list Z) (bf : option (Z * list Z))
  : list Z * option (Z * list Z) :=
  match bf with
  | Some (c, w :: l) =>
    ((λ y, if decide (y = x) then w else y) <$> cur, Some (c, l))
  | _ => (filter (λ y, y ≠ x) cur, bf)
  end.

Fixpoint Remove (vs cur : list Z) (bf : option (Z * list Z))
  : list Z * option (Z * list Z) :=
  match vs with
  | [] => (cur, bf)
  | x :: vs' =>
    if decide (x ∈ cur) then
      Remove vs' (remove1 x cur bf).1 (remove1 x cur bf).2
    else Remove vs' cur bf
  end.

Definition Next (cur : list Z) : Z * bool * list Z :=
  match cur with
  | [] => (0, false, [])
  | x :: cur' => (x, true, cur' ++ [x])
  end.

Fixpoint Nexts (k : nat) (cur : list Z) : list (Z * bool) * list Z :=
  match k with
  | O => ([], cur)
  | S k' =>
    let '(x, ok, cur1) := Next cur in
    let '(out, cur2) := Nexts k' cur1 in
    ((x, ok) :: out, cur2)
  end.

Definition Reset (bf : option (Z * list Z)) : list Z * option (Z * list Z) :=
  ([], match bf with
       | None => None
       | Some (c, _) => Some (c, [])
       end).

End Model.

(** [Rep r cur bf]: the Robin is well formed, its rotation is [cur] and
    its buffer is [bf]. *)
Definition Rep (r : Robin.t) (cur : list Z) (bf : option (Z * list Z)) : Prop :=
  (∃ ps, Inv r ps ∧ vals (Robin.heap r) ps = cur) ∧ BufRep r bf.

(** The shape of the store during [Add]: the ring [ps] is as before the
    call and starts at the cursor, and the chain [new] of fresh cells hangs
    between [hd] and [tl] with nil ends.  With an empty chain this is the
    shape of the store between calls. *)
Record Chained (r : Robin.t) (ps new : list ptr) (hd tl : option ptr)
  : Prop := {
  ch_nodup : NoDup (new ++ ps);
  ch_cursor : Robin.next r = head ps;
  ch_ring : ring (Robin.heap r) ps;
  ch_chain : seg (Robin.heap r) None new None;
  ch_head : hd = head new;
  ch_tail : tl = last new
}.

(** The loop invariant of [Add]: the shape above, with an index that
    covers ring and chain. *)
Record AddInv (r : Robin.t) (ps new : list ptr) (hd tl : option ptr)
  : Prop := {
  add_chained : Chained r ps new hd tl;
  add_index : ∀ (x : Z) (p : ptr),
      Robin.nodes r !! x = Some p ↔
      p ∈ new ++ ps ∧ val (Robin.heap r) p = x;
  add_bound : 0 < Robin.maxLen r →
              Z.of_nat (length (new ++ ps)) <= Robin.maxLen r
}.

(** What is needed for the operations to run, whatever the buffer holds:
    the shape of the store, an index that points into the ring (or the
    chain) without sharing cells, and a buffer that is well formed. *)
Record Sound (r : Robin.t) (ps new : list ptr) (hd tl : option ptr)
  : Prop := {
  snd_chained : Chained r ps new hd tl;
  snd_into : ∀ (x : Z) (p : ptr),
      Robin.nodes r !! x = Some p → p ∈ new ++ ps;
  snd_inj : ∀ (x y : Z) (p : ptr),
      Robin.nodes r !! x = Some p → Robin.nodes r !! y = Some p → x = y;
  snd_buffer : ∀ b, Robin.buffer r = Some b → ∃ l, lifo_rep b l
}.

(** What a full Robin with index [idx] leaves in a buffer of capacity [c]
    holding [l] when [Add] goes through [vs]: each value in turn is pushed
    unless it is indexed or the buffer already contains it. *)
Definition overflow (idx : gmap Z ptr) (c : Z) (vs l : list Z) : list Z :=
  fold_left
    (λ l x, if decide (is_Some (idx !! x) ∨ x ∈ l) then l
            else Stack.push c x l)
    vs l.

(** The [k]-th value (from 0) of the endless rotation of [l]. *)
Definition rotation (l : list Z) (k : nat) : Z :=
  nth (k mod length l) l 0.

(** The state-changing calls of the public API. *)
Inductive robin_op : Type :=
| OpAdd (vs : list Z)
| OpRemove (vs : list Z)
| OpNext
| OpReset.

Definition robin_call (o : robin_op) (r : Robin.t) : outcome Robin.t :=
  match o with
  | OpAdd vs => Robin.Add vs r
  | OpRemove vs => Robin.Remove vs r
  | OpNext => '(_, _, r') ← Robin.Next r; Ok r'
  | OpReset => Ok (Robin.Reset r)
  end.

(** A sequence of calls. *)
Fixpoint robin_run (ops : list robin_op) (r : Robin.t) : outcome Robin.t :=
  match ops with
  | [] => Ok r
  | o :: ops' => r' ← robin_call o r; robin_run ops' r'
  end.

(** A Robin whose buffer was created with capacity 0: nothing can ever be
    stored in it. *)
Definition ZeroCap (r : Robin.t) : Prop :=
  Robin.buffer r = Some (LIFOBuffer.mk [] 0 0 ∅ 0).

(** The states a Robin goes through from [r0] under calls that return. *)
Inductive reachable (r0 : Robin.t) : Robin.t → Prop :=
| reach_init : reachable r0 r0
| reach_call (r r' : Robin.t) (o : robin_op) :
    reachable r0 r → robin_call o r = Ok r' → reachable r0 r'.

(** ** The whole public API as calls and results

    Every exported method of [Robin], the queries included, with what it
    returns; and the same calls on the rotation model. *)

Inductive api_call : Type :=
| CallAdd (vs : list Z)
| CallRemove (vs : list Z)
| CallNext
| CallReset
| CallContains (x : Z)
| CallBufferContains (x : Z)
| CallLen
| CallBufferLen.

Inductive api_result : Type :=
| RetUnit
| RetNext (x : Z) (ok : bool)
| RetBool (b : bool)
| RetInt (z : Z).

Definition api_call_run (c : api_call) (r : Robin.t)
  : outcome (api_result * Robin.t) :=
  match c with
  | CallAdd vs => r' ← Robin.Add vs r; Ok (RetUnit, r')
  | CallRemove vs => r' ← Robin.Remove vs r; Ok (RetUnit, r')
  | CallNext => '(x, ok, r') ← Robin.Next r; Ok (RetNext x ok, r')
  | CallReset => Ok (RetUnit, Robin.Reset r)
  | CallContains x => Ok (RetBool (Robin.Contains x r), r)
  | CallBufferContains x => Ok (RetBool (Robin.BufferContains x r), r)
  | CallLen => Ok (RetInt (Robin.Len r), r)
  | CallBufferLen => Ok (RetInt (Robin.BufferLen r), r)
  end.

(** A sequence of calls, collecting the results. *)
Fixpoint api_run (cs : list api_call) (r : Robin.t)
  : outcome (list api_result * Robin.t) :=
  match cs with
  | [] => Ok ([], r)
  | c :: cs' =>
    '(o, r1) ← api_call_run c r;
    '(out, r2) ← api_run cs' r1;
    Ok (o :: out, r2)
  end.

Definition model_call (mx : Z) (c : api_call) (cur : list Z)
    (bf : option (Z * list Z))
  : api_result * (list Z * option (Z * list Z)) :=
  match c with
  | CallAdd vs => (RetUnit, Model.Add mx vs cur bf)
  | CallRemove vs => (RetUnit, Model.Remove vs cur bf)
  | CallNext =>
    (RetNext (Model.Next cur).1.1 (Model.Next cur).1.2,
     ((Model.Next cur).2, bf))
  | CallReset => (RetUnit, Model.Reset bf)
  | CallContains x => (RetBool (bool_decide (x ∈ cur)), (cur, bf))
  | CallBufferContains x =>
    (RetBool match bf with
             | None => false
             | Some (_, l) => bool_decide (x ∈ l)
             end, (cur, bf))
  | CallLen => (RetInt (Z.of_nat (length cur)), (cur, bf))
  | CallBufferLen => (RetInt (stack_len bf), (cur, bf))
  end.

Fixpoint model_run (mx : Z) (cs : list api_call) (cur : list Z)
    (bf : option (Z * list Z)) : list api_result :=
  match cs with
  | [] => []
  | c :: cs' =>
    let '(o, (cur', bf')) := model_call mx c cur bf in
    o :: model_run mx cs' cur' bf'
  end.

(** A new Robin made by the constructors with the bound of [r] and, if
    [r] has a buffer, a new buffer of the same capacity. *)
Definition renew (r : Robin.t) : outcome Robin.t :=
  match Robin.buffer r with
  | None => Ok (Robin.NewBounded (Robin.maxLen r) [])
  | Some b =>
    b0 ← LIFOBuffer.NewLIFOBuffer (LIFOBuffer.capacity b);
    Ok (Robin.NewBounded (Robin.maxLen r) [Robin.WithBuffer b0])
  end.

(** The rotation [cur] in which each value of [xs] has given its place to
    the value of [ws] at the same position. *)
Definition replaced (cur xs ws : list Z) : list Z :=
  fold_left
    (λ cur '(x, w), (λ y, if decide (y = x) then w else y) <$> cur)
    (zip xs ws) cur.

(** The values of [vs] that the Robin does not contain, as a set. *)
Definition missing (vs : list Z) (r : Robin.t) : gset Z :=
  filter (λ x, Robin.Contains x r = false) (list_to_set vs).

(** The values of [vs] that the Robin contains, as a set. *)
Definition present (vs : list Z) (r : Robin.t) : gset Z :=
  filter (λ x, Robin.Contains x r = true) (list_to_set vs).

(** The sum of the counts of a multiplicity map. *)
Definition total (m : gmap Z Z) : Z :=
  map_fold (λ _ k acc, k + acc) 0 m.

(** * Properties *)

(** ** Arithmetic *)

Lemma wrap64_small (z : Z) : - 2 ^ 63 <= z < 2 ^ 63 → wrap64 z = z.
Proof.
  intros Hz. unfold wrap64.
  rewrite Z.mod_small; lia.
Qed.

Lemma maxSliceLen_bound : maxSliceLen < 2 ^ 62.
Proof. reflexivity. Qed.

Lemma occ_nil (x : Z) : occ x [] = 0.
Proof. reflexivity. Qed.

Lemma occ_cons (x y : Z) (l : list Z) :
  occ x (y :: l) = (if decide (y = x) then 1 else 0) + occ x l.
Proof.
  unfold occ. rewrite filter_cons.
  destruct (decide (y = x)); simpl; lia.
Qed.

Lemma occ_app (x : Z) (l1 l2 : list Z) : occ x (l1 ++ l2) = occ x l1 + occ x l2.
Proof.
  unfold occ. rewrite filter_app, length_app. lia.
Qed.

Lemma occ_range (x : Z) (l : list Z) : 0 <= occ x l <= Z.of_nat (length l).
Proof.
  unfold occ. pose proof (length_filter (λ y, y = x) l). lia.
Qed.

Lemma occ_zero (x : Z) (l : list Z) : occ x l = 0 ↔ x ∉ l.
Proof.
  induction l as [|y l IH].
  - split; [intros _; apply not_elem_of_nil | reflexivity].
  - rewrite occ_cons, not_elem_of_cons.
    pose proof (occ_range x l).
    destruct (decide (y = x)) as [->|Hne].
    + split; [lia | intros [? _]; congruence].
    + rewrite Z.add_0_l, IH. split; [intros ?; split; congruence | tauto].
Qed.

(** ** The multiplicity map *)

Lemma count_inc (m : gmap Z Z) (l : list Z) (x : Z) :
  Z.of_nat (length l) < 2 ^ 62 →
  (∀ y, m !! y = cnt (occ y l)) →
  ∀ y, <[x := add64 (default 0 (m !! x)) 1]> m !! y = cnt (occ y (x :: l)).
Proof.
  intros Hlen Hm y. rewrite occ_cons.
  destruct (decide (x = y)) as [->|Hne].
  - rewrite lookup_insert_eq, Hm.
    pose proof (occ_range y l) as Hr. unfold cnt.
    destruct (Z.eqb_spec (occ y l) 0) as [E|E]; simpl.
    + rewrite E. reflexivity.
    + unfold add64. rewrite wrap64_small by lia.
      destruct (Z.eqb_spec (1 + occ y l) 0); [lia|]. f_equal; lia.
  - rewrite lookup_insert_ne by done. rewrite Hm, Z.add_0_l. reflexivity.
Qed.

Lemma count_dec (m : gmap Z Z) (l l' : list Z) (old : Z) :
  Z.of_nat (length l) < 2 ^ 62 →
  (∀ y, m !! y = cnt (occ y l)) →
  (∀ y, occ y l = (if decide (old = y) then 1 else 0) + occ y l') →
  let c := sub64 (default 0 (m !! old)) 1 in
  ∀ y, (if c =? 0 then delete old m else <[old := c]> m) !! y = cnt (occ y l').
Proof.
  intros Hlen Hm Hocc c y.
  assert (Hc : c = occ old l').
  { unfold c. rewrite Hm. pose proof (Hocc old) as Ho.
    pose proof (occ_range old l). pose proof (occ_range old l').
    destruct (decide (old = old)); [|done].
    unfold cnt. destruct (Z.eqb_spec (occ old l) 0); [lia|]. simpl.
    unfold sub64. rewrite wrap64_small by lia. lia. }
  rewrite Hc. clear c Hc.
  destruct (decide (old = y)) as [->|Hne].
  - unfold cnt. destruct (Z.eqb_spec (occ y l') 0).
    + apply lookup_delete_eq.
    + apply lookup_insert_eq.
  - assert (Hy : m !! y = cnt (occ y l')).
    { rewrite Hm. f_equal. pose proof (Hocc y) as Ho.
      destruct (decide (old = y)); [done|lia]. }
    destruct (occ old l' =? 0).
    + rewrite lookup_delete_ne by done. exact Hy.
    + rewrite lookup_insert_ne by done. exact Hy.
Qed.

(** ** The circular array *)

Lemma slot_push_new (i c : Z) :
  0 < c → 0 <= i < c → ((i + 1) mod c - 1 - 0) mod c = i.
Proof.
  intros Hc Hi. rewrite Z.sub_0_r, Zminus_mod_idemp_l.
  replace (i + 1 - 1) with i by lia. apply Z.mod_small. lia.
Qed.

Lemma slot_push_old (i c k : Z) :
  0 < c → ((i + 1) mod c - 1 - (k + 1)) mod c = (i - 1 - k) mod c.
Proof.
  intros Hc.
  replace ((i + 1) mod c - 1 - (k + 1)) with ((i + 1) mod c - (k + 2)) by lia.
  rewrite Zminus_mod_idemp_l. f_equal. lia.
Qed.

Lemma slot_pop (i c k : Z) :
  0 < c → ((i - 1) mod c - 1 - k) mod c = (i - 1 - (k + 1)) mod c.
Proof.
  intros Hc.
  replace ((i - 1) mod c - 1 - k) with ((i - 1) mod c - (k + 1)) by lia.
  rewrite Zminus_mod_idemp_l. f_equal.
Qed.

Lemma slot_live_ne (i c k : Z) :
  0 < c → 0 <= i < c → 0 <= k → k + 1 < c → (i - 1 - k) mod c ≠ i.
Proof.
  intros Hc Hi Hk Hk' E.
  assert (H0 : (k + 1) mod c = 0).
  { replace (k + 1) with (i - (i - 1 - k)) by lia.
    rewrite <- Zminus_mod_idemp_r, E.
    replace (i - i) with 0 by lia. apply Z.mod_0_l. lia. }
  rewrite Z.mod_small in H0 by lia. lia.
Qed.

Lemma slot_oldest (i c : Z) :
  0 < c → 0 <= i < c → (i - 1 - (c - 1)) mod c = i.
Proof.
  intros Hc Hi. replace (i - 1 - (c - 1)) with (i + (-1) * c) by lia.
  rewrite Z.mod_add by lia. apply Z.mod_small. lia.
Qed.

Lemma rem_push (i c : Z) :
  0 < c → 0 <= i < c → c <= maxSliceLen →
  rem64 (add64 i 1) c = Ok ((i + 1) mod c).
Proof.
  intros Hc Hi Hm. pose proof maxSliceLen_bound.
  unfold rem64, add64. rewrite wrap64_small by lia.
  destruct (Z.eqb_spec c 0); [lia|].
  rewrite Z.rem_mod_nonneg by lia. reflexivity.
Qed.

Lemma rem_pop (i c : Z) :
  0 < c → 0 <= i < c → c <= maxSliceLen →
  rem64 (add64 (sub64 i 1) c) c = Ok ((i - 1) mod c).
Proof.
  intros Hc Hi Hm. pose proof maxSliceLen_bound.
  unfold rem64, add64, sub64. rewrite (wrap64_small (i - 1)) by lia.
  rewrite wrap64_small by lia.
  destruct (Z.eqb_spec c 0); [lia|].
  rewrite Z.rem_mod_nonneg by lia.
  replace (i - 1 + c) with (i - 1 + 1 * c) by lia.
  rewrite Z.mod_add by lia. reflexivity.
Qed.

(** ** [LIFOBuffer] operations on the represented stack *)

Lemma lifo_rep_length (b : LIFOBuffer.t) (l : list Z) :
  lifo_rep b l → Z.of_nat (length l) < 2 ^ 62.
Proof.
  intros [[Hc _ _ Hn] Hl _ _]. pose proof maxSliceLen_bound. lia.
Qed.

Lemma NewLIFOBuffer_rep (c : Z) :
  0 < c <= maxSliceLen →
  ∃ b, LIFOBuffer.NewLIFOBuffer c = Ok b ∧ lifo_rep b [] ∧
       LIFOBuffer.capacity b = c.
Proof.
  intros Hc. unfold LIFOBuffer.NewLIFOBuffer, make_slice.
  destruct (Z.ltb_spec c 0); [lia|].
  destruct (Z.ltb_spec maxSliceLen c); [lia|]. simpl.
  eexists; split; [reflexivity|]. split; [|reflexivity].
  split; simpl.
  - split; simpl; try lia. rewrite length_replicate. lia.
  - reflexivity.
  - intros k x Hk. discriminate.
  - intros x. apply lookup_empty.
Qed.

Lemma Reset_rep (b : LIFOBuffer.t) :
  lifo_wf b → lifo_rep (LIFOBuffer.Reset b) [] ∧
  LIFOBuffer.capacity (LIFOBuffer.Reset b) = LIFOBuffer.capacity b.
Proof.
  intros [Hc Hb Hi Hn]. split; [|reflexivity]. split; simpl.
  - split; simpl; lia.
  - reflexivity.
  - intros k x Hk. discriminate.
  - intros x. apply lookup_empty.
Qed.

Lemma Contains_rep (b : LIFOBuffer.t) (l : list Z) (x : Z) :
  lifo_rep b l → LIFOBuffer.Contains x b = bool_decide (x ∈ l).
Proof.
  intros [_ _ _ Hcnt]. unfold LIFOBuffer.Contains. rewrite Hcnt. unfold cnt.
  destruct (Z.eqb_spec (occ x l) 0) as [E|E].
  - apply occ_zero in E. rewrite bool_decide_eq_false_2; done.
  - rewrite bool_decide_eq_true_2; [done|].
    destruct (decide (x ∈ l)) as [|Hn]; [done|].
    apply occ_zero in Hn. done.
Qed.

Lemma Pop_rep_nil (b : LIFOBuffer.t) :
  lifo_rep b [] → LIFOBuffer.Pop b = Ok (0, false, b).
Proof.
  intros [_ Hn _ _]. unfold LIFOBuffer.Pop. rewrite Hn. reflexivity.
Qed.

Lemma Pop_rep_cons (b : LIFOBuffer.t) (x : Z) (l : list Z) :
  lifo_rep b (x :: l) →
  ∃ b', LIFOBuffer.Pop b = Ok (x, true, b') ∧ lifo_rep b' l ∧
        LIFOBuffer.capacity b' = LIFOBuffer.capacity b.
Proof.
  intros Hrep. pose proof (lifo_rep_length _ _ Hrep) as Hlen.
  destruct Hrep as [[Hc Hb Hi Hn] Hl Hbuf Hcnt].
  simpl length in *.
  unfold LIFOBuffer.Pop.
  destruct (Z.eqb_spec (LIFOBuffer.n b) 0) as [E|_]; [lia|].
  rewrite rem_pop by lia. simpl.
  assert (Hj : 0 <= (LIFOBuffer.i b - 1) mod LIFOBuffer.capacity b
               < LIFOBuffer.capacity b) by (apply Z.mod_pos_bound; lia).
  pose proof (Hbuf 0%nat x eq_refl) as H0. unfold slot in H0.
  simpl Z.of_nat in H0. rewrite Z.sub_0_r in H0.
  unfold slice_get. destruct (Z.ltb_spec ((LIFOBuffer.i b - 1) mod LIFOBuffer.capacity b) 0); [lia|].
  rewrite H0. simpl.
  eexists; split; [reflexivity|]. split; [|reflexivity].
  split; simpl.
  - split; simpl; try lia. unfold sub64. rewrite wrap64_small by lia. lia.
  - unfold sub64. rewrite wrap64_small by lia. lia.
  - intros k y Hk. unfold slot; simpl.
    rewrite slot_pop by lia.
    specialize (Hbuf (S k) y Hk). unfold slot in Hbuf.
    rewrite Nat2Z.inj_succ in Hbuf.
    replace (Z.succ (Z.of_nat k)) with (Z.of_nat k + 1) in Hbuf by lia.
    exact Hbuf.
  - apply (count_dec _ (x :: l)); [simpl length; lia | exact Hcnt |].
    intros y. apply occ_cons.
Qed.

Lemma slice_set_ok (s : list Z) (k x : Z) :
  0 <= k < Z.of_nat (length s) →
  slice_set s k x = Ok (<[Z.to_nat k := x]> s).
Proof.
  intros Hk. unfold slice_set. destruct (Z.ltb_spec k 0); [lia|].
  destruct (lookup_lt_is_Some_2 s (Z.to_nat k)) as [y ->]; [lia|]. reflexivity.
Qed.

Lemma push_tail (b1 : LIFOBuffer.t) (l1 : list Z) (x : Z) :
  0 < LIFOBuffer.capacity b1 <= maxSliceLen →
  Z.of_nat (length (LIFOBuffer.buf b1)) = LIFOBuffer.capacity b1 →
  0 <= LIFOBuffer.i b1 < LIFOBuffer.capacity b1 →
  LIFOBuffer.n b1 = Z.of_nat (length l1) →
  Z.of_nat (length l1) < LIFOBuffer.capacity b1 →
  (∀ (k : nat) (y : Z), l1 !! k = Some y → LIFOBuffer.buf b1 !! slot b1 k = Some y) →
  (∀ y, LIFOBuffer.count b1 !! y = cnt (occ y l1)) →
  ∃ b',
    (let b2 := LIFOBuffer.incCount x b1 in
     s ← slice_set (LIFOBuffer.buf b2) (LIFOBuffer.i b2) x;
     j ← rem64 (add64 (LIFOBuffer.i b2) 1) (LIFOBuffer.capacity b2);
     Ok (LIFOBuffer.mk s j (LIFOBuffer.n b2) (LIFOBuffer.count b2)
           (LIFOBuffer.capacity b2))) = Ok b' ∧
    lifo_rep b' (x :: l1) ∧
    LIFOBuffer.capacity b' = LIFOBuffer.capacity b1.
Proof.
  intros Hc Hb Hi Hn Hlen Hbuf Hcnt. pose proof maxSliceLen_bound.
  simpl. rewrite slice_set_ok by lia. simpl.
  rewrite rem_push by lia. simpl.
  eexists; split; [reflexivity|]. split; [|reflexivity].
  assert (Hj : 0 <= (LIFOBuffer.i b1 + 1) mod LIFOBuffer.capacity b1
               < LIFOBuffer.capacity b1) by (apply Z.mod_pos_bound; lia).
  split; simpl.
  - split; simpl; try lia.
    + rewrite length_insert. lia.
    + unfold add64. rewrite wrap64_small by lia. lia.
  - unfold add64. rewrite wrap64_small by lia. lia.
  - intros k y Hk. unfold slot; simpl. destruct k as [|k]; simpl in Hk.
    + injection Hk as <-. simpl Z.of_nat. rewrite slot_push_new by lia.
      apply list_lookup_insert_eq. lia.
    + rewrite Nat2Z.inj_succ.
      replace (Z.succ (Z.of_nat k)) with (Z.of_nat k + 1) by lia.
      rewrite slot_push_old by lia.
      apply lookup_lt_Some in Hk as Hk'.
      rewrite list_lookup_insert_ne.
      * apply Hbuf. exact Hk.
      * intros E. apply Z2Nat.inj in E; try lia.
        -- symmetry in E. revert E. apply slot_live_ne; lia.
        -- apply Z.mod_pos_bound. lia.
  - apply count_inc; [lia | exact Hcnt].
Qed.

Lemma Push_rep (b : LIFOBuffer.t) (l : list Z) (x : Z) :
  lifo_rep b l →
  ∃ b', LIFOBuffer.Push x b = Ok b' ∧
        lifo_rep b' (Stack.push (LIFOBuffer.capacity b) x l) ∧
        LIFOBuffer.capacity b' = LIFOBuffer.capacity b.
Proof.
  intros Hrep. pose proof (lifo_rep_length _ _ Hrep) as Hlen.
  destruct Hrep as [[Hc Hb Hi Hn] Hl Hbuf Hcnt].
  unfold LIFOBuffer.Push, Stack.push. rewrite <- Hl.
  destruct (Z.eqb_spec (LIFOBuffer.n b) (LIFOBuffer.capacity b)) as [Hfull|Hroom].
  - (* at capacity: the oldest value is evicted *)
    destruct (last l) as [old|] eqn:Hlast;
      [|apply last_None in Hlast; subst l; simpl in *; lia].
    apply last_Some in Hlast as [l0 ->].
    rewrite length_app in *. simpl length in *.
    replace (length l0 + 1 - 1)%nat with (length l0) by lia.
    rewrite take_app_length.
    assert (Hold : LIFOBuffer.buf b !! Z.to_nat (LIFOBuffer.i b) = Some old).
    { specialize (Hbuf (length l0) old). unfold slot in Hbuf.
      replace (Z.of_nat (length l0)) with (LIFOBuffer.capacity b - 1) in Hbuf by lia.
      rewrite slot_oldest in Hbuf by lia. apply Hbuf.
      rewrite lookup_app_r by lia. rewrite Nat.sub_diag. reflexivity. }
    unfold slice_get. destruct (Z.ltb_spec (LIFOBuffer.i b) 0); [lia|].
    rewrite Hold. simpl.
    apply (push_tail (LIFOBuffer.decCount old b) l0 x); simpl; try lia.
    + unfold sub64. rewrite wrap64_small by lia. lia.
    + intros k y Hk. apply (Hbuf k y). apply lookup_app_l_Some. exact Hk.
    + apply (count_dec _ (l0 ++ [old])); [rewrite length_app; simpl; lia | exact Hcnt |].
      intros y. rewrite occ_app, occ_cons, occ_nil. lia.
  - simpl. apply (push_tail b l x); try lia; assumption.
Qed.

Lemma lifo_run_refines (ops : list lifo_op) :
  ∀ (b : LIFOBuffer.t) (l : list Z),
    lifo_rep b l →
    ∃ b', lifo_run ops b
          = Ok ((stack_run (LIFOBuffer.capacity b) ops l).1, b') ∧
          lifo_rep b' (stack_run (LIFOBuffer.capacity b) ops l).2 ∧
          LIFOBuffer.capacity b' = LIFOBuffer.capacity b.
Proof.
  induction ops as [|[x| |] ops IH]; intros b l Hrep; simpl.
  - exists b. auto.
  - destruct (Push_rep b l x Hrep) as (b1 & -> & Hrep1 & Hc1). simpl.
    destruct (IH _ _ Hrep1) as (b' & Hrun & Hrep' & Hc').
    rewrite Hc1 in *. eauto.
  - destruct l as [|y l]; simpl.
    + rewrite (Pop_rep_nil b Hrep). simpl.
      destruct (IH _ _ Hrep) as (b' & -> & Hrep' & Hc'). simpl.
      destruct (stack_run (LIFOBuffer.capacity b) ops []) as [out l'].
      simpl in *. eauto.
    + destruct (Pop_rep_cons b y l Hrep) as (b1 & -> & Hrep1 & Hc1). simpl.
      destruct (IH _ _ Hrep1) as (b' & -> & Hrep' & Hc'). simpl.
      rewrite Hc1 in *.
      destruct (stack_run (LIFOBuffer.capacity b) ops l) as [out l'].
      simpl in *. eauto.
  - destruct (Reset_rep b (rep_wf _ _ Hrep)) as [Hrep1 Hc1].
    destruct (IH _ _ Hrep1) as (b' & Hrun & Hrep' & Hc').
    rewrite Hc1 in *. eauto.
Qed.

(** C6. A buffer created with capacity [c] and driven by any sequence of
    [Push], [Pop] and [Reset] calls behaves as the bounded stack: every
    [Pop] returns the most recent value still buffered (so values come out
    in the reverse of their push order), a [Push] at capacity discards the
    oldest buffered value, and [Contains] and [Len] report that stack. *)
Theorem LIFOBuffer_is_bounded_stack (c : Z) (ops : list lifo_op) :
  0 < c <= maxSliceLen →
  ∃ b0 b',
    LIFOBuffer.NewLIFOBuffer c = Ok b0 ∧
    lifo_run ops b0 = Ok ((stack_run c ops []).1, b') ∧
    (∀ x, LIFOBuffer.Contains x b' = bool_decide (x ∈ (stack_run c ops []).2)) ∧
    LIFOBuffer.Len b' = Z.of_nat (length (stack_run c ops []).2).
Proof.
  intros Hc.
  destruct (NewLIFOBuffer_rep c Hc) as (b0 & Hnew & Hrep0 & Hc0).
  destruct (lifo_run_refines ops b0 [] Hrep0) as (b' & Hrun & Hrep' & _).
  rewrite Hc0 in *.
  exists b0, b'. repeat split; try assumption.
  - intros x. apply Contains_rep. exact Hrep'.
  - apply (rep_n _ _ Hrep').
Qed.

(** The test "pushing to full buffer should overwrite oldest value":
    capacity 2, [Push(1); Push(2); Push(3)], then [Contains(1)] is false and
    [Pop()] returns 3. *)
Lemma LIFOBuffer_is_bounded_stack_witness :
  ∃ b0 b',
    LIFOBuffer.NewLIFOBuffer 2 = Ok b0 ∧
    lifo_run [OPush 1; OPush 2; OPush 3] b0 = Ok ([], b') ∧
    (∀ x, LIFOBuffer.Contains x b' = bool_decide (x ∈ [3; 2])) ∧
    LIFOBuffer.Len b' = 2.
Proof.
  apply (LIFOBuffer_is_bounded_stack 2 [OPush 1; OPush 2; OPush 3]).
  split; [reflexivity | intros H; discriminate H].
Defined.

Example LIFOBuffer_overwrite_test :
  (b ← LIFOBuffer.NewLIFOBuffer 2;
   b ← LIFOBuffer.Push 1 b;
   b ← LIFOBuffer.Push 2 b;
   b ← LIFOBuffer.Push 3 b;
   '(x, ok, b') ← LIFOBuffer.Pop b;
   Ok (LIFOBuffer.Contains 1 b, x, ok)) = Ok (false, 3, true).
Proof. vm_compute. reflexivity. Qed.

(** ** Segments of linked cells *)

Lemma succ_of_app (l1 l2 : list ptr) (nx : option ptr) :
  succ_of (l1 ++ l2) nx = succ_of l1 (succ_of l2 nx).
Proof. destruct l1; reflexivity. Qed.

Lemma pred_of_cons (pv : option ptr) (p : ptr) (l : list ptr) :
  pred_of pv (p :: l) = pred_of (Some p) l.
Proof.
  unfold pred_of. destruct l as [|q l]; [reflexivity|].
  rewrite last_cons_cons. destruct (last (q :: l)) eqn:E; [reflexivity|].
  apply last_None in E. discriminate.
Qed.

Lemma seg_app (h : store) (l1 l2 : list ptr) (pv nx : option ptr) :
  seg h pv (l1 ++ l2) nx ↔
  seg h pv l1 (succ_of l2 nx) ∧ seg h (pred_of pv l1) l2 nx.
Proof.
  revert pv. induction l1 as [|p l1 IH]; intros pv; simpl.
  - unfold pred_of. simpl. tauto.
  - rewrite IH, succ_of_app, pred_of_cons. tauto.
Qed.


(** A segment only depends on the links of its own cells. *)
Lemma seg_ext (h h' : store) (ps : list ptr) (pv nx : option ptr) :
  (∀ q nd, q ∈ ps → h !! q = Some nd →
           ∃ nd', h' !! q = Some nd' ∧ node.prev nd' = node.prev nd ∧
                  node.next nd' = node.next nd) →
  seg h pv ps nx → seg h' pv ps nx.
Proof.
  revert pv. induction ps as [|p ps IH]; intros pv Hext; simpl; [done|].
  intros [(nd & Hp & Hpv & Hnx) Hseg]. split.
  - destruct (Hext p nd) as (nd' & Hp' & E1 & E2); [left | done |].
    exists nd'. rewrite E1, E2. done.
  - apply IH; [|done]. intros q nd0 Hq. apply Hext. by right.
Qed.

Lemma seg_lookup (h : store) (ps : list ptr) (pv nx : option ptr) (p : ptr) :
  seg h pv ps nx → p ∈ ps → is_Some (h !! p).
Proof.
  revert pv. induction ps as [|q ps IH]; intros pv Hseg Hin.
  - by apply not_elem_of_nil in Hin.
  - destruct Hseg as [(nd & Hq & _) Hseg].
    apply elem_of_cons in Hin as [->|Hin]; [eauto | by eapply IH].
Qed.

Lemma seg_insert_frame (h : store) (ps : list ptr) (pv nx : option ptr)
      (p : ptr) (nd : node.t) :
  p ∉ ps → seg h pv ps nx → seg (<[p := nd]> h) pv ps nx.
Proof.
  intros Hp. apply seg_ext. intros q nd0 Hq Hl.
  exists nd0. rewrite list_lookup_insert_ne; [done|]. intros ->. done.
Qed.

Lemma seg_alloc (h : store) (ps : list ptr) (pv nx : option ptr) (nd : node.t) :
  seg h pv ps nx → seg (h ++ [nd]) pv ps nx.
Proof.
  apply seg_ext. intros q nd0 Hq Hl. exists nd0.
  split; [|done]. by apply lookup_app_l_Some.
Qed.

Lemma seg_set_v (h : store) (ps : list ptr) (pv nx : option ptr)
      (p : ptr) (nd : node.t) (x : Z) :
  h !! p = Some nd → seg h pv ps nx →
  seg (<[p := node.set_v x nd]> h) pv ps nx.
Proof.
  intros Hp. apply seg_ext. intros q nd0 Hq Hl.
  destruct (decide (p = q)) as [->|Hne].
  - exists (node.set_v x nd). rewrite list_lookup_insert_eq.
    + replace nd0 with nd by congruence. done.
    + by eapply lookup_lt_Some.
  - exists nd0. by rewrite list_lookup_insert_ne.
Qed.

Lemma seg_set_prev (h : store) (p : ptr) (ps : list ptr) (pv nx x : option ptr)
      (nd : node.t) :
  p ∉ ps → h !! p = Some nd → seg h pv (p :: ps) nx →
  seg (<[p := node.set_prev x nd]> h) x (p :: ps) nx.
Proof.
  intros Hnin Hp [(nd0 & Hp0 & _ & Hnx) Hseg]. split.
  - exists (node.set_prev x nd). rewrite list_lookup_insert_eq.
    + replace nd with nd0 by congruence. done.
    + by eapply lookup_lt_Some.
  - by apply seg_insert_frame.
Qed.

Lemma seg_set_next (h : store) (p : ptr) (ps : list ptr) (pv nx x : option ptr)
      (nd : node.t) :
  p ∉ ps → h !! p = Some nd → seg h pv (ps ++ [p]) nx →
  seg (<[p := node.set_next x nd]> h) pv (ps ++ [p]) x.
Proof.
  intros Hnin Hp. rewrite !seg_app. simpl.
  intros [Hseg [(nd0 & Hp0 & Hpv & _) _]]. split.
  - by apply seg_insert_frame.
  - split; [|done]. exists (node.set_next x nd). rewrite list_lookup_insert_eq.
    + replace nd with nd0 by congruence. done.
    + by eapply lookup_lt_Some.
Qed.

(** Rings can be read from any of their cells. *)
Lemma ring_rotate (h : store) (l1 l2 : list ptr) :
  ring h (l1 ++ l2) ↔ ring h (l2 ++ l1).
Proof.
  destruct l1 as [|p l1]; [by rewrite app_nil_r|].
  destruct l2 as [|q l2]; [by rewrite app_nil_r|].
  unfold ring. rewrite !seg_app.
  rewrite !last_app. unfold pred_of.
  destruct (last (p :: l1)) as [a|] eqn:E1; [|by apply last_None in E1].
  destruct (last (q :: l2)) as [b|] eqn:E2; [|by apply last_None in E2].
  simpl. tauto.
Qed.

(** ** The store *)

Lemma load_ok (h : store) (p : ptr) (nd : node.t) :
  h !! p = Some nd → load (Some p) h = Ok nd.
Proof. intros E. unfold load. by rewrite E. Qed.

Lemma upd_ok (h : store) (p : ptr) (nd : node.t) (f : node.t → node.t) :
  h !! p = Some nd → upd (Some p) f h = Ok (<[p := f nd]> h).
Proof. intros E. unfold upd. by rewrite E. Qed.

Lemma val_insert (h : store) (p q : ptr) (nd nd' : node.t) :
  h !! p = Some nd → node.v nd' = node.v nd →
  val (<[p := nd']> h) q = val h q.
Proof.
  intros Hp Hv. unfold val. destruct (decide (p = q)) as [->|Hne].
  - rewrite list_lookup_insert_eq by (by eapply lookup_lt_Some).
    by rewrite Hp.
  - by rewrite list_lookup_insert_ne.
Qed.

Lemma val_insert_ne (h : store) (p q : ptr) (nd : node.t) :
  p ≠ q → val (<[p := nd]> h) q = val h q.
Proof. intros Hne. unfold val. by rewrite list_lookup_insert_ne. Qed.

Lemma val_insert_eq (h : store) (p : ptr) (nd nd' : node.t) :
  h !! p = Some nd → val (<[p := nd']> h) p = node.v nd'.
Proof.
  intros Hp. unfold val.
  by rewrite list_lookup_insert_eq by (by eapply lookup_lt_Some).
Qed.

Lemma val_alloc_old (h : store) (q : ptr) (nd : node.t) :
  is_Some (h !! q) → val (h ++ [nd]) q = val h q.
Proof.
  intros [nd0 Hq]. unfold val. by rewrite (lookup_app_l_Some _ _ _ _ Hq), Hq.
Qed.

Lemma val_alloc_new (h : store) (nd : node.t) :
  val (h ++ [nd]) (length h) = node.v nd.
Proof.
  unfold val. rewrite lookup_app_r by lia. by rewrite Nat.sub_diag.
Qed.

Lemma vals_ext (h h' : store) (ps : list ptr) :
  (∀ q, q ∈ ps → val h' q = val h q) → vals h' ps = vals h ps.
Proof.
  intros Hext. unfold vals. induction ps as [|p ps IH]; [done|]. simpl.
  rewrite Hext by left. f_equal. apply IH. intros q Hq. apply Hext. by right.
Qed.

Lemma vals_app (h : store) (l1 l2 : list ptr) :
  vals h (l1 ++ l2) = vals h l1 ++ vals h l2.
Proof. apply fmap_app. Qed.

(** ** The index *)

Lemma index_size (m : gmap Z ptr) (f : ptr → Z) (qs : list ptr) :
  NoDup qs →
  (∀ x p, m !! x = Some p ↔ p ∈ qs ∧ f p = x) →
  size m = length qs.
Proof.
  intros Hnd. revert m. induction Hnd as [|q qs Hq Hnd IH]; intros m Hm.
  - apply map_size_empty_iff, map_empty. intros x.
    destruct (m !! x) as [p|] eqn:E; [|done].
    apply Hm in E as [E _]. by apply not_elem_of_nil in E.
  - assert (Hmq : m !! f q = Some q) by (apply Hm; split; [left|done]).
    assert (Hd : size (delete (f q) m) = length qs).
    { apply IH. intros x p. rewrite lookup_delete_Some, Hm. split.
      - intros (Hne & Hin & Hf). apply elem_of_cons in Hin as [->|Hin]; done.
      - intros [Hin Hf]. split; [|split; [by right | done]].
        intros E. rewrite <- Hf in E.
        assert (Some q = Some p) as [= ->]; [|done].
        rewrite <- Hmq. rewrite E. apply Hm. split; [by right | done]. }
    rewrite map_size_delete_Some in Hd by eauto. simpl.
    assert (size m ≠ 0%nat) by (eapply map_size_ne_0_lookup_2; eauto).
    lia.
Qed.

Lemma Inv_Len (r : Robin.t) (ps : list ptr) :
  Inv r ps → Robin.Len r = Z.of_nat (length ps).
Proof.
  intros HI. unfold Robin.Len. f_equal.
  apply (index_size _ (val (Robin.heap r))); [apply HI|]. apply HI.
Qed.

Lemma Inv_Contains (r : Robin.t) (ps : list ptr) (x : Z) :
  Inv r ps →
  Robin.Contains x r = bool_decide (x ∈ vals (Robin.heap r) ps).
Proof.
  intros HI. unfold Robin.Contains.
  destruct (Robin.nodes r !! x) as [p|] eqn:E.
  - apply (inv_index _ _ HI) in E as [Hin Hv]. symmetry.
    apply bool_decide_eq_true_2. unfold vals.
    apply list_elem_of_fmap. eauto.
  - symmetry. apply bool_decide_eq_false_2. unfold vals.
    intros (p & Hv & Hin)%list_elem_of_fmap.
    assert (Robin.nodes r !! x = Some p) by (apply HI; done). congruence.
Qed.

Lemma BufRep_ext (r r' : Robin.t) (bf : option (Z * list Z)) :
  Robin.nodes r' = Robin.nodes r → Robin.maxLen r' = Robin.maxLen r →
  Robin.buffer r' = Robin.buffer r → BufRep r bf → BufRep r' bf.
Proof.
  intros Hn Hm Hb. unfold BufRep. rewrite Hb.
  destruct (Robin.buffer r) as [b|], bf as [[c l]|]; try done.
  intros [Hc [H1 H2 H3 H4]]. split; [done|]. split; try done.
  - intros x Hx. rewrite Hn. by apply H3.
  - intros Hl. unfold Robin.full, Robin.Len. rewrite Hn, Hm. by apply H4.
Qed.

(** ** [Next] *)

Lemma Next_Inv (r : Robin.t) (p : ptr) (ps : list ptr) :
  Inv r (p :: ps) →
  Robin.Next r = Ok (val (Robin.heap r) p, true,
                     Robin.set_next (head (ps ++ [p])) r) ∧
  Inv (Robin.set_next (head (ps ++ [p])) r) (ps ++ [p]).
Proof.
  intros [Hnd Hcur Hring Hidx Hb]. simpl in Hcur.
  pose proof Hring as [(nd & Hp & _ & Hnx) _].
  assert (Hsucc : node.next nd = head (ps ++ [p])).
  { rewrite Hnx. by destruct ps. }
  split.
  - unfold Robin.Next. rewrite Hcur, (load_ok _ _ _ Hp). simpl.
    unfold val. rewrite Hp, Hsucc. done.
  - split; simpl.
    + apply NoDup_app. apply NoDup_cons in Hnd as [Hp' Hnd].
      split; [done|]. split; [|apply NoDup_singleton].
      intros q Hq ->%list_elem_of_singleton. done.
    + done.
    + by apply (ring_rotate _ [p] ps).
    + intros x q. rewrite Hidx. rewrite elem_of_app, elem_of_cons.
      rewrite list_elem_of_singleton. tauto.
    + intros Hm. rewrite length_app. simpl in *. specialize (Hb Hm). lia.
Qed.

(** ** [Add] *)

Lemma index_insert_fresh (m : gmap Z ptr) (f f' : ptr → Z) (qs qs' : list ptr)
      (x : Z) (p : ptr) :
  (∀ y q, m !! y = Some q ↔ q ∈ qs ∧ f q = y) →
  m !! x = None → p ∉ qs →
  (∀ q, q ∈ qs' ↔ q = p ∨ q ∈ qs) →
  (∀ q, q ∈ qs → f' q = f q) → f' p = x →
  ∀ y q, <[x := p]> m !! y = Some q ↔ q ∈ qs' ∧ f' q = y.
Proof.
  intros Hm Hx Hp Hqs Hf Hfp y q. rewrite Hqs.
  destruct (decide (x = y)) as [<-|Hne].
  - rewrite lookup_insert_eq. split.
    + intros [= <-]. auto.
    + intros [[->|Hin] Hv]; [done|].
      rewrite Hf in Hv by done.
      assert (m !! x = Some q) by (apply Hm; done). congruence.
  - rewrite lookup_insert_ne by done. rewrite Hm. split.
    + intros [Hin Hv]. rewrite Hf by done. auto.
    + intros [[->|Hin] Hv]; [congruence|]. rewrite Hf in Hv by done. done.
Qed.

Lemma Chained_valid (r : Robin.t) (ps new : list ptr) (hd tl : option ptr) (q : ptr) :
  Chained r ps new hd tl → q ∈ new ++ ps → is_Some (Robin.heap r !! q).
Proof.
  intros HC [Hq|Hq]%elem_of_app.
  - eapply seg_lookup; [apply (ch_chain _ _ _ _ _ HC)|done].
  - eapply seg_lookup; [apply (ch_ring _ _ _ _ _ HC)|done].
Qed.

Lemma AddInv_Len (r : Robin.t) (ps new : list ptr) (hd tl : option ptr) :
  AddInv r ps new hd tl → Robin.Len r = Z.of_nat (length (new ++ ps)).
Proof.
  intros HA. unfold Robin.Len. f_equal.
  apply (index_size _ (val (Robin.heap r))); [|apply HA].
  apply (ch_nodup _ _ _ _ _ (add_chained _ _ _ _ _ HA)).
Qed.

(** One iteration of the loop that allocates a cell for [x]: the store. *)
Lemma Add_loop_alloc_shape (r : Robin.t) (ps new : list ptr) (hd tl : option ptr)
      (x : Z) :
  Chained r ps new hd tl →
  Robin.nodes r !! x = None → Robin.full r = false →
  ∃ (r1 : Robin.t) (p : ptr),
    (∀ vs, Robin.Add_loop (x :: vs) r hd tl
           = Robin.Add_loop vs r1 (head (new ++ [p])) (Some p)) ∧
    Chained r1 ps (new ++ [p]) (head (new ++ [p])) (Some p) ∧
    (p ∉ new ++ ps) ∧
    (∀ q, q ∈ new ++ ps → val (Robin.heap r1) q = val (Robin.heap r) q) ∧
    val (Robin.heap r1) p = x ∧
    Robin.nodes r1 = <[x := p]> (Robin.nodes r) ∧
    Robin.buffer r1 = Robin.buffer r ∧ Robin.maxLen r1 = Robin.maxLen r.
Proof.
  intros HC Hx Hfull.
  pose proof (λ q, Chained_valid _ _ _ _ _ q HC) as Hvalid.
  destruct HC as [Hnd Hcur Hring Hchain Hhd Htl].
  set (h := Robin.heap r) in *. set (p := length h).
  set (nd := node.mk x None None).
  assert (Hfresh : p ∉ new ++ ps).
  { intros Hin. apply Hvalid, lookup_lt_is_Some in Hin. unfold p in Hin. lia. }
  assert (Hpnew : p ∉ new) by (intros ?; apply Hfresh, elem_of_app; auto).
  assert (Hpps : p ∉ ps) by (intros ?; apply Hfresh, elem_of_app; auto).
  assert (Hlp : (h ++ [nd]) !! p = Some nd).
  { unfold p. rewrite lookup_app_r by lia. by rewrite Nat.sub_diag. }
  assert (Hnd' : NoDup ((new ++ [p]) ++ ps)).
  { rewrite <- app_assoc. simpl. apply NoDup_app in Hnd as (H1 & H2 & H3).
    apply NoDup_app. split; [done|]. split.
    - intros q Hq [->|Hq']%elem_of_cons; [done|]. by apply (H2 q).
    - apply NoDup_cons. done. }
  destruct (last new) as [t|] eqn:Hlast.
  - (* the chain is not empty: link the new cell after [tail] *)
    apply last_Some in Hlast as [new0 ->].
    destruct (head (new0 ++ [t])) as [a|] eqn:Hhead;
      [|apply head_None in Hhead; by destruct new0].
    assert (Htp : t ≠ p).
    { intros ->. apply Hpnew, elem_of_app. right. by left. }
    assert (Htin : t ∈ (new0 ++ [t]) ++ ps).
    { apply elem_of_app. left. apply elem_of_app. right. by left. }
    destruct (Hvalid t Htin) as [ndt Ht].
    set (h1 := <[p := node.set_prev (Some t) nd]> (h ++ [nd])).
    set (h2 := <[t := node.set_next (Some p) ndt]> h1).
    assert (Ht1 : h1 !! t = Some ndt).
    { unfold h1. rewrite list_lookup_insert_ne by done.
      by apply lookup_app_l_Some. }
    assert (Hv2 : ∀ q, q ∈ (new0 ++ [t]) ++ ps → val h2 q = val h q).
    { intros q Hq. unfold h2. rewrite (val_insert _ _ _ _ _ Ht1) by done.
      unfold h1. rewrite val_insert_ne by (intros <-; done).
      apply val_alloc_old. by apply Hvalid. }
    assert (Hv2p : val h2 p = x).
    { unfold h2. rewrite val_insert_ne by done.
      unfold h1. by rewrite (val_insert_eq _ _ _ _ Hlp). }
    exists (Robin.set_heap h2 (Robin.set_nodes (<[x := p]> (Robin.nodes r))
                                 (Robin.set_heap (h ++ [nd]) r))), p.
    assert (Hhead' : head ((new0 ++ [t]) ++ [p]) = Some a).
    { rewrite head_app, Hhead. done. }
    rewrite Hhead'.
    split_and!; try done.
    + intros vs. simpl. rewrite Hx, Hfull. unfold alloc. fold h p nd.
      rewrite Hhd, Htl. rewrite (upd_ok _ _ _ _ Hlp). simpl. fold h1.
      rewrite (upd_ok _ _ _ _ Ht1). simpl. done.
    + split; simpl; try done.
      * apply (seg_insert_frame _ _ _ _ t).
        { intros Hin. apply NoDup_app in Hnd as (_ & H2 & _).
          apply (H2 t); [|done]. apply elem_of_app. right. by left. }
        apply seg_insert_frame; [done|]. by apply seg_alloc.
      * apply seg_app. simpl. split.
        -- apply (seg_set_next _ _ _ _ None); [|done|].
           ++ apply NoDup_app in Hnd as (H1 & _ & _).
              apply NoDup_app in H1 as (_ & H2 & _).
              intros Hin. apply (H2 t Hin). by left.
           ++ apply seg_insert_frame; [done|]. by apply seg_alloc.
        -- split; [|done]. exists (node.set_prev (Some t) nd).
           unfold h2. rewrite list_lookup_insert_ne by done.
           unfold h1. rewrite list_lookup_insert_eq
             by (rewrite length_app; simpl; unfold p; lia).
           unfold pred_of. rewrite last_snoc. done.
      * by rewrite last_snoc.
  - (* first cell of the chain *)
    apply last_None in Hlast as ->. simpl in *.
    exists (Robin.set_nodes (<[x := p]> (Robin.nodes r))
                            (Robin.set_heap (h ++ [nd]) r)), p.
    split_and!; try done.
    + intros vs. simpl. rewrite Hx, Hfull. unfold alloc. fold h p nd.
      rewrite Hhd. done.
    + split; simpl; try done.
      * by apply seg_alloc.
      * split; [|done]. by exists nd.
    + intros q Hq. simpl. apply val_alloc_old. by apply Hvalid.
    + simpl. unfold p, h. apply val_alloc_new.
Qed.

(** The same iteration, with the index. *)
Lemma Add_loop_alloc (r : Robin.t) (ps new : list ptr) (hd tl : option ptr) (x : Z) :
  AddInv r ps new hd tl →
  Robin.nodes r !! x = None → Robin.full r = false →
  ∃ (r1 : Robin.t) (p : ptr),
    (∀ vs, Robin.Add_loop (x :: vs) r hd tl
           = Robin.Add_loop vs r1 (head (new ++ [p])) (Some p)) ∧
    AddInv r1 ps (new ++ [p]) (head (new ++ [p])) (Some p) ∧
    vals (Robin.heap r1) (new ++ [p]) = vals (Robin.heap r) new ++ [x] ∧
    vals (Robin.heap r1) ps = vals (Robin.heap r) ps ∧
    Robin.nodes r1 = <[x := p]> (Robin.nodes r) ∧
    Robin.buffer r1 = Robin.buffer r ∧ Robin.maxLen r1 = Robin.maxLen r.
Proof.
  intros HA Hx Hfull.
  pose proof (AddInv_Len _ _ _ _ _ HA) as HLen.
  destruct HA as [HC Hidx Hb].
  destruct (Add_loop_alloc_shape _ _ _ _ _ x HC Hx Hfull)
    as (r1 & p & Hstep & HC1 & Hfresh & Hv & Hvp & Hn & Hbuf & Hm).
  exists r1, p. split_and!; try done.
  - split; [done| |].
    + rewrite Hn.
      apply (index_insert_fresh _ (val (Robin.heap r)) _ (new ++ ps));
        try done.
      intros q. rewrite !elem_of_app, list_elem_of_singleton. tauto.
    + rewrite Hm. intros Hmx. specialize (Hb Hmx). unfold Robin.full in Hfull.
      rewrite HLen in Hfull. rewrite !length_app in *. simpl.
      destruct (Z.ltb_spec 0 (Robin.maxLen r)); [|lia]. simpl in Hfull.
      apply Z.eqb_neq in Hfull. lia.
  - rewrite vals_app. f_equal.
    + apply vals_ext. intros q Hq. apply Hv. apply elem_of_app. by left.
    + unfold vals. simpl. by rewrite Hvp.
  - apply vals_ext. intros q Hq. apply Hv. apply elem_of_app. by right.
Qed.

Lemma Stack_push_elem (c x y : Z) (l : list Z) :
  y ∈ Stack.push c x l → y = x ∨ y ∈ l.
Proof.
  unfold Stack.push. intros [->|Hin]%elem_of_cons; [by left|]. right.
  destruct (Z.of_nat (length l) =? c); [|done].
  eapply elem_of_sublist; [exact Hin | apply sublist_take].
Qed.

Lemma Stack_push_NoDup (c x : Z) (l : list Z) :
  NoDup l → x ∉ l → NoDup (Stack.push c x l).
Proof.
  intros Hnd Hx. unfold Stack.push. apply NoDup_cons. split.
  - intros Hin. apply Hx. destruct (Z.of_nat (length l) =? c); [|done].
    eapply elem_of_sublist; [exact Hin | apply sublist_take].
  - destruct (Z.of_nat (length l) =? c); [|done].
    eapply sublist_NoDup; [exact Hnd | apply sublist_take].
Qed.

Lemma AddInv_indexed (r : Robin.t) (ps new : list ptr) (hd tl : option ptr) (x : Z) :
  AddInv r ps new hd tl →
  is_Some (Robin.nodes r !! x) ↔
  x ∈ vals (Robin.heap r) new ++ vals (Robin.heap r) ps.
Proof.
  intros HA. rewrite <- vals_app. unfold vals. rewrite list_elem_of_fmap. split.
  - intros [p Hp]. apply (add_index _ _ _ _ _ HA) in Hp as [Hin Hv]. eauto.
  - intros (p & Hv & Hin). exists p. apply (add_index _ _ _ _ _ HA). done.
Qed.

Lemma AddInv_full (r : Robin.t) (ps new : list ptr) (hd tl : option ptr) :
  AddInv r ps new hd tl →
  Robin.full r =
  (0 <? Robin.maxLen r) &&
  (Z.of_nat (length (vals (Robin.heap r) new ++ vals (Robin.heap r) ps))
   =? Robin.maxLen r).
Proof.
  intros HA. unfold Robin.full. rewrite (AddInv_Len _ _ _ _ _ HA).
  rewrite <- vals_app. unfold vals. by rewrite length_fmap.
Qed.

Lemma Add_loop_refines (vs : list Z) :
  ∀ (r : Robin.t) (ps new : list ptr) (hd tl : option ptr)
    (bf : option (Z * list Z)),
    AddInv r ps new hd tl → BufRep r bf →
    ∃ (r' : Robin.t) (new' : list ptr) (hd' tl' : option ptr),
      Robin.Add_loop vs r hd tl = Ok (r', hd', tl') ∧
      AddInv r' ps new' hd' tl' ∧
      vals (Robin.heap r') new'
      = (Model.add (Robin.maxLen r) vs (vals (Robin.heap r) ps)
                   (vals (Robin.heap r) new) bf).1 ∧
      BufRep r'
        (Model.add (Robin.maxLen r) vs (vals (Robin.heap r) ps)
                   (vals (Robin.heap r) new) bf).2 ∧
      vals (Robin.heap r') ps = vals (Robin.heap r) ps ∧
      Robin.maxLen r' = Robin.maxLen r.
Proof.
  induction vs as [|x vs IH]; intros r ps new hd tl bf HA HB.
  - exists r, new, hd, tl. simpl. split_and!; done.
  - pose proof (AddInv_indexed _ _ _ _ _ x HA) as Hmem.
    pose proof (AddInv_full _ _ _ _ _ HA) as Hfull.
    cbn [Model.add Robin.Add_loop].
    destruct (decide (x ∈ vals (Robin.heap r) new ++ vals (Robin.heap r) ps))
      as [Hin|Hnin].
    { apply Hmem in Hin as [p ->]. by apply IH. }
    destruct (Robin.nodes r !! x) as [p|] eqn:Hx.
    { exfalso. apply Hnin, Hmem. eauto. }
    rewrite <- Hfull. destruct (Robin.full r) eqn:Hf.
    + (* the Robin is full *)
      unfold BufRep in HB.
      destruct (Robin.buffer r) as [b|] eqn:Hbuf, bf as [[c l]|]; try done.
      * destruct HB as [Hc HC].
        rewrite (Contains_rep _ _ x (cpl_rep _ _ _ HC)).
        destruct (decide (x ∈ l)) as [Hl|Hl].
        { rewrite bool_decide_eq_true_2 by done. apply IH; [done|].
          unfold BufRep. by rewrite Hbuf. }
        rewrite bool_decide_eq_false_2 by done.
        destruct (Push_rep b l x (cpl_rep _ _ _ HC)) as (b' & -> & Hrep' & Hc').
        simpl. rewrite Hc in *.
        apply (IH (Robin.set_buffer (Some b') r)).
        -- destruct HA as [[] ? ?]. split; [by split|done|done].
        -- unfold BufRep. simpl. split; [congruence|].
           destruct HC as [_ Hnd Hdis _]. split; [done| | |done].
           ++ by apply Stack_push_NoDup.
           ++ intros y [->|Hy]%Stack_push_elem; [done | by apply Hdis].
      * exists r, new, hd, tl. unfold BufRep. rewrite Hbuf. split_and!; done.
    + (* a cell is allocated *)
      destruct (Add_loop_alloc _ _ _ _ _ x HA Hx Hf)
        as (r1 & p & Hstep & HA1 & Hv1 & Hv1' & Hn1 & Hb1 & Hm1).
      specialize (Hstep vs). cbn [Robin.Add_loop] in Hstep.
      rewrite Hx, Hf in Hstep. rewrite Hstep. clear Hstep.
      assert (HB1 : BufRep r1 bf).
      { unfold BufRep in *. rewrite Hb1.
        destruct (Robin.buffer r) as [b|], bf as [[c l]|]; try done.
        destruct HB as [Hc [Hrep Hnd Hdis Hfl]]. split; [done|].
        assert (l = []) as ->.
        { destruct l; [done|]. rewrite Hfl in Hf; done. }
        split; try done. intros y Hy. by apply not_elem_of_nil in Hy. }
      destruct (IH _ _ _ _ _ _ HA1 HB1)
        as (r' & new' & hd' & tl' & Hrun & HA' & Hv' & HB' & Hvp & Hm').
      rewrite Hv1, Hv1', Hm1 in *.
      exists r', new', hd', tl'. split_and!; done.
Qed.

(** ** Writing links *)

Lemma relinked_frame (h h' : store) (p : ptr) (ps : list ptr) (pv nx : option ptr) :
  relinked h h' p → p ∉ ps → seg h pv ps nx → seg h' pv ps nx.
Proof.
  intros (nd & nd' & _ & -> & _) Hp. by apply seg_insert_frame.
Qed.

Lemma relinked_val (h h' : store) (p q : ptr) :
  relinked h h' p → val h' q = val h q.
Proof.
  intros (nd & nd' & Hp & -> & Hv). by apply (val_insert _ _ _ nd).
Qed.

Lemma relinked_lookup_ne (h h' : store) (p q : ptr) :
  relinked h h' p → p ≠ q → h' !! q = h !! q.
Proof.
  intros (nd & nd' & Hp & -> & Hv) Hne. by apply list_lookup_insert_ne.
Qed.

Lemma upd_head_prev (h : store) (ps : list ptr) (p : ptr) (pv nx x : option ptr) :
  NoDup ps → head ps = Some p → seg h pv ps nx →
  ∃ h', upd (Some p) (node.set_prev x) h = Ok h' ∧ seg h' x ps nx ∧
        relinked h h' p.
Proof.
  intros Hnd [ps' ->]%head_Some Hseg.
  apply NoDup_cons in Hnd as [Hp _].
  pose proof Hseg as [(nd & Hl & _) _].
  exists (<[p := node.set_prev x nd]> h). split; [by apply upd_ok|]. split.
  - by apply (seg_set_prev _ _ _ pv).
  - by exists nd, (node.set_prev x nd).
Qed.

Lemma upd_last_next (h : store) (ps : list ptr) (p : ptr) (pv nx x : option ptr) :
  NoDup ps → last ps = Some p → seg h pv ps nx →
  ∃ h', upd (Some p) (node.set_next x) h = Ok h' ∧ seg h' pv ps x ∧
        relinked h h' p.
Proof.
  intros Hnd [ps' ->]%last_Some Hseg.
  apply NoDup_app in Hnd as (_ & Hp & _).
  assert (Hp' : p ∉ ps') by (intros Hin; apply (Hp p Hin); by left).
  destruct (seg_lookup h _ pv nx p Hseg) as [nd Hl].
  { apply elem_of_app. right. by left. }
  exists (<[p := node.set_next x nd]> h). split; [by apply upd_ok|]. split.
  - by apply (seg_set_next _ _ _ _ nx).
  - by exists nd, (node.set_next x nd).
Qed.

Lemma ring_head_prev (h : store) (p : ptr) (ps : list ptr) :
  ring h (p :: ps) →
  ∃ nd, h !! p = Some nd ∧ node.prev nd = last (p :: ps) ∧
        node.next nd = head (ps ++ [p]).
Proof.
  intros [(nd & Hl & Hpv & Hnx) _]. exists nd. split; [done|]. split; [done|].
  rewrite Hnx. by destruct ps.
Qed.

Lemma attach_shape (r : Robin.t) (ps new : list ptr) (hd tl : option ptr) :
  Chained r ps new hd tl →
  ∃ r', Robin.attach hd tl r = Ok r' ∧
        Chained r' (new ++ ps) [] None None ∧
        (∀ q, val (Robin.heap r') q = val (Robin.heap r) q) ∧
        Robin.nodes r' = Robin.nodes r ∧ Robin.buffer r' = Robin.buffer r ∧
        Robin.maxLen r' = Robin.maxLen r.
Proof.
  intros [Hnd Hcur Hring Hchain Hhd Htl].
  unfold Robin.attach.
  destruct (head new) as [a|] eqn:Ha; subst hd.
  2:{ apply head_None in Ha as ->. exists r. split; [done|].
      split; [by split|]. done. }
  destruct (last new) as [t|] eqn:Ht; subst tl;
    [|apply last_None in Ht as ->; done].
  pose proof Hnd as (Hndnew & Hdisj & Hndps)%NoDup_app.
  assert (Hain : a ∈ new) by (by apply head_Some_elem_of).
  assert (Htin : t ∈ new) by (by apply last_Some_elem_of).
  destruct (head ps) as [c|] eqn:Hc.
  - (* the ring is not empty: splice the chain before the cursor *)
    destruct (last ps) as [u|] eqn:Hu;
      [|apply last_None in Hu as ->; done].
    assert (Hcin : c ∈ ps) by (by apply head_Some_elem_of).
    assert (Huin : u ∈ ps) by (by apply last_Some_elem_of).
    rewrite Hcur.
    pose proof Hc as [ps1 Hps1]%head_Some.
    pose proof Hring as Hring'. rewrite Hps1 in Hring'.
    apply ring_head_prev in Hring' as (ndc & Hlc & Hpc & _).
    rewrite <- Hps1, Hu in Hpc.
    rewrite (load_ok _ _ _ Hlc). simpl. rewrite Hpc.
    unfold ring in Hring. rewrite Hu, Hc in Hring.
    destruct (upd_head_prev _ _ a None None (Some u) Hndnew Ha Hchain)
      as (h1 & -> & Hchain1 & R1). simpl.
    destruct (upd_last_next _ _ t (Some u) None (Some c) Hndnew Ht Hchain1)
      as (h2 & -> & Hchain2 & R2). simpl.
    assert (Hring2 : seg h2 (Some u) ps (Some c)).
    { apply (relinked_frame _ _ _ _ _ _ R2); [intros ?; by apply (Hdisj t)|].
      apply (relinked_frame _ _ _ _ _ _ R1); [intros ?; by apply (Hdisj a)|].
      done. }
    destruct (upd_last_next _ _ u (Some u) (Some c) (Some a) Hndps Hu Hring2)
      as (h3 & -> & Hring3 & R3). simpl.
    destruct (upd_head_prev _ _ c (Some u) (Some a) (Some t) Hndps Hc Hring3)
      as (h4 & -> & Hring4 & R4). simpl.
    eexists; split; [done|]. split; [|split; [|done]].
    + split; simpl; try done.
      * by rewrite head_app, Ha.
      * unfold ring. rewrite last_app, Hu, head_app, Ha.
        apply seg_app. unfold pred_of. rewrite Ht, Hps1. simpl. split.
        -- apply (relinked_frame _ _ _ _ _ _ R4); [intros ?; by apply (Hdisj c)|].
           apply (relinked_frame _ _ _ _ _ _ R3); [intros ?; by apply (Hdisj u)|].
           done.
        -- rewrite Hps1 in Hring4. exact Hring4.
    + simpl. intros q.
      rewrite (relinked_val _ _ _ q R4), (relinked_val _ _ _ q R3).
      rewrite (relinked_val _ _ _ q R2), (relinked_val _ _ _ q R1). done.
  - (* the ring is empty: the chain is closed on itself *)
    apply head_None in Hc as ->. rewrite Hcur. simpl.
    destruct (upd_head_prev _ _ a None None (Some t) Hndnew Ha Hchain)
      as (h1 & -> & Hchain1 & R1). simpl.
    destruct (upd_last_next _ _ t (Some t) None (Some a) Hndnew Ht Hchain1)
      as (h2 & -> & Hchain2 & R2). simpl.
    rewrite app_nil_r in *.
    eexists; split; [done|]. split; [|split; [|done]].
    + split; simpl; try done. unfold ring. by rewrite Ht, Ha.
    + simpl. intros q.
      rewrite (relinked_val _ _ _ q R2), (relinked_val _ _ _ q R1). done.
Qed.

Lemma Inv_Chained (r : Robin.t) (ps : list ptr) :
  Inv r ps → Chained r ps [] None None.
Proof. intros [H1 H2 H3 H4 H5]. by split. Qed.

Lemma attach_Inv (r : Robin.t) (ps new : list ptr) (hd tl : option ptr) :
  AddInv r ps new hd tl →
  ∃ r', Robin.attach hd tl r = Ok r' ∧ Inv r' (new ++ ps) ∧
        vals (Robin.heap r') (new ++ ps) = vals (Robin.heap r) (new ++ ps) ∧
        Robin.nodes r' = Robin.nodes r ∧ Robin.buffer r' = Robin.buffer r ∧
        Robin.maxLen r' = Robin.maxLen r.
Proof.
  intros [HC Hidx Hb].
  destruct (attach_shape _ _ _ _ _ HC) as (r' & Hatt & HC' & Hv & Hn & Hbuf & Hm).
  exists r'. split_and!; try done.
  - destruct HC' as [H1 H2 H3 _ _ _]. simpl in H1. split; try done.
    + intros x p. by rewrite Hn, Hv.
    + by rewrite Hm.
  - apply vals_ext. intros q _. apply Hv.
Qed.

Lemma Model_add_full_nobuf (mx : Z) (vs cur new : list Z) :
  (0 <? mx) && (Z.of_nat (length (new ++ cur)) =? mx) = true →
  Model.add mx vs cur new None = (new, None).
Proof.
  intros Hfull. induction vs as [|x vs IH]; simpl; [done|].
  destruct (decide (x ∈ new ++ cur)); [done|]. by rewrite Hfull.
Qed.

Lemma Inv_AddInv (r : Robin.t) (ps : list ptr) :
  Inv r ps → AddInv r ps [] None None.
Proof.
  intros HI. split; [by apply Inv_Chained | apply HI | apply HI].
Qed.

Lemma Inv_full (r : Robin.t) (ps : list ptr) :
  Inv r ps →
  Robin.full r =
  (0 <? Robin.maxLen r) &&
  (Z.of_nat (length (vals (Robin.heap r) ps)) =? Robin.maxLen r).
Proof.
  intros HI. unfold Robin.full. rewrite (Inv_Len _ _ HI).
  unfold vals. by rewrite length_fmap.
Qed.

Theorem Add_refines (vs : list Z) (r : Robin.t) (cur : list Z)
        (bf : option (Z * list Z)) :
  Rep r cur bf →
  ∃ r', Robin.Add vs r = Ok r' ∧
        Rep r' (Model.Add (Robin.maxLen r) vs cur bf).1
               (Model.Add (Robin.maxLen r) vs cur bf).2 ∧
        Robin.maxLen r' = Robin.maxLen r.
Proof.
  intros [(ps & HI & Hv) HB]. unfold Robin.Add, Model.Add.
  pose proof (Inv_full _ _ HI) as Hfull. rewrite Hv in Hfull.
  destruct (Robin.full r && negb (bool_decide (is_Some (Robin.buffer r))))
    eqn:Hstop.
  - apply andb_true_iff in Hstop as [Hf Hnb].
    assert (Robin.buffer r = None) as Hbuf.
    { destruct (Robin.buffer r); [|done].
      rewrite bool_decide_eq_true_2 in Hnb by eauto. done. }
    assert (bf = None) as ->.
    { unfold BufRep in HB. rewrite Hbuf in HB. by destruct bf. }
    rewrite Model_add_full_nobuf by (simpl; congruence).
    exists r. split; [done|]. split; [|done]. split; [|done]. eauto.
  - destruct (Add_loop_refines vs r ps [] None None bf (Inv_AddInv _ _ HI) HB)
      as (r1 & new & hd & tl & -> & HA & Hnew & HB1 & Hps & Hm1).
    simpl. rewrite Hv in *. change (vals (Robin.heap r) []) with (@nil Z) in *.
    destruct (attach_Inv _ _ _ _ _ HA)
      as (r' & -> & HI' & Hv' & Hn' & Hb' & Hm').
    destruct (Model.add (Robin.maxLen r) vs cur [] bf) as [newv bf'].
    simpl in *. exists r'. split; [done|]. split; [|congruence]. split.
    + exists (new ++ ps). split; [done|].
      rewrite Hv', vals_app. congruence.
    + eapply BufRep_ext; [exact Hn' | exact Hm' | exact Hb' | exact HB1].
Qed.

(** ** [Remove] *)

Lemma unlink_ring (r : Robin.t) (l1 l2 : list ptr) (p : ptr) :
  NoDup (l1 ++ p :: l2) →
  ring (Robin.heap r) (l1 ++ p :: l2) →
  Robin.next r = head (l1 ++ p :: l2) →
  ∃ r', Robin.unlink p r = Ok r' ∧
        ring (Robin.heap r') (l1 ++ l2) ∧
        Robin.next r' = head (l1 ++ l2) ∧
        (∀ q, val (Robin.heap r') q = val (Robin.heap r) q) ∧
        Robin.nodes r' = Robin.nodes r ∧ Robin.buffer r' = Robin.buffer r ∧
        Robin.maxLen r' = Robin.maxLen r.
Proof.
  intros Hnd Hring Hcur.
  apply (ring_rotate _ l1 (p :: l2)) in Hring. simpl in Hring.
  assert (Hnd' : NoDup (p :: l2 ++ l1)).
  { apply NoDup_app in Hnd as (H1 & H2 & [H3 H4]%NoDup_cons).
    apply NoDup_cons. split.
    - intros [Hin|Hin]%elem_of_app; [done|]. apply (H2 p Hin). by left.
    - apply NoDup_app. split; [done|]. split; [|done].
      intros q Hq Hq'. apply (H2 q Hq'). by right. }
  apply NoDup_cons in Hnd' as [Hp Hrest].
  destruct (ring_head_prev _ _ _ Hring) as (nd & Hl & Hpv & Hnx).
  unfold Robin.unlink. rewrite (load_ok _ _ _ Hl). simpl.
  destruct (head (l2 ++ l1)) as [s|] eqn:Hs.
  - (* other cells remain *)
    destruct (last (l2 ++ l1)) as [u|] eqn:Hu;
      [|apply last_None in Hu; rewrite Hu in Hs; done].
    assert (Hsin : s ∈ l2 ++ l1) by (by apply head_Some_elem_of).
    assert (Huin : u ∈ l2 ++ l1) by (by apply last_Some_elem_of).
    assert (Hsp : s ≠ p) by (intros ->; done).
    assert (Hup : u ≠ p) by (intros ->; done).
    assert (Hnx' : node.next nd = Some s).
    { rewrite Hnx, head_app, Hs. done. }
    assert (Hpv' : node.prev nd = Some u).
    { rewrite Hpv. destruct (l2 ++ l1) eqn:E; [done|].
      rewrite last_cons_cons. done. }
    rewrite Hnx', Hpv'.
    rewrite bool_decide_eq_false_2 by (intros [= ->]; done).
    destruct Hring as [_ Hseg]. fold seg in Hseg.
    destruct (upd_last_next _ _ u (Some p) (Some p) (Some s) Hrest Hu Hseg)
      as (h1 & -> & Hseg1 & R1). simpl.
    assert (Hl1 : h1 !! p = Some nd).
    { by rewrite (relinked_lookup_ne _ _ _ _ R1). }
    rewrite (load_ok _ _ _ Hl1). simpl. rewrite Hnx', Hpv'.
    destruct (upd_head_prev _ _ s (Some p) (Some s) (Some u) Hrest Hs Hseg1)
      as (h2 & -> & Hseg2 & R2). simpl.
    assert (Hl2 : h2 !! p = Some nd).
    { by rewrite (relinked_lookup_ne _ _ _ _ R2). }
    assert (Hring2 : ring h2 (l1 ++ l2)).
    { apply ring_rotate. unfold ring. by rewrite Hu, Hs. }
    assert (Hval2 : ∀ q, val h2 q = val (Robin.heap r) q).
    { intros q. by rewrite (relinked_val _ _ _ q R2), (relinked_val _ _ _ q R1). }
    destruct l1 as [|a l1]; simpl in *.
    + rewrite Hcur. rewrite bool_decide_eq_true_2 by done.
      rewrite (load_ok _ _ _ Hl2). simpl. rewrite Hnx'.
      rewrite app_nil_r in Hs.
      eexists. split; [done|]. simpl. by rewrite Hs.
    + rewrite Hcur. rewrite bool_decide_eq_false_2.
      * eexists. split; [done|]. simpl. done.
      * intros [= <-]. apply Hp. apply elem_of_app. right. by left.
  - (* the removed cell was the only one *)
    apply head_None in Hs. apply app_eq_nil in Hs as [-> ->]. simpl in *.
    rewrite bool_decide_eq_true_2 by done.
    eexists. split; [done|]. simpl. done.
Qed.

Lemma filter_all {A : Type} (P : A → Prop) `{∀ x, Decision (P x)} (l : list A) :
  (∀ x, x ∈ l → P x) → filter P l = l.
Proof.
  induction l as [|a l IH]; intros Hall; [done|].
  rewrite filter_cons_True by (apply Hall; left).
  f_equal. apply IH. intros x Hx. apply Hall. by right.
Qed.

Lemma Inv_valid (r : Robin.t) (ps : list ptr) (q : ptr) :
  Inv r ps → q ∈ ps → is_Some (Robin.heap r !! q).
Proof. intros HI Hq. eapply seg_lookup; [apply (inv_ring _ _ HI)|done]. Qed.

Lemma Inv_indexed (r : Robin.t) (ps : list ptr) (x : Z) :
  Inv r ps →
  is_Some (Robin.nodes r !! x) ↔ x ∈ vals (Robin.heap r) ps.
Proof.
  intros HI. unfold vals. rewrite list_elem_of_fmap. split.
  - intros [p Hp]. apply (inv_index _ _ HI) in Hp as [Hin Hv]. eauto.
  - intros (p & Hv & Hin). exists p. apply (inv_index _ _ HI). done.
Qed.

(** Removal of an indexed value when the buffer supplies a replacement:
    what the code does, and what it keeps when the popped value is not
    indexed. *)
Lemma Remove_step_pop (r : Robin.t) (ps : list ptr) (b : LIFOBuffer.t)
      (w : Z) (l : list Z) (x : Z) (p : ptr) :
  Inv r ps → Robin.buffer r = Some b → lifo_rep b (w :: l) →
  Robin.nodes r !! x = Some p →
  ∃ r' nd b',
    (∀ vs, Robin.Remove (x :: vs) r = Robin.Remove vs r') ∧
    Robin.heap r !! p = Some nd ∧
    Robin.heap r' = <[p := node.set_v w nd]> (Robin.heap r) ∧
    Robin.nodes r' = <[w := p]> (delete x (Robin.nodes r)) ∧
    Robin.next r' = Robin.next r ∧
    Robin.maxLen r' = Robin.maxLen r ∧
    Robin.buffer r' = Some b' ∧ lifo_rep b' l ∧
    LIFOBuffer.capacity b' = LIFOBuffer.capacity b ∧
    (Robin.nodes r !! w = None →
     Inv r' ps ∧
     vals (Robin.heap r') ps
     = (λ y, if decide (y = x) then w else y) <$> vals (Robin.heap r) ps).
Proof.
  intros HI Hbuf Hrep Hx.
  destruct (Pop_rep_cons _ _ _ Hrep) as (b' & Hpop & Hrep' & Hc').
  pose proof (inv_index _ _ HI x p) as [Hxp _]. destruct (Hxp Hx) as [Hpin Hpv].
  destruct (Inv_valid _ _ _ HI Hpin) as [nd Hl].
  set (h' := <[p := node.set_v w nd]> (Robin.heap r)).
  set (r' := Robin.set_nodes (<[w := p]> (delete x (Robin.nodes r)))
               (Robin.set_heap h'
                  (Robin.set_buffer (Some b')
                     (Robin.set_nodes (delete x (Robin.nodes r)) r)))).
  exists r', nd, b'. split_and!; try done.
  { intros vs. cbn [Robin.Remove]. rewrite Hx.
    unfold Robin.replaceValue. simpl. rewrite Hbuf, Hpop. simpl.
    rewrite (upd_ok _ _ _ _ Hl). simpl. done. }
  intros Hw.
  assert (Hvp : val h' p = w) by (unfold h'; by rewrite (val_insert_eq _ _ _ _ Hl)).
  assert (Hvq : ∀ q, q ≠ p → val h' q = val (Robin.heap r) q).
  { intros q Hq. unfold h'. by rewrite val_insert_ne. }
  assert (Huniq : ∀ q, q ∈ ps → val (Robin.heap r) q = x → q = p).
  { intros q Hq Hv. assert (Robin.nodes r !! x = Some q) by (by apply HI).
    congruence. }
  split.
  - destruct HI as [H1 H2 H3 H4 H5]. split; simpl; try done.
    + by apply seg_set_v.
    + intros y q. destruct (decide (w = y)) as [<-|Hne].
      * rewrite lookup_insert_eq. split.
        -- intros [= <-]. done.
        -- intros [Hq Hv]. destruct (decide (q = p)) as [->|Hqp]; [done|].
           rewrite Hvq in Hv by done.
           assert (Robin.nodes r !! w = Some q) by (by apply H4). congruence.
      * rewrite lookup_insert_ne by done.
        rewrite lookup_delete_Some, H4. split.
        -- intros (Hxy & Hq & Hv). split; [done|].
           rewrite Hvq; [done|]. intros ->. congruence.
        -- intros [Hq Hv]. destruct (decide (q = p)) as [->|Hqp]; [congruence|].
           rewrite Hvq in Hv by done. split; [|done].
           intros <-. apply Hqp. by apply Huniq.
  - apply list_eq. intros k. unfold vals. simpl. rewrite !list_lookup_fmap.
    destruct (ps !! k) as [q|] eqn:Hk; simpl; [|done]. f_equal.
    apply list_elem_of_lookup_2 in Hk.
    destruct (decide (q = p)) as [->|Hqp].
    + rewrite Hvp, Hpv. by destruct (decide (x = x)).
    + rewrite Hvq by done.
      destruct (decide (val (Robin.heap r) q = x)) as [E|]; [|done].
      exfalso. by apply Hqp, Huniq.
Qed.

Lemma Remove_step_replace (r : Robin.t) (ps : list ptr) (c w : Z) (l : list Z)
      (x : Z) (p : ptr) :
  Inv r ps → BufRep r (Some (c, w :: l)) → Robin.nodes r !! x = Some p →
  ∃ r',
    (∀ vs, Robin.Remove (x :: vs) r = Robin.Remove vs r') ∧
    Inv r' ps ∧ BufRep r' (Some (c, l)) ∧
    vals (Robin.heap r') ps
    = (λ y, if decide (y = x) then w else y) <$> vals (Robin.heap r) ps ∧
    Robin.maxLen r' = Robin.maxLen r.
Proof.
  intros HI HB Hx. unfold BufRep in HB.
  destruct (Robin.buffer r) as [b|] eqn:Hbuf; [|done].
  destruct HB as [Hc [Hrep Hnd Hdis Hfl]].
  destruct (Remove_step_pop _ _ _ _ _ _ _ HI Hbuf Hrep Hx)
    as (r' & nd & b' & Hstep & Hl & Hh & Hn & Hnx & Hm & Hb' & Hrep' & Hc' & Hinv).
  destruct Hinv as [HI' Hv']; [apply Hdis; left|].
  exists r'. split_and!; try done.
  unfold BufRep. rewrite Hb'. split; [congruence|].
  apply NoDup_cons in Hnd as [Hwl Hnd]. split; try done.
  - intros y Hy. rewrite Hn. rewrite lookup_insert_ne by (intros <-; done).
    apply lookup_delete_None. right. apply Hdis. by right.
  - intros _. unfold Robin.full.
    rewrite (Inv_Len _ _ HI'), Hm. rewrite <- (Inv_Len _ _ HI).
    by apply Hfl.
Qed.

(** Removal of an indexed value when no replacement is available. *)
Lemma Remove_step_unlink (r : Robin.t) (ps : list ptr)
      (bf : option (Z * list Z)) (x : Z) (p : ptr) :
  Inv r ps → BufRep r bf →
  (∀ c w l, bf ≠ Some (c, w :: l)) →
  Robin.nodes r !! x = Some p →
  ∃ r' l1 l2,
    ps = l1 ++ p :: l2 ∧
    (∀ vs, Robin.Remove (x :: vs) r = Robin.Remove vs r') ∧
    Inv r' (l1 ++ l2) ∧ BufRep r' bf ∧
    vals (Robin.heap r') (l1 ++ l2)
    = filter (λ y, y ≠ x) (vals (Robin.heap r) ps) ∧
    Robin.maxLen r' = Robin.maxLen r ∧
    (∀ q, val (Robin.heap r') q = val (Robin.heap r) q) ∧
    Robin.nodes r' = delete x (Robin.nodes r).
Proof.
  intros HI HB Hbf Hx.
  pose proof (inv_index _ _ HI x p) as [Hxp _]. destruct (Hxp Hx) as [Hpin Hpv].
  destruct (list_elem_of_split _ _ Hpin) as (l1 & l2 & ->).
  assert (Hrv : ∃ r1,
             Robin.replaceValue p (Robin.set_nodes (delete x (Robin.nodes r)) r)
             = Ok (false, r1) ∧
             Robin.heap r1 = Robin.heap r ∧ Robin.next r1 = Robin.next r ∧
             Robin.nodes r1 = delete x (Robin.nodes r) ∧
             Robin.maxLen r1 = Robin.maxLen r ∧
             Robin.buffer r1 = Robin.buffer r).
  { unfold Robin.replaceValue, BufRep in *. simpl.
    destruct (Robin.buffer r) as [b|] eqn:Hbuf.
    - destruct bf as [[c [|w l]]|]; [|by destruct (Hbf c w l)|done].
      destruct HB as [_ [Hrep _ _ _]].
      rewrite (Pop_rep_nil _ Hrep). simpl. eexists. split; [done|]. done.
    - eexists. split; [done|]. done. }
  destruct Hrv as (r1 & Hrv & Hh1 & Hn1 & Hm1 & Hx1 & Hb1).
  pose proof HI as [Hnd Hcur Hring Hidx Hb].
  assert (Hring1 : ring (Robin.heap r1) (l1 ++ p :: l2)) by (by rewrite Hh1).
  assert (Hcur1 : Robin.next r1 = head (l1 ++ p :: l2)) by (by rewrite Hn1).
  destruct (unlink_ring r1 l1 l2 p Hnd Hring1 Hcur1)
    as (r' & Hul & Hring' & Hcur' & Hval' & Hn' & Hb' & Hm').
  rewrite Hh1 in Hval'.
  assert (Hpnot : p ∉ l1 ++ l2).
  { apply NoDup_app in Hnd as (_ & H2 & [H3 _]%NoDup_cons).
    intros [Hin|Hin]%elem_of_app; [|done]. apply (H2 p Hin). by left. }
  assert (Huniq : ∀ q, q ∈ l1 ++ l2 → val (Robin.heap r) q ≠ x).
  { intros q Hq Hv.
    assert (Robin.nodes r !! x = Some q).
    { apply Hidx. split; [|done].
      apply elem_of_app in Hq as [Hq|Hq]; apply elem_of_app; [by left|].
      right. by right. }
    congruence. }
  exists r', l1, l2. split_and!; try done.
  - intros vs. cbn [Robin.Remove]. rewrite Hx, Hrv. simpl. by rewrite Hul.
  - split; try done.
    + apply NoDup_app in Hnd as (H1 & H2 & [H3 H4]%NoDup_cons).
      apply NoDup_app. split; [done|]. split; [|done].
      intros q Hq Hq'. apply (H2 q Hq). by right.
    + intros y q. rewrite Hn', Hm1, Hval', lookup_delete_Some, Hidx. split.
      * intros (Hxy & Hq & Hv). split; [|done].
        apply elem_of_app in Hq as [Hq|[->|Hq]%elem_of_cons];
          apply elem_of_app; auto. congruence.
      * intros [Hq Hv]. split; [|split; [|done]].
        -- intros <-. by apply (Huniq q).
        -- apply elem_of_app in Hq as [Hq|Hq]; apply elem_of_app; [by left|].
           right. by right.
    + rewrite Hm', Hx1. intros Hmx. specialize (Hb Hmx).
      rewrite !length_app in *. simpl in Hb. lia.
  - unfold BufRep in *. rewrite Hb', Hb1.
    destruct (Robin.buffer r) as [b|]; [|done].
    destruct bf as [[c [|w l]]|]; [|by destruct (Hbf c w l)|done].
    destruct HB as [Hc [Hrep _ _ _]]. split; [done|]. split; try done.
    + apply NoDup_nil_2.
    + intros y Hy. by apply not_elem_of_nil in Hy.
  - rewrite (vals_ext (Robin.heap r) (Robin.heap r')) by (intros; apply Hval').
    rewrite !vals_app. unfold vals at 4. rewrite fmap_cons.
    fold (vals (Robin.heap r) l2).
    rewrite filter_app, filter_cons_False by (intros H; by apply H).
    rewrite !filter_all; [done| |].
    + intros y (q & -> & Hq)%list_elem_of_fmap. apply Huniq.
      apply elem_of_app. by right.
    + intros y (q & -> & Hq)%list_elem_of_fmap. apply Huniq.
      apply elem_of_app. by left.
  - congruence.
  - congruence.
Qed.

Theorem Remove_refines (vs : list Z) :
  ∀ (r : Robin.t) (cur : list Z) (bf : option (Z * list Z)),
    Rep r cur bf →
    ∃ r', Robin.Remove vs r = Ok r' ∧
          Rep r' (Model.Remove vs cur bf).1 (Model.Remove vs cur bf).2 ∧
          Robin.maxLen r' = Robin.maxLen r.
Proof.
  induction vs as [|x vs IH]; intros r cur bf [(ps & HI & Hv) HB].
  - exists r. split; [done|]. split; [|done]. split; eauto.
  - cbn [Model.Remove].
    pose proof (Inv_indexed _ _ x HI) as Hmem. rewrite Hv in Hmem.
    destruct (decide (x ∈ cur)) as [Hin|Hnin].
    + apply Hmem in Hin as [p Hx].
      assert (Hcase : (∃ c w l, bf = Some (c, w :: l)) ∨
                      (∀ c w l, bf ≠ Some (c, w :: l))).
      { destruct bf as [[c [|w l]]|]; eauto. }
      destruct Hcase as [(c & w & l & ->)|Hbf].
      * destruct (Remove_step_replace _ _ _ _ _ _ _ HI HB Hx)
          as (r1 & Hstep & HI1 & HB1 & Hv1 & Hm1).
        rewrite Hstep. rewrite Hv in Hv1. simpl.
        destruct (IH r1 ((λ y, if decide (y = x) then w else y) <$> cur)
                     (Some (c, l))) as (r' & Hrun & Hrep' & Hm').
        { split; [|done]. exists ps. done. }
        exists r'. split; [done|]. split; [done|]. congruence.
      * destruct (Remove_step_unlink _ _ _ _ _ HI HB Hbf Hx)
          as (r1 & l1 & l2 & Hps & Hstep & HI1 & HB1 & Hv1 & Hm1 & _).
        rewrite Hstep. rewrite Hv in Hv1.
        assert (Model.remove1 x cur bf = (filter (λ y, y ≠ x) cur, bf)) as ->.
        { unfold Model.remove1. destruct bf as [[c [|w l]]|]; try done.
          by destruct (Hbf c w l). }
        simpl.
        destruct (IH r1 (filter (λ y, y ≠ x) cur) bf) as (r' & Hrun & Hrep' & Hm').
        { split; [|done]. exists (l1 ++ l2). done. }
        exists r'. split; [done|]. split; [done|]. congruence.
    + cbn [Robin.Remove].
      destruct (Robin.nodes r !! x) as [p|] eqn:Hx.
      { exfalso. apply Hnin, Hmem. eauto. }
      apply IH. split; [|done]. eauto.
Qed.

Theorem Next_refines (r : Robin.t) (cur : list Z) (bf : option (Z * list Z)) :
  Rep r cur bf →
  ∃ r', Robin.Next r
        = Ok ((Model.Next cur).1.1, (Model.Next cur).1.2, r') ∧
        Rep r' (Model.Next cur).2 bf ∧
        Robin.maxLen r' = Robin.maxLen r.
Proof.
  intros [(ps & HI & Hv) HB]. destruct ps as [|p ps].
  - subst cur. simpl. exists r. unfold Robin.Next.
    rewrite (inv_cursor _ _ HI). simpl. split; [done|]. split; [|done].
    split; [|done]. exists []. done.
  - destruct (Next_Inv _ _ _ HI) as [Hnext HI'].
    subst cur. simpl. eexists. split; [exact Hnext|]. split; [|done]. split.
    + exists (ps ++ [p]). split; [done|]. simpl. by rewrite vals_app.
    + by apply (BufRep_ext r).
Qed.

Lemma Inv_empty (r : Robin.t) :
  Robin.next r = None → Robin.nodes r = ∅ → Inv r [].
Proof.
  intros Hn Hm. split; simpl; try done.
  - apply NoDup_nil_2.
  - intros x p. rewrite Hm, lookup_empty. split; [done|].
    intros [Hin _]. by apply not_elem_of_nil in Hin.
  - lia.
Qed.

Lemma Coupled_empty (r : Robin.t) (b : LIFOBuffer.t) :
  lifo_rep b [] → Coupled r b [].
Proof.
  intros Hrep. split; try done.
  - apply NoDup_nil_2.
  - intros y Hy. by apply not_elem_of_nil in Hy.
Qed.

Theorem Reset_refines (r : Robin.t) (cur : list Z) (bf : option (Z * list Z)) :
  Rep r cur bf →
  Rep (Robin.Reset r) (Model.Reset bf).1 (Model.Reset bf).2 ∧
  Robin.maxLen (Robin.Reset r) = Robin.maxLen r.
Proof.
  intros [(ps & HI & Hv) HB]. unfold Robin.Reset, BufRep in *.
  destruct (Robin.buffer r) as [b|] eqn:Hbuf.
  - destruct bf as [[c l]|]; [|done]. destruct HB as [Hc [Hrep _ _ _]].
    destruct (Reset_rep b (rep_wf _ _ Hrep)) as [Hrep' Hc'].
    split; [|done]. split.
    + exists []. split; [|done]. by apply Inv_empty.
    + unfold BufRep. simpl. split; [congruence|]. by apply Coupled_empty.
  - destruct bf; [done|]. split; [|done]. split.
    + exists []. split; [|done]. by apply Inv_empty.
    + unfold BufRep. simpl. by rewrite Hbuf.
Qed.

(** ** Constructors *)

Lemma NewUnbounded_Rep : Rep Robin.NewUnbounded [] None.
Proof.
  split; [|done]. exists []. split; [|done]. by apply Inv_empty.
Qed.

Lemma NewBounded_Rep (len : Z) :
  0 < len → Rep (Robin.NewBounded len []) [] None.
Proof.
  intros Hlen. unfold Robin.NewBounded.
  destruct (Z.leb_spec len 0); [lia|]. simpl.
  split; [|done]. exists []. split; [|done]. by apply Inv_empty.
Qed.

Lemma NewBounded_WithBuffer_Rep (len : Z) (b : LIFOBuffer.t) :
  0 < len → lifo_rep b [] →
  Rep (Robin.NewBounded len [Robin.WithBuffer b]) []
      (Some (LIFOBuffer.capacity b, [])).
Proof.
  intros Hlen Hrep. unfold Robin.NewBounded.
  destruct (Z.leb_spec len 0); [lia|]. simpl.
  split.
  - exists []. split; [|done]. by apply Inv_empty.
  - unfold BufRep. simpl. split; [done|]. by apply Coupled_empty.
Qed.

Lemma NewBounded_nonpositive (len : Z) (options : list (Robin.t → Robin.t)) :
  len <= 0 → Robin.NewBounded len options = Robin.NewUnbounded.
Proof.
  intros Hlen. unfold Robin.NewBounded.
  by destruct (Z.leb_spec len 0); [|lia].
Qed.

(** ** Repeated [Next] *)

Lemma Nexts_refines (k : nat) :
  ∀ (r : Robin.t) (cur : list Z) (bf : option (Z * list Z)),
    Rep r cur bf →
    ∃ r', Robin.Nexts k r = Ok ((Model.Nexts k cur).1, r') ∧
          Rep r' (Model.Nexts k cur).2 bf ∧
          Robin.maxLen r' = Robin.maxLen r.
Proof.
  induction k as [|k IH]; intros r cur bf Hrep; simpl.
  - exists r. done.
  - destruct (Next_refines _ _ _ Hrep) as (r1 & -> & Hrep1 & Hm1). simpl.
    destruct (Model.Next cur) as [[x ok] cur1]. simpl in *.
    destruct (IH _ _ _ Hrep1) as (r' & -> & Hrep' & Hm'). simpl.
    destruct (Model.Nexts k cur1) as [out cur2]. simpl in *.
    exists r'. split; [done|]. split; [done|]. congruence.
Qed.

Lemma rotation_shift (x : Z) (l : list Z) (k : nat) :
  rotation (l ++ [x]) k = rotation (x :: l) (S k).
Proof.
  unfold rotation. rewrite length_app. simpl length.
  replace (length l + 1)%nat with (S (length l)) by lia.
  set (L := S (length l)).
  assert (HL : (k mod L < L)%nat) by (apply Nat.mod_upper_bound; lia).
  replace (S k mod L)%nat with (S (k mod L) mod L)%nat.
  2:{ replace (S (k mod L)) with (k mod L + 1)%nat by lia.
      replace (S k) with (k + 1)%nat by lia.
      apply Nat.Div0.add_mod_idemp_l. }
  destruct (decide (S (k mod L) = L)) as [E|E].
  - rewrite E, Nat.Div0.mod_same.
    replace (k mod L)%nat with (length l) by (unfold L in *; lia).
    by rewrite nth_middle.
  - assert (Hlt : (S (k mod L) < L)%nat) by (clearbody L; lia).
    rewrite (Nat.mod_small _ _ Hlt).
    change (nth (S (k mod L)) (x :: l) 0) with (nth (k mod L) l 0).
    apply app_nth1. unfold L in *. lia.
Qed.

Lemma Model_Nexts_rotation (k : nat) :
  ∀ cur : list Z,
    cur ≠ [] →
    (Model.Nexts k cur).1 = (λ j, (rotation cur j, true)) <$> seq 0 k.
Proof.
  induction k as [|k IH]; intros cur Hne; [done|].
  destruct cur as [|x cur]; [done|]. simpl.
  specialize (IH (cur ++ [x])).
  destruct (Model.Nexts k (cur ++ [x])) as [out cur2]. simpl in *.
  f_equal.
  - unfold rotation. by rewrite Nat.Div0.mod_0_l.
  - rewrite IH by (by destruct cur). rewrite <- fmap_S_seq, <- list_fmap_compose.
    apply list_fmap_ext. intros _ j _. simpl. by rewrite rotation_shift.
Qed.

Lemma Rep_NoDup (r : Robin.t) (cur : list Z) (bf : option (Z * list Z)) :
  Rep r cur bf → NoDup cur.
Proof.
  intros [(ps & HI & <-) _]. unfold vals.
  apply NoDup_fmap_2_strong; [|apply HI].
  intros p q Hp Hq Hv.
  assert (Robin.nodes r !! val (Robin.heap r) p = Some p) as H1
      by (by apply HI).
  assert (Robin.nodes r !! val (Robin.heap r) p = Some q) as H2
      by (by apply HI).
  congruence.
Qed.

Lemma Rep_Len (r : Robin.t) (cur : list Z) (bf : option (Z * list Z)) :
  Rep r cur bf → Robin.Len r = Z.of_nat (length cur).
Proof.
  intros [(ps & HI & <-) _]. rewrite (Inv_Len _ _ HI).
  unfold vals. by rewrite length_fmap.
Qed.

Lemma Rep_Contains (r : Robin.t) (cur : list Z) (bf : option (Z * list Z)) (x : Z) :
  Rep r cur bf → Robin.Contains x r = bool_decide (x ∈ cur).
Proof. intros [(ps & HI & <-) _]. by apply Inv_Contains. Qed.

Lemma Rep_full (r : Robin.t) (cur : list Z) (bf : option (Z * list Z)) :
  Rep r cur bf →
  Robin.full r
  = (0 <? Robin.maxLen r) && (Z.of_nat (length cur) =? Robin.maxLen r).
Proof. intros Hrep. unfold Robin.full. by rewrite (Rep_Len _ _ _ Hrep). Qed.

(** * The claims *)

Lemma Model_Add_three (a b c : Z) :
  a ≠ b → a ≠ c → b ≠ c →
  Model.Add 0 [a; b; c] [] None = ([a; b; c], None).
Proof.
  intros Hab Hac Hbc. unfold Model.Add. simpl.
  repeat (destruct (decide _) as [Hd|_];
          [exfalso; simpl in Hd;
           rewrite ?elem_of_cons, ?elem_of_nil in Hd; intuition congruence|];
          simpl).
  done.
Qed.

(** C1. Rotation order: on a fresh unbounded Robin, [Add(a, b, c)] with
    three distinct values followed by [n] calls of [Next()] returns
    [a, b, c, a, b, c, ...], each with presence flag [true]. *)
Theorem rotation_order (a b c : Z) (n : nat) :
  a ≠ b → a ≠ c → b ≠ c →
  ∃ r r',
    Robin.Add [a; b; c] Robin.NewUnbounded = Ok r ∧
    Robin.Nexts n r
    = Ok ((λ j, (rotation [a; b; c] j, true)) <$> seq 0 n, r').
Proof.
  intros Hab Hac Hbc.
  destruct (Add_refines [a; b; c] _ _ _ NewUnbounded_Rep)
    as (r & HAdd & Hrep & _).
  simpl Robin.maxLen in Hrep. rewrite Model_Add_three in Hrep by done.
  destruct (Nexts_refines n _ _ _ Hrep) as (r' & HNexts & _).
  rewrite Model_Nexts_rotation in HNexts by done.
  exists r, r'. done.
Qed.

Lemma rotation_order_witness :
  ∃ r r',
    Robin.Add [1; 2; 3] Robin.NewUnbounded = Ok r ∧
    Robin.Nexts 7 r
    = Ok ([(1, true); (2, true); (3, true); (1, true); (2, true); (3, true);
           (1, true)], r').
Proof.
  apply (rotation_order 1 2 3 7); intros H; discriminate H.
Defined.

(** C3. Insertion before the cursor: [Add] puts the values it adds, in
    call order, in front of the rotation, so the next [Next()] returns the
    first value added by the call; from a rotation about to yield [a] then
    [b], [Add(c)] of a new value makes the next three calls yield
    [c, a, b]. *)
Theorem Add_inserts_before_cursor (r : Robin.t) (cur : list Z)
        (bf : option (Z * list Z)) (vs : list Z) :
  Rep r cur bf →
  ∃ r' new bf',
    Robin.Add vs r = Ok r' ∧
    Model.add (Robin.maxLen r) vs cur [] bf = (new, bf') ∧
    Rep r' (new ++ cur) bf' ∧
    (∀ x new', new = x :: new' → ∃ r'', Robin.Next r' = Ok (x, true, r'')) ∧
    (∀ a b rest c,
        vs = [c] → cur = a :: b :: rest → c ∉ cur → Robin.full r = false →
        new = [c] ∧
        ∃ r'', Robin.Nexts 3 r' = Ok ([(c, true); (a, true); (b, true)], r'')).
Proof.
  intros Hrep.
  destruct (Add_refines vs _ _ _ Hrep) as (r' & HAdd & Hrep' & Hm).
  unfold Model.Add in Hrep'.
  destruct (Model.add (Robin.maxLen r) vs cur [] bf) as [new bf'] eqn:Hadd.
  simpl in Hrep'. exists r', new, bf'. split_and!; try done.
  - intros x new' ->.
    destruct (Next_refines _ _ _ Hrep') as (r'' & HNext & _).
    simpl in HNext. eauto.
  - intros a b rest c -> -> Hc Hfull.
    rewrite (Rep_full _ _ _ Hrep) in Hfull.
    cbn [Model.add] in Hadd. rewrite !app_nil_l in Hadd.
    rewrite decide_False in Hadd by done.
    rewrite Hfull in Hadd. injection Hadd as <- <-. split; [done|].
    destruct (Nexts_refines 3 _ _ _ Hrep') as (r'' & HNexts & _).
    simpl in HNexts. eauto.
Qed.

Lemma Add_inserts_before_cursor_witness :
  ∃ r r' r'',
    Robin.Add [1; 2] Robin.NewUnbounded = Ok r ∧
    Robin.Add [3] r = Ok r' ∧
    Robin.Nexts 3 r' = Ok ([(3, true); (1, true); (2, true)], r'').
Proof.
  destruct (Add_refines [1; 2] _ _ _ NewUnbounded_Rep) as (r & HAdd & Hrep & Hm).
  destruct (Add_inserts_before_cursor r [1; 2] None [3] Hrep)
    as (r' & new & bf' & HAdd' & _ & _ & _ & Hcab).
  destruct (Hcab 1 2 [] 3 eq_refl eq_refl) as [_ [r'' HNexts]].
  - intros Hin. apply elem_of_cons in Hin as [Hin|Hin]; [discriminate Hin|].
    apply elem_of_cons in Hin as [Hin|Hin]; [discriminate Hin|].
    by apply not_elem_of_nil in Hin.
  - unfold Robin.full. rewrite Hm. reflexivity.
  - exists r, r', r''. split; [exact HAdd|]. split; [exact HAdd'|exact HNexts].
Defined.

Lemma BufRep_BufferLen (r : Robin.t) (c : Z) (l : list Z) :
  BufRep r (Some (c, l)) → Robin.BufferLen r = Z.of_nat (length l).
Proof.
  unfold BufRep, Robin.BufferLen. destruct (Robin.buffer r) as [b|]; [|done].
  intros [_ [Hrep _ _ _]]. apply (rep_n _ _ Hrep).
Qed.

Lemma BufRep_BufferContains (r : Robin.t) (c : Z) (l : list Z) (x : Z) :
  BufRep r (Some (c, l)) → Robin.BufferContains x r = bool_decide (x ∈ l).
Proof.
  unfold BufRep, Robin.BufferContains. destruct (Robin.buffer r) as [b|]; [|done].
  intros [_ [Hrep _ _ _]]. by apply Contains_rep.
Qed.


Lemma filter_unique (x : Z) (l1 l2 : list Z) :
  x ∉ l1 → x ∉ l2 → filter (λ y, y ≠ x) (l1 ++ x :: l2) = l1 ++ l2.
Proof.
  intros H1 H2.
  rewrite filter_app, filter_cons_False by (intros H; by apply H).
  rewrite !filter_all; [done| |]; intros y Hy Heq; by subst.
Qed.

Lemma NoDup_split (x : Z) (l1 l2 : list Z) :
  NoDup (l1 ++ x :: l2) → (x ∉ l1) ∧ (x ∉ l2).
Proof.
  intros (_ & H2 & [H3 _]%NoDup_cons)%NoDup_app. split; [|done].
  intros Hin. apply (H2 x Hin). by left.
Qed.

(** C4, as it holds.  Removal with replacement: when the removed value
    [x] is indexed at cell [p] and the buffer holds [w] on top, [Remove(x)]
    pops exactly that one value, writes it into the cell in place and
    indexes the cell under it; no link and not the cursor change.  The
    length is unchanged provided [w] is not already indexed, which is the
    case when the buffer is coupled to the Robin. *)
Theorem Remove_replaces_in_place (r : Robin.t) (ps : list ptr)
        (b : LIFOBuffer.t) (w : Z) (l : list Z) (x : Z) (p : ptr) :
  Inv r ps → Robin.buffer r = Some b → lifo_rep b (w :: l) →
  Robin.nodes r !! x = Some p →
  ∃ r' nd b',
    Robin.Remove [x] r = Ok r' ∧
    Robin.heap r !! p = Some nd ∧
    Robin.heap r' = <[p := node.set_v w nd]> (Robin.heap r) ∧
    Robin.nodes r' = <[w := p]> (delete x (Robin.nodes r)) ∧
    Robin.next r' = Robin.next r ∧
    Robin.buffer r' = Some b' ∧ lifo_rep b' l ∧
    Robin.BufferLen r' = Robin.BufferLen r - 1 ∧
    (Robin.nodes r !! w = None → Robin.Len r' = Robin.Len r ∧ Inv r' ps) ∧
    (Coupled r b (w :: l) → Robin.nodes r !! w = None).
Proof.
  intros HI Hbuf Hrep Hx.
  destruct (Remove_step_pop _ _ _ _ _ _ _ HI Hbuf Hrep Hx)
    as (r' & nd & b' & Hstep & Hl & Hh & Hn & Hnx & Hm & Hb' & Hrep' & Hc' & Hinv).
  exists r', nd, b'. split_and!; try done.
  - unfold Robin.BufferLen. rewrite Hbuf, Hb'. unfold LIFOBuffer.Len.
    rewrite (rep_n _ _ Hrep), (rep_n _ _ Hrep'). simpl length. lia.
  - intros Hw. destruct (Hinv Hw) as [HI' _]. split; [|done].
    by rewrite (Inv_Len _ _ HI'), (Inv_Len _ _ HI).
  - intros HC. apply (cpl_disjoint _ _ _ HC). by left.
Qed.

(** The test "adding and removing from full bounded robin with buffer
    should push and pop buffer": bound 2, LIFO buffer of capacity 2,
    [Add(1, 2, 3)], then [Remove(2)]. *)
Lemma Remove_replaces_in_place_witness :
  ∃ b r r',
    LIFOBuffer.NewLIFOBuffer 2 = Ok b ∧
    Robin.Add [1; 2; 3] (Robin.NewBounded 2 [Robin.WithBuffer b]) = Ok r ∧
    Robin.Remove [2] r = Ok r' ∧
    Robin.next r' = Robin.next r ∧
    Robin.BufferLen r' = Robin.BufferLen r - 1 ∧
    Robin.Len r' = Robin.Len r.
Proof.
  destruct (NewLIFOBuffer_rep 2) as (b & Hnew & Hrepb & Hc).
  { split; [reflexivity | intros H; discriminate H]. }
  pose proof (NewBounded_WithBuffer_Rep 2 b eq_refl Hrepb) as Hrep0.
  destruct (Add_refines [1; 2; 3] _ _ _ Hrep0) as (r & HAdd & Hrep & _).
  rewrite Hc in Hrep.
  change (Rep r [1; 2] (Some (2, [3]))) in Hrep.
  destruct Hrep as [(ps & HI & Hv) HB]. unfold BufRep in HB.
  destruct (Robin.buffer r) as [b1|] eqn:Hbuf; [|destruct HB].
  destruct HB as [_ HC].
  assert (Hin : is_Some (Robin.nodes r !! 2)).
  { apply (Inv_indexed _ _ 2 HI). rewrite Hv.
    apply elem_of_cons. right. apply elem_of_cons. left. reflexivity. }
  destruct Hin as [p Hx].
  destruct (Remove_replaces_in_place r ps b1 3 [] 2 p HI Hbuf (cpl_rep _ _ _ HC) Hx)
    as (r' & nd & b' & HRem & _ & _ & _ & Hcur & _ & _ & HBL & HLen & Hw).
  destruct (HLen (Hw HC)) as [HLen' _].
  exists b, r, r'. split; [exact Hnew|]. split; [exact HAdd|].
  split; [exact HRem|]. split; [exact Hcur|]. split; [exact HBL | exact HLen'].
Defined.

(** C4, as stated, fails in its last part when the popped value is already
    in the ring: after [b.Push(5); r := NewBounded(3, WithBuffer(b));
    r.Add(5, 6)] the buffer is configured and non-empty and 6 is indexed,
    and [r.Remove(6)] takes the length from 2 to 1. *)
Lemma replacement_can_change_length :
  ∃ r r',
    (b ← LIFOBuffer.NewLIFOBuffer 2;
     b ← LIFOBuffer.Push 5 b;
     Robin.Add [5; 6] (Robin.NewBounded 3 [Robin.WithBuffer b])) = Ok r ∧
    Robin.Contains 6 r = true ∧ Robin.BufferLen r = 1 ∧
    Robin.Remove [6] r = Ok r' ∧
    Robin.Len r = 2 ∧ Robin.Len r' = 1.
Proof.
  eexists _, _. split; [vm_compute; reflexivity|].
  split; [vm_compute; reflexivity|]. split; [vm_compute; reflexivity|].
  split; [vm_compute; reflexivity|]. split; vm_compute; reflexivity.
Qed.

(** C8. Removal without replacement: when the buffer has nothing to offer,
    [Remove(x)] of an indexed value takes its cell out of the rotation and
    leaves the order of the others unchanged; if the cell was at the cursor
    the rotation continues with its successor; if it was the only cell the
    Robin is empty, [Len()] is 0 and [Next()] reports no value. *)
Theorem Remove_unlinks (r : Robin.t) (cur : list Z) (bf : option (Z * list Z))
        (x : Z) :
  Rep r cur bf → (∀ c w l, bf ≠ Some (c, w :: l)) → x ∈ cur →
  ∃ r' l1 l2,
    Robin.Remove [x] r = Ok r' ∧
    cur = l1 ++ x :: l2 ∧
    Rep r' (l1 ++ l2) bf ∧
    Robin.Len r' = Robin.Len r - 1 ∧
    (cur = [x] → Robin.Len r' = 0 ∧ Robin.Next r' = Ok (0, false, r')) ∧
    (∀ k, ∃ r'', Robin.Nexts k r' = Ok ((Model.Nexts k (l1 ++ l2)).1, r'')).
Proof.
  intros Hrep Hbf Hin. pose proof (Rep_NoDup _ _ _ Hrep) as Hnd.
  pose proof (Rep_Len _ _ _ Hrep) as HLen.
  destruct (Remove_refines [x] _ _ _ Hrep) as (r' & HRem & Hrep' & Hm).
  simpl in Hrep'. rewrite decide_True in Hrep' by done.
  assert (Model.remove1 x cur bf = (filter (λ y, y ≠ x) cur, bf)) as E.
  { unfold Model.remove1. destruct bf as [[c [|w l]]|]; try done.
    by destruct (Hbf c w l). }
  rewrite E in Hrep'. simpl in Hrep'.
  destruct (list_elem_of_split _ _ Hin) as (l1 & l2 & Hcur).
  rewrite Hcur in Hnd, Hrep'.
  destruct (NoDup_split _ _ _ Hnd) as [H1 H2].
  rewrite filter_unique in Hrep' by done.
  pose proof (Rep_Len _ _ _ Hrep') as HLen'.
  exists r', l1, l2. split_and!; try done.
  - rewrite HLen', HLen, Hcur, !length_app. simpl. lia.
  - intros Hone. rewrite Hone in Hcur.
    assert (l1 = [] ∧ l2 = []) as [-> ->].
    { destruct l1 as [|a [|a' l1]]; simpl in Hcur; [|done|done].
      by injection Hcur as <-. }
    split; [by rewrite HLen'|].
    destruct (Next_refines _ _ _ Hrep') as (r'' & HNext & _).
    destruct Hrep' as [(ps & HI' & Hv') _].
    destruct ps; [|done]. unfold Robin.Next.
    by rewrite (inv_cursor _ _ HI').
  - intros k. destruct (Nexts_refines k _ _ _ Hrep') as (r'' & HNexts & _).
    eauto.
Qed.

Lemma Remove_unlinks_witness :
  ∃ r r',
    Robin.Add [1] Robin.NewUnbounded = Ok r ∧
    Robin.Remove [1] r = Ok r' ∧
    Robin.Len r' = 0 ∧ Robin.Next r' = Ok (0, false, r').
Proof.
  destruct (Add_refines [1] _ _ _ NewUnbounded_Rep) as (r & HAdd & Hrep & _).
  change (Rep r [1] None) in Hrep.
  destruct (Remove_unlinks r [1] None 1 Hrep) as (r' & l1 & l2 & HRem & _ & _ & _ & Hone & _).
  - intros c w l H. discriminate H.
  - apply elem_of_cons. left. reflexivity.
  - destruct (Hone eq_refl) as [HLen HNext].
    exists r, r'. split; [exact HAdd|]. split; [exact HRem|].
    split; [exact HLen | exact HNext].
Defined.

Lemma Add_loop_full_nobuf (r : Robin.t) (vs : list Z) (hd tl : option ptr) :
  Robin.full r = true → Robin.buffer r = None →
  Robin.Add_loop vs r hd tl = Ok (r, hd, tl).
Proof.
  intros Hfull Hbuf. induction vs as [|x vs IH]; simpl; [done|].
  destruct (Robin.nodes r !! x); [done|]. by rewrite Hfull, Hbuf.
Qed.

Lemma set_buffer_same (r : Robin.t) (b : LIFOBuffer.t) :
  Robin.buffer r = Some b → Robin.set_buffer (Some b) r = r.
Proof. destruct r. simpl. by intros ->. Qed.

Lemma Add_loop_full_buf (vs : list Z) :
  ∀ (r : Robin.t) (b : LIFOBuffer.t) (l : list Z),
    Robin.full r = true → Robin.buffer r = Some b → lifo_rep b l →
    ∃ b', (∀ hd tl, Robin.Add_loop vs r hd tl
                    = Ok (Robin.set_buffer (Some b') r, hd, tl)) ∧
          lifo_rep b' (overflow (Robin.nodes r) (LIFOBuffer.capacity b) vs l) ∧
          LIFOBuffer.capacity b' = LIFOBuffer.capacity b.
Proof.
  induction vs as [|x vs IH]; intros r b l Hfull Hbuf Hrep.
  - exists b. simpl. by rewrite set_buffer_same.
  - cbn [Robin.Add_loop overflow fold_left].
    destruct (Robin.nodes r !! x) as [p|] eqn:Hx.
    { rewrite decide_True by (left; eauto). by apply IH. }
    rewrite Hfull, Hbuf, (Contains_rep _ _ x Hrep).
    destruct (decide (x ∈ l)) as [Hl|Hl].
    { rewrite bool_decide_eq_true_2 by done.
      rewrite decide_True by (by right). by apply IH. }
    rewrite bool_decide_eq_false_2 by done.
    rewrite decide_False by (intros [[? ?]|?]; done).
    destruct (Push_rep b l x Hrep) as (b1 & -> & Hrep1 & Hc1). simpl.
    destruct (IH (Robin.set_buffer (Some b1) r) b1
                 (Stack.push (LIFOBuffer.capacity b) x l))
      as (b' & Hrun & Hrep' & Hc'); try done.
    exists b'. simpl in *. rewrite Hc1 in *. done.
Qed.

(** C5, as it holds.  [Add] at the bound.  While the Robin is full, [Add]
    adds nothing and the length stays [maxLen]: without a buffer the loop
    stops, so the whole call leaves the Robin as it is (and so does any
    later [Add]); with a buffer of positive capacity each value not indexed
    is pushed unless the buffer already contains it, and the loop goes on
    with the next value: the call returns, store, cursor, index and bound
    are as before, and the buffer of the Robin afterwards holds what
    [overflow] says, which [BufferLen] and [BufferContains] report. *)
Theorem Add_on_full_Robin (r : Robin.t) (vs : list Z) (hd tl : option ptr) :
  Robin.full r = true →
  Robin.Len r = Robin.maxLen r ∧
  (Robin.buffer r = None →
   Robin.Add_loop vs r hd tl = Ok (r, hd, tl) ∧ Robin.Add vs r = Ok r) ∧
  (∀ b l, Robin.buffer r = Some b → lifo_rep b l →
          ∃ r' b',
            Robin.Add_loop vs r hd tl = Ok (r', hd, tl) ∧
            Robin.Add vs r = Ok r' ∧
            Robin.buffer r' = Some b' ∧
            Robin.heap r' = Robin.heap r ∧
            Robin.next r' = Robin.next r ∧
            Robin.nodes r' = Robin.nodes r ∧
            Robin.maxLen r' = Robin.maxLen r ∧
            Robin.Len r' = Robin.maxLen r ∧
            LIFOBuffer.capacity b' = LIFOBuffer.capacity b ∧
            lifo_rep b'
              (overflow (Robin.nodes r) (LIFOBuffer.capacity b) vs l) ∧
            Robin.BufferLen r'
            = Z.of_nat (length (overflow (Robin.nodes r)
                                  (LIFOBuffer.capacity b) vs l)) ∧
            ∀ x, Robin.BufferContains x r'
                 = bool_decide
                     (x ∈ overflow (Robin.nodes r)
                            (LIFOBuffer.capacity b) vs l)).
Proof.
  intros Hfull.
  assert (HLen : Robin.Len r = Robin.maxLen r).
  { unfold Robin.full in Hfull. apply andb_true_iff in Hfull as [_ H].
    by apply Z.eqb_eq in H. }
  split_and!; [done| |].
  - intros Hbuf. split; [by apply Add_loop_full_nobuf|].
    unfold Robin.Add. by rewrite Hfull, Hbuf.
  - intros b l Hbuf Hrep.
    destruct (Add_loop_full_buf vs r b l Hfull Hbuf Hrep)
      as (b' & Hrun & Hrep' & Hcap).
    exists (Robin.set_buffer (Some b') r), b'.
    split_and!; try done.
    + unfold Robin.Add. rewrite Hfull, Hbuf. simpl. rewrite Hrun. done.
    + unfold Robin.BufferLen. cbn [Robin.set_buffer Robin.buffer].
      unfold LIFOBuffer.Len. apply (rep_n _ _ Hrep').
    + intros x. unfold Robin.BufferContains.
      cbn [Robin.set_buffer Robin.buffer]. apply (Contains_rep _ _ x Hrep').
Qed.

Lemma Add_on_full_Robin_witness :
  (let r := Robin.mk [node.mk 1 (Some 0%nat) (Some 0%nat)] (Some 0%nat)
                     {[ 1 := 0%nat ]} 1 None in
   Robin.full r = true ∧ Robin.Len r = 1 ∧ Robin.Add [2; 3] r = Ok r) ∧
  (∃ b r r',
     LIFOBuffer.NewLIFOBuffer 2 = Ok b ∧
     Robin.Add [1] (Robin.NewBounded 1 [Robin.WithBuffer b]) = Ok r ∧
     Robin.full r = true ∧ Robin.buffer r = Some b ∧
     Robin.Add [1; 5; 6; 5; 7] r = Ok r' ∧
     Robin.nodes r' = Robin.nodes r ∧
     Robin.Len r' = 1 ∧
     Robin.BufferLen r' = 2 ∧
     Robin.BufferContains 5 r' = false ∧
     Robin.BufferContains 6 r' = true ∧
     Robin.BufferContains 7 r' = true).
Proof.
  split.
  - intros r.
    assert (Hfull : Robin.full r = true) by (vm_compute; reflexivity).
    destruct (Add_on_full_Robin r [2; 3] None None Hfull)
      as (HLen & Hnobuf & _).
    destruct (Hnobuf eq_refl) as [_ HAdd].
    split; [exact Hfull|]. split; [exact HLen | exact HAdd].
  - destruct (NewLIFOBuffer_rep 2 ltac:(done)) as (b & Eb & Hrep & _).
    assert (∃ r, Robin.Add [1] (Robin.NewBounded 1 [Robin.WithBuffer b])
                 = Ok r ∧ Robin.full r = true ∧ Robin.buffer r = Some b)
      as (r & Er & Hfull & Hbuf).
    { vm_compute in Eb. injection Eb as <-.
      eexists. split; [vm_compute; reflexivity|]. split; reflexivity. }
    destruct (Add_on_full_Robin r [1; 5; 6; 5; 7] None None Hfull)
      as (_ & _ & Hwith).
    destruct (Hwith b [] Hbuf Hrep)
      as (r' & b' & _ & HAdd & _ & _ & _ & Hn & _ & HLen & _ & _ & HBL & HBC).
    assert (Robin.nodes r = {[ 1 := 0%nat ]}) as En.
    { vm_compute in Eb. injection Eb as <-.
      vm_compute in Er. injection Er as <-. reflexivity. }
    assert (Robin.maxLen r = 1) as Em.
    { vm_compute in Eb. injection Eb as <-.
      vm_compute in Er. injection Er as <-. reflexivity. }
    assert (LIFOBuffer.capacity b = 2) as Ec.
    { vm_compute in Eb. injection Eb as <-. reflexivity. }
    rewrite En, Ec in HBL, HBC. rewrite Em in HLen.
    exists b, r, r'.
    split; [exact Eb|]. split; [exact Er|]. split; [exact Hfull|].
    split; [exact Hbuf|]. split; [exact HAdd|]. split; [exact Hn|].
    split; [exact HLen|]. split; [exact HBL|].
    split; [exact (HBC 5)|]. split; [exact (HBC 6) | exact (HBC 7)].
Defined.

(** C5, as stated, fails for a configured buffer that cannot take a value:
    [NewLIFOBuffer(0)] returns a buffer, and with it as the buffer of a
    full Robin [Add] of a value that is neither indexed nor buffered does
    not push it and go on, it panics in [Push]. *)
Lemma overflow_into_zero_capacity_panics :
  ∃ b r,
    LIFOBuffer.NewLIFOBuffer 0 = Ok b ∧
    Robin.Add [1] (Robin.NewBounded 1 [Robin.WithBuffer b]) = Ok r ∧
    Robin.full r = true ∧ Robin.buffer r = Some b ∧
    Robin.Contains 2 r = false ∧ Robin.BufferContains 2 r = false ∧
    Robin.Add [2] r = Panic.
Proof.
  do 2 eexists. split; [reflexivity|]. split; [vm_compute; reflexivity|].
  split_and!; vm_compute; reflexivity.
Qed.

(** The test "adding to full bounded robin without buffer should be
    no-op": bound 2, [Add(1, 2, 3)] gives length 2 without 3, and [Add(4)]
    changes nothing. *)
Example Add_full_no_buffer_test :
  (r ← Robin.Add [1; 2; 3] (Robin.NewBounded 2 []);
   r' ← Robin.Add [4] r;
   Ok (Robin.Len r, Robin.Contains 3 r, Robin.Len r', Robin.Contains 4 r'))
  = Ok (2, false, 2, false).
Proof. vm_compute. reflexivity. Qed.

(** ** The invariant *)

Lemma RInv_Rep (r : Robin.t) :
  RInv r ↔ ∃ cur bf, Rep r cur bf.
Proof.
  split.
  - intros [[ps HI] [bf HB]]. exists (vals (Robin.heap r) ps), bf.
    split; [|done]. by exists ps.
  - intros (cur & bf & [(ps & HI & _) HB]). split; eauto.
Qed.

Lemma RInv_init :
  RInv Robin.NewUnbounded ∧
  (∀ len, RInv (Robin.NewBounded len [])) ∧
  (∀ len b, lifo_rep b [] → RInv (Robin.NewBounded len [Robin.WithBuffer b])).
Proof.
  split_and!.
  - apply RInv_Rep. eexists _, _. apply NewUnbounded_Rep.
  - intros len. apply RInv_Rep. destruct (Z.le_gt_cases len 0).
    + rewrite NewBounded_nonpositive by done. eexists _, _.
      apply NewUnbounded_Rep.
    + eexists _, _. apply NewBounded_Rep. lia.
  - intros len b Hrep. apply RInv_Rep. destruct (Z.le_gt_cases len 0).
    + rewrite NewBounded_nonpositive by done. eexists _, _.
      apply NewUnbounded_Rep.
    + eexists _, _. apply NewBounded_WithBuffer_Rep; [lia|done].
Qed.

Lemma RInv_call (r : Robin.t) (o : robin_op) :
  RInv r → ∃ r', robin_call o r = Ok r' ∧ RInv r' ∧
                 Robin.maxLen r' = Robin.maxLen r.
Proof.
  intros (cur & bf & Hrep)%RInv_Rep. destruct o as [vs|vs| |]; simpl.
  - destruct (Add_refines vs _ _ _ Hrep) as (r' & HAdd & Hrep' & Hm).
    exists r'. split; [done|]. split; [|done]. apply RInv_Rep. eauto.
  - destruct (Remove_refines vs _ _ _ Hrep) as (r' & HRem & Hrep' & Hm).
    exists r'. split; [done|]. split; [|done]. apply RInv_Rep. eauto.
  - destruct (Next_refines _ _ _ Hrep) as (r' & -> & Hrep' & Hm).
    exists r'. split; [done|]. split; [|done]. apply RInv_Rep. eauto.
  - destruct (Reset_refines _ _ _ Hrep) as [Hrep' Hm].
    eexists. split; [done|]. split; [|done]. apply RInv_Rep. eauto.
Qed.

(** C2, as it holds.  The structural invariant ([Inv]: index and ring in
    bijection, one cycle from the cursor, unique values, at most [maxLen]
    cells) together with the coupling of the buffer ([Coupled]: the buffer
    holds no value twice and none that is indexed, and holds values only
    while the Robin is full) is preserved by [Add], [Remove], [Next] and
    [Reset], each of which returns and keeps the bound; the queries do not
    change the Robin. *)
Theorem RInv_preserved (r : Robin.t) (o : robin_op) :
  RInv r →
  ∃ r', robin_call o r = Ok r' ∧
        (∃ ps, Inv r' ps) ∧ (∃ bf, BufRep r' bf) ∧
        Robin.maxLen r' = Robin.maxLen r.
Proof.
  intros HI. destruct (RInv_call r o HI) as (r' & Hcall & [HI' HB'] & Hm).
  exists r'. done.
Qed.

Lemma RInv_preserved_witness :
  ∃ r', Robin.Add [1; 2; 3] Robin.NewUnbounded = Ok r' ∧
        (∃ ps, Inv r' ps) ∧ (∃ bf, BufRep r' bf) ∧
        Robin.maxLen r' = 0.
Proof.
  apply (RInv_preserved Robin.NewUnbounded (OpAdd [1; 2; 3])).
  exact (proj1 RInv_init).
Defined.

(** C2, as stated, fails when the buffer handed to [WithBuffer] already
    holds a value that is then added to the ring: after
    [b.Push(1); r := NewBounded(2, WithBuffer(b)); r.Add(1, 2)] the
    structural invariant holds, and [r.Remove(2)] breaks it (the cell of 2
    receives the popped 1, so two cells of the ring hold 1 and the index
    keeps one entry). *)
Lemma structural_invariant_not_preserved :
  ∃ r r',
    (b ← LIFOBuffer.NewLIFOBuffer 2;
     b ← LIFOBuffer.Push 1 b;
     Robin.Add [1; 2] (Robin.NewBounded 2 [Robin.WithBuffer b])) = Ok r ∧
    (∃ ps, Inv r ps) ∧
    Robin.Remove [2] r = Ok r' ∧
    Robin.Len r' = 1 ∧
    Robin.Nexts 2 r' = Ok ([(1, true); (1, true)], r') ∧
    ¬ (∃ ps, Inv r' ps).
Proof.
  set (b1 := LIFOBuffer.mk [1; 0] 1 1 {[ 1 := 1 ]} 2).
  set (b0 := LIFOBuffer.mk [1; 0] 0 0 ∅ 2).
  set (h := [node.mk 1 (Some 1%nat) (Some 1%nat);
             node.mk 2 (Some 0%nat) (Some 0%nat)]).
  set (h' := [node.mk 1 (Some 1%nat) (Some 1%nat);
              node.mk 1 (Some 0%nat) (Some 0%nat)]).
  exists (Robin.mk h (Some 0%nat) (<[1 := 0%nat]> (<[2 := 1%nat]> ∅)) 2 (Some b1)),
         (Robin.mk h' (Some 0%nat) (<[1 := 1%nat]> ∅) 2 (Some b0)).
  split_and!.
  - vm_compute. reflexivity.
  - exists [0%nat; 1%nat]. split; simpl.
    + apply NoDup_cons. split; [|apply NoDup_singleton].
      intros H%list_elem_of_singleton. discriminate H.
    + reflexivity.
    + unfold ring. simpl. split_and!; try done; eexists; done.
    + intros x p. rewrite !lookup_insert_Some, lookup_empty.
      rewrite !elem_of_cons, elem_of_nil. split.
      * intros [[<- <-]|[? [[<- <-]|[? ?]]]]; [auto|auto|done].
      * intros [[->|[->|[]]] <-]; [left; done|right; split; [done|left; done]].
    + lia.
  - vm_compute. reflexivity.
  - vm_compute. reflexivity.
  - vm_compute. reflexivity.
  - intros [ps HI]. pose proof (Inv_Len _ _ HI) as HLen.
    assert (Robin.Len (Robin.mk h' (Some 0%nat) (<[1 := 1%nat]> ∅) 2 (Some b0))
            = 1) as E by (vm_compute; reflexivity).
    rewrite E in HLen.
    destruct ps as [|p [|q ps]]; simpl in HLen; try lia.
    pose proof (inv_cursor _ _ HI) as Hcur. simpl in Hcur.
    injection Hcur as <-.
    pose proof (inv_index _ _ HI 1 1%nat) as [Hidx _]. simpl in Hidx.
    rewrite lookup_insert_eq in Hidx. destruct (Hidx eq_refl) as [Hin _].
    apply list_elem_of_singleton in Hin. discriminate Hin.
Qed.

(** ** A buffer of capacity 0 *)

Lemma bind_Ok {A B : Type} (m : outcome A) (f : A → outcome B) (y : B) :
  m ≫= f = Ok y → ∃ a, m = Ok a ∧ f a = Ok y.
Proof. destruct m as [a|]; [eauto | discriminate]. Qed.


Lemma attach_buffer (hd tl : option ptr) (r r' : Robin.t) :
  Robin.attach hd tl r = Ok r' → Robin.buffer r' = Robin.buffer r.
Proof.
  unfold Robin.attach. destruct hd; [|by intros [= <-]].
  destruct (Robin.next r).
  - intros (cur & _ & (h1 & _ & (h2 & _ & (h3 & _ & (h4 & _ & H)%bind_Ok)
                                   %bind_Ok)%bind_Ok)%bind_Ok)%bind_Ok.
    by injection H as <-.
  - intros (h1 & _ & (h2 & _ & H)%bind_Ok)%bind_Ok. by injection H as <-.
Qed.

Lemma unlink_buffer (p : ptr) (r r' : Robin.t) :
  Robin.unlink p r = Ok r' → Robin.buffer r' = Robin.buffer r.
Proof.
  unfold Robin.unlink. intros (nd & _ & H)%bind_Ok.
  destruct (bool_decide (Some p = node.next nd)); [by injection H as <-|].
  apply bind_Ok in H as (h1 & _ & (nd1 & _ & (h2 & _ & H)%bind_Ok)%bind_Ok).
  destruct (bool_decide (Some p = Robin.next r)).
  - apply bind_Ok in H as (nd2 & _ & H). by injection H as <-.
  - by injection H as <-.
Qed.

Lemma Add_loop_ZeroCap (vs : list Z) :
  ∀ (r : Robin.t) (hd tl : option ptr) (r' : Robin.t) (hd' tl' : option ptr),
    ZeroCap r → Robin.Add_loop vs r hd tl = Ok (r', hd', tl') → ZeroCap r'.
Proof.
  induction vs as [|x vs IH]; intros r hd tl r' hd' tl' HZ; simpl.
  - by intros [= <- _ _].
  - destruct (Robin.nodes r !! x); [by apply IH|].
    destruct (Robin.full r).
    + unfold ZeroCap in HZ. rewrite HZ. discriminate.
    + destruct hd.
      * intros (h1 & _ & (h2 & _ & H)%bind_Ok)%bind_Ok.
        by apply IH in H.
      * by apply IH.
Qed.

Lemma Remove_ZeroCap (vs : list Z) :
  ∀ r r' : Robin.t, ZeroCap r → Robin.Remove vs r = Ok r' → ZeroCap r'.
Proof.
  induction vs as [|x vs IH]; intros r r' HZ; simpl.
  - by intros [= <-].
  - destruct (Robin.nodes r !! x) as [p|]; [|by apply IH].
    unfold Robin.replaceValue. simpl. unfold ZeroCap in HZ. rewrite HZ. simpl.
    intros (r2 & Hul & H)%bind_Ok. apply IH in H; [done|].
    unfold ZeroCap. by rewrite (unlink_buffer _ _ _ Hul).
Qed.

Lemma ZeroCap_call (o : robin_op) (r r' : Robin.t) :
  ZeroCap r → robin_call o r = Ok r' → ZeroCap r'.
Proof.
  intros HZ. destruct o as [vs|vs| |]; simpl.
  - unfold Robin.Add.
    destruct (Robin.full r && negb (bool_decide (is_Some (Robin.buffer r))));
      [by intros [= <-]|].
    intros ([[r1 hd] tl] & Hloop & Hatt)%bind_Ok.
    apply Add_loop_ZeroCap in Hloop; [|done].
    unfold ZeroCap. by rewrite (attach_buffer _ _ _ _ Hatt).
  - by apply Remove_ZeroCap.
  - unfold Robin.Next. destruct (Robin.next r).
    + intros ([[x ok] r1] & (nd & _ & [= _ _ <-])%bind_Ok & [= <-])%bind_Ok.
      done.
    + simpl. by intros [= <-].
  - intros [= <-]. unfold Robin.Reset, ZeroCap in *. by rewrite HZ.
Qed.

Lemma ZeroCap_BufferLen (r : Robin.t) : ZeroCap r → Robin.BufferLen r = 0.
Proof. unfold ZeroCap, Robin.BufferLen. by intros ->. Qed.

(** ** Reachable states *)

Lemma reachable_RInv (r0 r : Robin.t) :
  RInv r0 → reachable r0 r → RInv r.
Proof.
  intros H0 Hreach. induction Hreach as [|r r' o _ IH Hcall]; [done|].
  destruct (RInv_call r o IH) as (r'' & Hcall' & HI & _).
  congruence.
Qed.

Lemma reachable_with_buffer (len c : Z) (b0 : LIFOBuffer.t) (r : Robin.t) :
  LIFOBuffer.NewLIFOBuffer c = Ok b0 →
  reachable (Robin.NewBounded len [Robin.WithBuffer b0]) r →
  RInv r ∨ ZeroCap r.
Proof.
  intros Hnew Hreach.
  destruct (Z.le_gt_cases len 0) as [Hlen|Hlen].
  { left. rewrite NewBounded_nonpositive in Hreach by done.
    eapply reachable_RInv; [apply (proj1 RInv_init) | done]. }
  destruct (Z.lt_trichotomy c 0) as [Hc|[->|Hc]].
  - unfold LIFOBuffer.NewLIFOBuffer, make_slice in Hnew.
    destruct (Z.ltb_spec c 0); [discriminate | lia].
  - right. injection Hnew as <-.
    induction Hreach as [|r r' o _ IH Hcall].
    + unfold Robin.NewBounded. destruct (Z.leb_spec len 0); [lia|]. done.
    + by eapply ZeroCap_call.
  - left. assert (c <= maxSliceLen).
    { unfold LIFOBuffer.NewLIFOBuffer, make_slice in Hnew.
      destruct (Z.ltb_spec c 0); [discriminate|].
      destruct (Z.ltb_spec maxSliceLen c); [discriminate | lia]. }
    destruct (NewLIFOBuffer_rep c) as (b & Hnew' & Hrep & _); [lia|].
    assert (b = b0) as -> by congruence.
    eapply reachable_RInv; [by apply (proj2 (proj2 RInv_init)) | done].
Qed.

Lemma Rep_BufferLen (r : Robin.t) (cur : list Z) (bf : option (Z * list Z)) :
  Rep r cur bf → Robin.BufferLen r = stack_len bf.
Proof.
  intros [_ HB]. destruct bf as [[c l]|]; simpl.
  - by apply (BufRep_BufferLen _ c).
  - unfold BufRep, Robin.BufferLen in *. by destruct (Robin.buffer r).
Qed.

Lemma Rep_buffer_full (r : Robin.t) (cur : list Z) (bf : option (Z * list Z)) :
  Rep r cur bf → Robin.BufferLen r ≠ 0 → Robin.full r = true.
Proof.
  intros Hrep Hne. rewrite (Rep_BufferLen _ _ _ Hrep) in Hne.
  destruct Hrep as [_ HB]. unfold BufRep in HB.
  destruct (Robin.buffer r) as [b|], bf as [[c l]|]; try done.
  destruct HB as [_ [_ _ _ Hfull]]. apply Hfull. intros ->. done.
Qed.

Lemma full_Len (r : Robin.t) :
  Robin.full r = true → Robin.Len r = Robin.maxLen r ∧ 0 < Robin.maxLen r.
Proof.
  unfold Robin.full. intros [H1 H2]%andb_true_iff.
  apply Z.ltb_lt in H1. apply Z.eqb_eq in H2. done.
Qed.

Lemma Model_Remove_stack (vs : list Z) :
  ∀ (cur : list Z) (bf : option (Z * list Z)),
    stack_len (Model.Remove vs cur bf).2 <= stack_len bf.
Proof.
  induction vs as [|x vs IH]; intros cur bf; simpl; [lia|].
  destruct (decide (x ∈ cur)); [|apply IH].
  etrans; [apply IH|].
  unfold Model.remove1. destruct bf as [[c [|w l]]|]; simpl; lia.
Qed.

Lemma Push_Contains (x : Z) (b b' : LIFOBuffer.t) :
  LIFOBuffer.Push x b = Ok b' → LIFOBuffer.Contains x b' = true.
Proof.
  unfold LIFOBuffer.Push.
  intros (b1 & _ & (s & _ & (j & _ & [= <-])%bind_Ok)%bind_Ok)%bind_Ok.
  unfold LIFOBuffer.Contains. cbn. by rewrite lookup_insert_eq.
Qed.

Lemma attach_index (hd tl : option ptr) (r r' : Robin.t) :
  Robin.attach hd tl r = Ok r' →
  Robin.nodes r' = Robin.nodes r ∧ Robin.maxLen r' = Robin.maxLen r.
Proof.
  unfold Robin.attach. destruct hd; [|by intros [= <-]].
  destruct (Robin.next r).
  - intros (cur & _ & (h1 & _ & (h2 & _ & (h3 & _ & (h4 & _ & H)%bind_Ok)
                                   %bind_Ok)%bind_Ok)%bind_Ok)%bind_Ok.
    by injection H as <-.
  - intros (h1 & _ & (h2 & _ & H)%bind_Ok)%bind_Ok. by injection H as <-.
Qed.

Lemma full_index (r r' : Robin.t) :
  Robin.nodes r' = Robin.nodes r → Robin.maxLen r' = Robin.maxLen r →
  Robin.full r' = Robin.full r.
Proof. unfold Robin.full, Robin.Len. by intros -> ->. Qed.

(** While the Robin is full the loop of [Add] touches the buffer only. *)
Lemma Add_loop_full_frame (vs : list Z) :
  ∀ (r : Robin.t) (hd tl : option ptr) (r' : Robin.t) (hd' tl' : option ptr),
    Robin.full r = true →
    Robin.Add_loop vs r hd tl = Ok (r', hd', tl') →
    Robin.nodes r' = Robin.nodes r ∧ Robin.maxLen r' = Robin.maxLen r.
Proof.
  induction vs as [|x vs IH]; intros r hd tl r' hd' tl' Hf;
    cbn [Robin.Add_loop].
  - by intros [= <- _ _].
  - destruct (Robin.nodes r !! x); [by apply IH|]. rewrite Hf.
    destruct (Robin.buffer r) as [b|]; [|by intros [= <- _ _]].
    destruct (LIFOBuffer.Contains x b); [by apply IH|].
    intros (b1 & _ & H)%bind_Ok. by apply IH in H.
Qed.

(** The loop of [Add] leaves the buffer alone unless the Robin ends full. *)
Lemma Add_loop_buffer_or_full (vs : list Z) :
  ∀ (r : Robin.t) (hd tl : option ptr) (r' : Robin.t) (hd' tl' : option ptr),
    Robin.Add_loop vs r hd tl = Ok (r', hd', tl') →
    Robin.buffer r' = Robin.buffer r ∨ Robin.full r' = true.
Proof.
  induction vs as [|x vs IH]; intros r hd tl r' hd' tl' H.
  { injection H as <- _ _. by left. }
  destruct (Robin.full r) eqn:Hf.
  { right. destruct (Add_loop_full_frame _ _ _ _ _ _ _ Hf H) as [Hn Hm].
    by rewrite (full_index _ _ Hn Hm). }
  cbn [Robin.Add_loop] in H.
  destruct (Robin.nodes r !! x); [by apply IH in H|].
  rewrite Hf in H. simpl in H. destruct hd.
  - apply bind_Ok in H as (h1 & _ & (h2 & _ & H)%bind_Ok).
    by apply IH in H.
  - by apply IH in H.
Qed.

Lemma Add_buffer_or_full (vs : list Z) (r r' : Robin.t) :
  Robin.Add vs r = Ok r' →
  Robin.buffer r' = Robin.buffer r ∨ Robin.full r' = true.
Proof.
  unfold Robin.Add.
  destruct (Robin.full r && negb (bool_decide (is_Some (Robin.buffer r)))).
  { intros [= <-]. by left. }
  intros ([[r1 hd] tl] & Hloop & Hatt)%bind_Ok.
  destruct (attach_index _ _ _ _ Hatt) as [Hn Hm].
  rewrite (attach_buffer _ _ _ _ Hatt), (full_index _ _ Hn Hm).
  by apply (Add_loop_buffer_or_full vs r None None r1 hd tl).
Qed.

(** [Add] of one value changes the buffer only by pushing that value, and
    only when the Robin is full at the call. *)
Lemma Add_one_pushed (x : Z) (r r' : Robin.t) :
  Robin.Add [x] r = Ok r' → Robin.buffer r' ≠ Robin.buffer r →
  Robin.full r = true ∧ Robin.nodes r' = Robin.nodes r ∧
  Robin.Contains x r = false ∧ Robin.BufferContains x r' = true.
Proof.
  unfold Robin.Add.
  destruct (Robin.full r && negb (bool_decide (is_Some (Robin.buffer r)))).
  { by intros [= <-]. }
  cbn [Robin.Add_loop]. unfold Robin.Contains.
  destruct (Robin.nodes r !! x) eqn:Ex; [by intros [= <-]|].
  destruct (Robin.full r) eqn:Hf.
  - destruct (Robin.buffer r) as [b|] eqn:Hb; [|by intros [= <-]].
    destruct (LIFOBuffer.Contains x b); [by intros [= <-]|].
    intros ([[r1 hd] tl] & (b' & HPush & [= <- <- <-])%bind_Ok & [= <-])%bind_Ok.
    intros _. split_and!; try done.
    unfold Robin.BufferContains. cbn. by apply (Push_Contains x b).
  - intros ([[r1 hd] tl] & Hloop & Hatt)%bind_Ok Hne. destruct Hne.
    rewrite (attach_buffer _ _ _ _ Hatt).
    simpl in Hloop. by injection Hloop as <- _ _.
Qed.

(** With at least as many buffered values as values to remove, every
    removal is a replacement. *)
Lemma Model_Remove_enough (vs : list Z) :
  ∀ (cur : list Z) (bf : option (Z * list Z)),
    Z.of_nat (length vs) <= stack_len bf →
    length (Model.Remove vs cur bf).1 = length cur ∧
    stack_len bf - Z.of_nat (length vs) <= stack_len (Model.Remove vs cur bf).2.
Proof.
  induction vs as [|x vs IH]; intros cur bf Hlen; cbn [Model.Remove].
  { cbn. split; [done|lia]. }
  cbn [length] in Hlen.
  destruct (decide (x ∈ cur)).
  - destruct bf as [[c [|w l]]|]; cbn [stack_len length] in Hlen; try lia.
    cbn [Model.remove1 fst snd].
    destruct (IH ((λ y, if decide (y = x) then w else y) <$> cur)
                 (Some (c, l))) as [H1 H2]; [cbn; lia|].
    rewrite H1, length_fmap. split; [done|]. cbn [stack_len length] in *. lia.
  - destruct (IH cur bf) as [H1 H2]; [lia|]. split; [done|].
    cbn [length]. lia.
Qed.

(** C9. A bounded Robin created with an empty buffer and driven through
    its own calls.  Whenever the buffer holds a value the Robin is full.
    Values are pushed only at the bound: [Add] of one value changes the
    buffer (which [Add] does by [Push] only) only if the Robin was full at
    the call, and then the ring is as before and the value is in the
    buffer, not in the ring; any [Add] that changes the buffer leaves the
    Robin full.  [Remove] does not shrink the ring while the buffer holds
    a value: [Remove] of one value with a non-empty buffer keeps the
    length, and so does [Remove] of at most as many values as the buffer
    holds, which uses at most one buffered value each; a [Remove] that
    leaves a value in the buffer has not changed the length. *)
Theorem buffer_nonempty_implies_full (len c : Z) (b0 : LIFOBuffer.t)
        (r : Robin.t) :
  LIFOBuffer.NewLIFOBuffer c = Ok b0 →
  reachable (Robin.NewBounded len [Robin.WithBuffer b0]) r →
  (Robin.BufferLen r ≠ 0 →
   Robin.Len r = Robin.maxLen r ∧ 0 < Robin.maxLen r) ∧
  (∀ x r', Robin.Add [x] r = Ok r' → Robin.buffer r' ≠ Robin.buffer r →
           (Robin.Len r = Robin.maxLen r ∧ 0 < Robin.maxLen r) ∧
           Robin.Len r' = Robin.Len r ∧
           Robin.Contains x r' = false ∧
           Robin.BufferContains x r' = true) ∧
  (∀ vs r', Robin.Add vs r = Ok r' → Robin.buffer r' ≠ Robin.buffer r →
            Robin.Len r' = Robin.maxLen r' ∧ 0 < Robin.maxLen r') ∧
  (∀ x r', Robin.Remove [x] r = Ok r' → Robin.BufferLen r ≠ 0 →
           Robin.Len r' = Robin.Len r) ∧
  (∀ vs r', Robin.Remove vs r = Ok r' →
            Z.of_nat (length vs) <= Robin.BufferLen r →
            Robin.Len r' = Robin.Len r ∧
            Robin.BufferLen r - Z.of_nat (length vs)
            <= Robin.BufferLen r') ∧
  (∀ vs r', Robin.Remove vs r = Ok r' →
            Robin.BufferLen r' ≠ 0 → Robin.Len r' = Robin.Len r).
Proof.
  intros Hnew Hreach.
  assert (HAdd1 : ∀ x r', Robin.Add [x] r = Ok r' →
            Robin.buffer r' ≠ Robin.buffer r →
            (Robin.Len r = Robin.maxLen r ∧ 0 < Robin.maxLen r) ∧
            Robin.Len r' = Robin.Len r ∧
            Robin.Contains x r' = false ∧
            Robin.BufferContains x r' = true).
  { intros x r' HAdd Hne.
    destruct (Add_one_pushed x r r' HAdd Hne) as (Hf & Hn & Hc & Hb).
    split_and!; [by apply full_Len..| | |done].
    - unfold Robin.Len. by rewrite Hn.
    - unfold Robin.Contains in *. by rewrite Hn. }
  assert (HAdd : ∀ vs r', Robin.Add vs r = Ok r' →
            Robin.buffer r' ≠ Robin.buffer r →
            Robin.Len r' = Robin.maxLen r' ∧ 0 < Robin.maxLen r').
  { intros vs r' HA Hne. apply full_Len.
    by destruct (Add_buffer_or_full vs r r' HA). }
  destruct (reachable_with_buffer _ _ _ _ Hnew Hreach) as [HI|HZ].
  - apply RInv_Rep in HI as (cur & bf & Hrep).
    assert (HRemN : ∀ vs r', Robin.Remove vs r = Ok r' →
              Z.of_nat (length vs) <= Robin.BufferLen r →
              Robin.Len r' = Robin.Len r ∧
              Robin.BufferLen r - Z.of_nat (length vs)
              <= Robin.BufferLen r').
    { intros vs r' HRem Hle.
      destruct (Remove_refines vs _ _ _ Hrep) as (r1 & HRem' & Hrep' & _).
      assert (r1 = r') as -> by congruence.
      rewrite (Rep_BufferLen _ _ _ Hrep) in Hle |- *.
      rewrite (Rep_BufferLen _ _ _ Hrep').
      rewrite (Rep_Len _ _ _ Hrep), (Rep_Len _ _ _ Hrep').
      destruct (Model_Remove_enough vs cur bf Hle) as [H1 H2].
      split; [by rewrite H1|done]. }
    split_and!; [|done|done| |done|].
    + intros Hne. apply full_Len. by apply (Rep_buffer_full _ _ _ Hrep).
    + intros x r' HRem Hne. apply (HRemN [x] r' HRem).
      rewrite (Rep_BufferLen _ _ _ Hrep) in Hne |- *. cbn [length].
      assert (0 <= stack_len bf) by (destruct bf as [[? ?]|]; simpl; lia).
      lia.
    + intros vs r' HRem Hne.
      destruct (Remove_refines vs _ _ _ Hrep) as (r1 & HRem' & Hrep' & Hm).
      assert (r1 = r') as -> by congruence.
      pose proof (Model_Remove_stack vs cur bf) as Hle.
      rewrite <- (Rep_BufferLen _ _ _ Hrep'), <- (Rep_BufferLen _ _ _ Hrep) in Hle.
      pose proof (Rep_BufferLen _ _ _ Hrep') as Hge.
      assert (0 <= Robin.BufferLen r').
      { rewrite Hge. destruct (Model.Remove vs cur bf).2 as [[? ?]|]; simpl; lia. }
      destruct (full_Len r') as [H1 _]; [by apply (Rep_buffer_full _ _ _ Hrep')|].
      destruct (full_Len r) as [H2 _];
        [apply (Rep_buffer_full _ _ _ Hrep); lia|].
      congruence.
  - split_and!; [|done|done| | |].
    + intros Hne. by rewrite (ZeroCap_BufferLen _ HZ) in Hne.
    + intros x r' _ Hne. by rewrite (ZeroCap_BufferLen _ HZ) in Hne.
    + intros vs r' HRem Hle. rewrite (ZeroCap_BufferLen _ HZ) in Hle |- *.
      destruct vs as [|x vs]; [|cbn [length] in Hle; lia].
      injection HRem as <-. rewrite (ZeroCap_BufferLen _ HZ). cbn. lia.
    + intros vs r' HRem Hne.
      assert (ZeroCap r') as HZ' by (by apply (ZeroCap_call (OpRemove vs) r)).
      by rewrite (ZeroCap_BufferLen _ HZ') in Hne.
Qed.

Lemma occ_NoDup (x : Z) (l : list Z) : NoDup l → occ x l <= 1.
Proof.
  induction 1 as [|y l Hy Hnd IH]; [by rewrite occ_nil|].
  rewrite occ_cons. destruct (decide (y = x)) as [->|]; [|lia].
  apply occ_zero in Hy. lia.
Qed.

(** C10. A bounded Robin created with an empty LIFO buffer and driven
    through its own calls: no value is both in the ring and in the buffer,
    and every multiplicity in the buffer's count map is 1. *)
Theorem ring_and_buffer_disjoint (len c : Z) (b0 : LIFOBuffer.t) (r : Robin.t) :
  LIFOBuffer.NewLIFOBuffer c = Ok b0 →
  reachable (Robin.NewBounded len [Robin.WithBuffer b0]) r →
  (∀ x, ¬ (Robin.Contains x r = true ∧ Robin.BufferContains x r = true)) ∧
  (∀ b x k, Robin.buffer r = Some b →
            LIFOBuffer.count b !! x = Some k → k = 1).
Proof.
  intros Hnew Hreach.
  destruct (reachable_with_buffer _ _ _ _ Hnew Hreach) as [[_ [bf HB]]|HZ].
  - unfold BufRep in HB. split.
    + intros x [Hc Hb]. unfold Robin.Contains, Robin.BufferContains in *.
      destruct (Robin.buffer r) as [b|]; [|done].
      destruct bf as [[c' l]|]; [|done]. destruct HB as [_ [Hrep _ Hdis _]].
      rewrite (Contains_rep _ _ x Hrep) in Hb.
      apply bool_decide_eq_true_1, Hdis in Hb. by rewrite Hb in Hc.
    + intros b x k Hbuf Hk. rewrite Hbuf in HB.
      destruct bf as [[c' l]|]; [|done]. destruct HB as [_ [Hrep Hnd _ _]].
      rewrite (rep_count _ _ Hrep) in Hk. unfold cnt in Hk.
      pose proof (occ_NoDup x l Hnd). pose proof (occ_range x l).
      destruct (Z.eqb_spec (occ x l) 0); [done|].
      injection Hk as <-. lia.
  - unfold ZeroCap in HZ. split.
    + intros x [_ Hb]. unfold Robin.BufferContains in Hb.
      by rewrite HZ in Hb.
    + intros b x k Hbuf Hk. rewrite HZ in Hbuf. injection Hbuf as <-.
      simpl in Hk. by rewrite lookup_empty in Hk.
Qed.

Lemma buffer_nonempty_implies_full_witness :
  ∃ b0 r r1 r2,
    LIFOBuffer.NewLIFOBuffer 2 = Ok b0 ∧
    Robin.Add [1; 2] (Robin.NewBounded 2 [Robin.WithBuffer b0]) = Ok r ∧
    Robin.Add [3] r = Ok r1 ∧
    Robin.buffer r1 ≠ Robin.buffer r ∧
    ((Robin.Len r = Robin.maxLen r ∧ 0 < Robin.maxLen r) ∧
     Robin.Len r1 = Robin.Len r ∧
     Robin.Contains 3 r1 = false ∧ Robin.BufferContains 3 r1 = true) ∧
    Robin.BufferLen r1 = 1 ∧
    (Robin.Len r1 = Robin.maxLen r1 ∧ 0 < Robin.maxLen r1) ∧
    Robin.Remove [1] r1 = Ok r2 ∧
    Robin.BufferLen r2 = 0 ∧
    Robin.Len r2 = Robin.Len r1.
Proof.
  destruct (NewLIFOBuffer_rep 2 ltac:(done)) as (b0 & Eb & Hb & Hc).
  pose proof (NewBounded_WithBuffer_Rep 2 b0 ltac:(done) Hb) as H0.
  rewrite Hc in H0.
  destruct (Add_refines [1; 2] _ _ _ H0) as (r & E & HR0 & Hm).
  assert (Robin.maxLen r = 2) as Em by (rewrite Hm; reflexivity).
  assert (Rep r [1; 2] (Some (2, []))) as HR by exact HR0.
  destruct (Add_refines [3] _ _ _ HR) as (r1 & E1 & HR10 & Hm1).
  rewrite Em in HR10.
  assert (Robin.maxLen r1 = 2) as Em1 by congruence.
  assert (Rep r1 [1; 2] (Some (2, [3]))) as HR1 by exact HR10.
  destruct (Remove_refines [1] _ _ _ HR1) as (r2 & E2 & HR20 & _).
  assert (Rep r2 [3; 2] (Some (2, []))) as HR2 by exact HR20.
  pose proof (Rep_BufferLen _ _ _ HR) as HB.
  pose proof (Rep_BufferLen _ _ _ HR1) as HB1.
  pose proof (Rep_BufferLen _ _ _ HR2) as HB2.
  cbn [stack_len length] in HB, HB1, HB2.
  assert (Robin.buffer r1 ≠ Robin.buffer r) as Hne.
  { intros Heq. unfold Robin.BufferLen in HB, HB1. rewrite Heq in HB1.
    rewrite HB in HB1. discriminate HB1. }
  assert (reachable (Robin.NewBounded 2 [Robin.WithBuffer b0]) r) as Hreach.
  { eapply (reach_call _ _ _ (OpAdd [1; 2])); [apply reach_init|exact E]. }
  assert (reachable (Robin.NewBounded 2 [Robin.WithBuffer b0]) r1) as Hreach1.
  { eapply (reach_call _ _ _ (OpAdd [3])); [exact Hreach|exact E1]. }
  destruct (buffer_nonempty_implies_full 2 2 b0 r Eb Hreach)
    as (_ & HAdd1 & _).
  destruct (buffer_nonempty_implies_full 2 2 b0 r1 Eb Hreach1)
    as (Hfull1 & _ & _ & HRem1 & _).
  assert (Robin.BufferLen r1 ≠ 0) as Hne1 by (rewrite HB1; discriminate).
  exists b0, r, r1, r2.
  split; [exact Eb|]. split; [exact E|]. split; [exact E1|].
  split; [exact Hne|]. split; [exact (HAdd1 3 r1 E1 Hne)|].
  split; [exact HB1|]. split; [exact (Hfull1 Hne1)|].
  split; [exact E2|]. split; [exact HB2|].
  exact (HRem1 1 r2 E2 Hne1).
Defined.

Lemma ring_and_buffer_disjoint_witness :
  ∃ b0 r,
    LIFOBuffer.NewLIFOBuffer 2 = Ok b0 ∧
    Robin.Add [1; 2; 3] (Robin.NewBounded 2 [Robin.WithBuffer b0]) = Ok r ∧
    Robin.BufferContains 3 r = true ∧
    (∀ x, ¬ (Robin.Contains x r = true ∧ Robin.BufferContains x r = true)).
Proof.
  eexists _, _. split; [reflexivity|]. split; [vm_compute; reflexivity|].
  split; [vm_compute; reflexivity|].
  eapply (ring_and_buffer_disjoint 2 2).
  - reflexivity.
  - eapply (reach_call _ _ _ (OpAdd [1; 2; 3])); [apply reach_init|].
    vm_compute. reflexivity.
Defined.

(** ** Totality *)

Lemma robin_run_complete (ops : list robin_op) :
  ∀ r : Robin.t, RInv r → completes (robin_run ops r).
Proof.
  induction ops as [|o ops IH]; intros r HI; simpl.
  - by exists r.
  - destruct (RInv_call r o HI) as (r' & -> & HI' & _). simpl.
    by apply IH.
Qed.

(** The operations also run when the buffer holds values of its own
    (pushed before it was attached): [Sound] is all they need. *)

Lemma Sound_set_buffer (r : Robin.t) (ps new : list ptr) (hd tl : option ptr)
      (b : LIFOBuffer.t) (l : list Z) :
  Sound r ps new hd tl → lifo_rep b l →
  Sound (Robin.set_buffer (Some b) r) ps new hd tl.
Proof.
  intros [[] Hinto Hinj Hbuf] Hrep. split; [by split|done|done|].
  simpl. intros b' [= <-]. eauto.
Qed.

Lemma Sound_Add_loop (vs : list Z) :
  ∀ (r : Robin.t) (ps new : list ptr) (hd tl : option ptr),
    Sound r ps new hd tl →
    ∃ r' new' hd' tl',
      Robin.Add_loop vs r hd tl = Ok (r', hd', tl') ∧
      Sound r' ps new' hd' tl'.
Proof.
  induction vs as [|x vs IH]; intros r ps new hd tl HS.
  - exists r, new, hd, tl. done.
  - cbn [Robin.Add_loop].
    destruct (Robin.nodes r !! x) as [p|] eqn:Hx; [by apply (IH r ps new)|].
    destruct (Robin.full r) eqn:Hf.
    + destruct (Robin.buffer r) as [b|] eqn:Hbuf; [|by exists r, new, hd, tl].
      destruct (LIFOBuffer.Contains x b); [by apply (IH r ps new)|].
      destruct (snd_buffer _ _ _ _ _ HS b Hbuf) as [l Hrep].
      destruct (Push_rep b l x Hrep) as (b' & -> & Hrep' & _). simpl.
      apply (IH _ ps new). by apply (Sound_set_buffer _ _ _ _ _ _ _ HS Hrep').
    + destruct HS as [HC Hinto Hinj Hbuf].
      destruct (Add_loop_alloc_shape _ _ _ _ _ x HC Hx Hf)
        as (r1 & p & Hstep & HC1 & Hfresh & _ & _ & Hn & Hb1 & _).
      specialize (Hstep vs). cbn [Robin.Add_loop] in Hstep.
      rewrite Hx, Hf in Hstep. rewrite Hstep. apply (IH _ ps (new ++ [p])).
      split; [done| | |by rewrite Hb1].
      * intros y q. rewrite Hn, lookup_insert_Some.
        rewrite !elem_of_app, list_elem_of_singleton.
        intros [[_ <-]|[_ Hq]]; [tauto|].
        apply Hinto, elem_of_app in Hq. tauto.
      * intros y z q. rewrite Hn, !lookup_insert_Some.
        intros [[Hy Hq]|[Hy Hq]] [[Hz Hq']|[Hz Hq']].
        -- congruence.
        -- subst q. by apply Hinto in Hq'.
        -- subst q. by apply Hinto in Hq.
        -- by apply (Hinj y z q).
Qed.

Lemma Sound_Add (vs : list Z) (r : Robin.t) (ps : list ptr) :
  Sound r ps [] None None →
  ∃ r' ps', Robin.Add vs r = Ok r' ∧ Sound r' ps' [] None None.
Proof.
  intros HS. unfold Robin.Add.
  destruct (Robin.full r && negb (bool_decide (is_Some (Robin.buffer r))));
    [by exists r, ps|].
  destruct (Sound_Add_loop vs _ _ _ _ _ HS)
    as (r1 & new & hd & tl & -> & [HC Hinto Hinj Hbuf]). simpl.
  destruct (attach_shape _ _ _ _ _ HC) as (r' & -> & HC' & _ & Hn & Hb & _).
  exists r', (new ++ ps). split; [done|]. split; [done| | |].
  - intros x p. rewrite Hn. apply Hinto.
  - intros x y p. rewrite Hn. apply Hinj.
  - by rewrite Hb.
Qed.

Lemma Sound_Remove (vs : list Z) :
  ∀ (r : Robin.t) (ps : list ptr),
    Sound r ps [] None None →
    ∃ r' ps', Robin.Remove vs r = Ok r' ∧ Sound r' ps' [] None None.
Proof.
  induction vs as [|x vs IH]; intros r ps HS; [by exists r, ps|].
  cbn [Robin.Remove].
  destruct (Robin.nodes r !! x) as [p|] eqn:Hx; [|by apply (IH r ps)].
  pose proof HS as [[Hnd Hcur Hring _ _ _] Hinto Hinj Hbuf]. simpl in *.
  pose proof (Hinto x p Hx) as Hpin.
  assert (Hpop : (∃ b w l b', Robin.buffer r = Some b ∧
                   LIFOBuffer.Pop b = Ok (w, true, b') ∧ lifo_rep b' l) ∨
                 (∃ r1, Robin.replaceValue p
                          (Robin.set_nodes (delete x (Robin.nodes r)) r)
                        = Ok (false, r1) ∧
                        Robin.heap r1 = Robin.heap r ∧
                        Robin.next r1 = Robin.next r ∧
                        Robin.nodes r1 = delete x (Robin.nodes r) ∧
                        ∀ b, Robin.buffer r1 = Some b → ∃ l, lifo_rep b l)).
  { destruct (Robin.buffer r) as [b|] eqn:Hb.
    - destruct (Hbuf b eq_refl) as [[|w l] Hrep].
      + right. unfold Robin.replaceValue. simpl. rewrite Hb.
        rewrite (Pop_rep_nil _ Hrep). simpl. eexists. split; [done|].
        simpl. split_and!; try done; intros b' [= <-]; eauto.
      + left. destruct (Pop_rep_cons _ _ _ Hrep) as (b' & Hp & Hrep' & _).
        by exists b, w, l, b'.
    - right. unfold Robin.replaceValue. simpl. rewrite Hb.
      eexists. split; [done|]. simpl. split_and!; try done;
        intros b; by rewrite Hb. }
  destruct Hpop as [(b & w & l & b' & Hb & Hp & Hrep')|
                    (r1 & Hrv & Hh1 & Hn1 & Hm1 & Hb1)].
  - (* the cell receives the popped value *)
    destruct (seg_lookup _ _ _ _ p Hring Hpin) as [nd Hl].
    unfold Robin.replaceValue. simpl. rewrite Hb, Hp. simpl.
    rewrite (upd_ok _ _ _ _ Hl). simpl. apply (IH _ ps).
    split; [split; simpl; try done; by apply seg_set_v|..]; simpl.
    + intros y q. rewrite lookup_insert_Some, lookup_delete_Some.
      intros [[_ <-]|[_ [_ Hq]]]; [done | by apply (Hinto y)].
    + intros y z q. rewrite !lookup_insert_Some, !lookup_delete_Some.
      intros [[Hy Hq]|[Hy [Hxy Hq]]] [[Hz Hq']|[Hz [Hxz Hq']]].
      * congruence.
      * subst q. destruct Hxz. by apply (Hinj x z p).
      * subst q. destruct Hxy. by apply (Hinj x y p).
      * by apply (Hinj y z q).
    + intros b0 [= <-]. eauto.
  - (* the cell is unlinked *)
    rewrite Hrv. simpl.
    destruct (list_elem_of_split _ _ Hpin) as (l1 & l2 & ->).
    assert (Hring1 : ring (Robin.heap r1) (l1 ++ p :: l2)) by (by rewrite Hh1).
    assert (Hcur1 : Robin.next r1 = head (l1 ++ p :: l2)) by (by rewrite Hn1).
    destruct (unlink_ring r1 l1 l2 p Hnd Hring1 Hcur1)
      as (r' & -> & Hring' & Hcur' & _ & Hn' & Hb' & _). simpl.
    assert (Hnd' : NoDup (l1 ++ l2)).
    { apply NoDup_app in Hnd as (H1 & H2 & [H3 H4]%NoDup_cons).
      apply NoDup_app. split; [done|]. split; [|done].
      intros q Hq Hq'. apply (H2 q Hq). by right. }
    apply (IH _ (l1 ++ l2)).
    split; [by split|..]; simpl.
    + intros y q. rewrite Hn', Hm1, lookup_delete_Some.
      intros [Hxy Hq]. pose proof (Hinto y q Hq) as Hin.
      apply elem_of_app in Hin as [Hin|[->|Hin]%elem_of_cons];
        apply elem_of_app; auto.
      destruct Hxy. by apply (Hinj x y p).
    + intros y z q. rewrite Hn', Hm1, !lookup_delete_Some.
      intros [_ Hq] [_ Hq']. by apply (Hinj y z q).
    + intros b. rewrite Hb'. apply Hb1.
Qed.

Lemma Sound_empty (r : Robin.t) :
  Robin.next r = None → Robin.nodes r = ∅ →
  (∀ b, Robin.buffer r = Some b → ∃ l, lifo_rep b l) →
  Sound r [] [] None None.
Proof.
  intros Hn Hm Hb. split; [split|..]; simpl; try done.
  - apply NoDup_nil_2.
  - intros x p. by rewrite Hm, lookup_empty.
  - intros x y p. by rewrite Hm, lookup_empty.
Qed.

Lemma Sound_call (o : robin_op) (r : Robin.t) (ps : list ptr) :
  Sound r ps [] None None →
  ∃ r' ps', robin_call o r = Ok r' ∧ Sound r' ps' [] None None.
Proof.
  intros HS. destruct o as [vs|vs| |]; simpl.
  - by apply (Sound_Add vs r ps).
  - by apply (Sound_Remove vs r ps).
  - destruct HS as [[Hnd Hcur Hring _ _ _] Hinto Hinj Hbuf]. simpl in *.
    unfold Robin.Next. rewrite Hcur. destruct ps as [|p ps]; simpl.
    + exists r, []. split; [done|]. split; [by split|done..].
    + destruct (ring_head_prev _ _ _ Hring) as (nd & Hl & _ & Hnx).
      rewrite (load_ok _ _ _ Hl). simpl.
      eexists _, (ps ++ [p]). split; [done|].
      split; [split; simpl; try done|..]; simpl; try done.
      * apply NoDup_app.
        apply NoDup_cons in Hnd as [Hp Hnd].
        split; [done|]. split; [|apply NoDup_singleton].
        intros q Hq ->%list_elem_of_singleton. done.
      * by apply (ring_rotate _ [p] ps).
      * intros x q Hq%Hinto. rewrite elem_of_app, list_elem_of_singleton.
        apply elem_of_cons in Hq. tauto.
  - exists (Robin.Reset r), []. split; [done|].
    destruct HS as [_ _ _ Hbuf]. unfold Robin.Reset.
    destruct (Robin.buffer r) as [b|] eqn:Hb; apply Sound_empty; simpl;
      try done.
    + intros b0 [= <-]. destruct (Hbuf b eq_refl) as [l Hrep].
      destruct (Reset_rep b (rep_wf _ _ Hrep)) as [Hrep' _]. eauto.
    + intros b0. by rewrite Hb.
Qed.

Lemma Sound_run (ops : list robin_op) :
  ∀ (r : Robin.t) (ps : list ptr),
    Sound r ps [] None None → completes (robin_run ops r).
Proof.
  induction ops as [|o ops IH]; intros r ps HS; simpl.
  - by exists r.
  - destruct (Sound_call o r ps HS) as (r' & ps' & -> & HS'). simpl.
    by apply (IH r' ps').
Qed.

Lemma Sound_NewBounded (len : Z) (b : LIFOBuffer.t) (l : list Z) :
  lifo_rep b l →
  Sound (Robin.NewBounded len [Robin.WithBuffer b]) [] [] None None.
Proof.
  intros Hrep. unfold Robin.NewBounded.
  destruct (len <=? 0); simpl; apply Sound_empty; simpl; try done.
  intros b0 [= <-]. eauto.
Qed.

(** C7, as it holds.  With a buffer capacity that is positive (and that
    [make] can allocate), every sequence of calls returns: on a buffer; on
    a Robin without buffer, whatever its bound, positive or not; and on a
    Robin with that buffer attached in whatever state the buffer's own
    calls left it.  On every well-formed state [Next] and [Pop] return, and
    their presence flag is [false] exactly when there is no value. *)
Theorem operations_complete (c len : Z) (bops : list lifo_op)
        (rops : list robin_op) :
  0 < c <= maxSliceLen →
  completes (b ← LIFOBuffer.NewLIFOBuffer c; lifo_run bops b) ∧
  completes (robin_run rops Robin.NewUnbounded) ∧
  completes (robin_run rops (Robin.NewBounded len [])) ∧
  completes (b ← LIFOBuffer.NewLIFOBuffer c;
             '(_, b') ← lifo_run bops b;
             robin_run rops (Robin.NewBounded len [Robin.WithBuffer b'])) ∧
  (∀ r, RInv r →
        ∃ x ok r', Robin.Next r = Ok (x, ok, r') ∧
                   (ok = false ↔ Robin.Len r = 0)) ∧
  (∀ b l, lifo_rep b l →
          ∃ x ok b', LIFOBuffer.Pop b = Ok (x, ok, b') ∧
                     (ok = false ↔ LIFOBuffer.Len b = 0)).
Proof.
  intros Hc.
  destruct (NewLIFOBuffer_rep c Hc) as (b0 & Hnew & Hrep0 & Hc0).
  destruct (lifo_run_refines bops b0 [] Hrep0) as (b' & Hrun & Hrep' & _).
  split_and!.
  - rewrite Hnew. simpl. eexists. exact Hrun.
  - apply robin_run_complete, RInv_init.
  - apply robin_run_complete, RInv_init.
  - rewrite Hnew. simpl. rewrite Hrun. simpl.
    by apply (Sound_run rops _ []), (Sound_NewBounded _ _ _ Hrep').
  - intros r (cur & bf & Hrep)%RInv_Rep.
    destruct (Next_refines _ _ _ Hrep) as (r' & HNext & _).
    eexists _, _, r'. split; [exact HNext|].
    rewrite (Rep_Len _ _ _ Hrep). destruct cur; simpl; split; try done; lia.
  - intros b l Hrep. destruct l as [|x l].
    + rewrite (Pop_rep_nil _ Hrep). eexists _, _, _. split; [done|].
      unfold LIFOBuffer.Len. rewrite (rep_n _ _ Hrep). done.
    + destruct (Pop_rep_cons _ _ _ Hrep) as (b1 & -> & _).
      eexists _, _, _. split; [done|].
      unfold LIFOBuffer.Len. rewrite (rep_n _ _ Hrep). simpl. split; [done|lia].
Qed.

Lemma operations_complete_witness :
  completes (b ← LIFOBuffer.NewLIFOBuffer 2;
             lifo_run [OPop; OPush 1; OPush 1; OPush 2; OPop; OReset; OPush 1] b) ∧
  completes (b ← LIFOBuffer.NewLIFOBuffer 2;
             '(_, b') ← lifo_run [OPop; OPush 1; OPush 1; OPush 2; OPop;
                                  OReset; OPush 1] b;
             robin_run [OpNext; OpRemove [7]; OpAdd [1; 1; 2; 3; 3; 4];
                        OpRemove [2; 2; 9]; OpNext; OpReset; OpNext]
                       (Robin.NewBounded 2 [Robin.WithBuffer b'])).
Proof.
  destruct (operations_complete 2 2
              [OPop; OPush 1; OPush 1; OPush 2; OPop; OReset; OPush 1]
              [OpNext; OpRemove [7]; OpAdd [1; 1; 2; 3; 3; 4];
               OpRemove [2; 2; 9]; OpNext; OpReset; OpNext])
    as (H1 & _ & _ & H4 & _).
  - split; [reflexivity | intros H; discriminate H].
  - split; [exact H1 | exact H4].
Defined.

(** C7, as stated, fails for non-positive buffer capacities: a buffer
    created with capacity 0 panics on its first [Push] (index out of range,
    and the modulus would be zero), also when the push comes from [Add] on
    a full Robin; a negative capacity panics in [make]. *)
Lemma nonpositive_capacity_panics :
  (∃ b, LIFOBuffer.NewLIFOBuffer 0 = Ok b ∧
        LIFOBuffer.Push 1 b = Panic ∧
        Robin.Add [1; 2] (Robin.NewBounded 1 [Robin.WithBuffer b]) = Panic) ∧
  LIFOBuffer.NewLIFOBuffer (-1) = Panic.
Proof.
  split; [|reflexivity].
  eexists. split; [reflexivity|]. split; vm_compute; reflexivity.
Qed.

(** * Further properties of the code *)

(** ** Calls that change nothing *)

Lemma Add_loop_present (vs : list Z) (r : Robin.t) (hd tl : option ptr) :
  (∀ x, x ∈ vs → Robin.Contains x r = true) →
  Robin.Add_loop vs r hd tl = Ok (r, hd, tl).
Proof.
  induction vs as [|x vs IH]; intros Hin; [done|].
  cbn [Robin.Add_loop].
  pose proof (Hin x ltac:(left)) as Hx. unfold Robin.Contains in Hx.
  destruct (Robin.nodes r !! x); [|done].
  apply IH. intros y Hy. apply Hin. by right.
Qed.

Lemma Add_present (vs : list Z) (r : Robin.t) :
  (∀ x, x ∈ vs → Robin.Contains x r = true) →
  Robin.Add vs r = Ok r.
Proof.
  intros Hin. unfold Robin.Add.
  destruct (Robin.full r && negb (bool_decide (is_Some (Robin.buffer r))));
    [done|].
  by rewrite (Add_loop_present vs r None None Hin).
Qed.

(** X1. [Add] of values that the Robin already contains returns the Robin
    as it is: the store, the cursor, the index and the buffer are the
    same, whatever state the Robin is in. *)
Theorem Add_present_is_identity (vs : list Z) (r : Robin.t) :
  (∀ x, x ∈ vs → Robin.Contains x r = true) →
  Robin.Add vs r = Ok r.
Proof. apply Add_present. Qed.

Lemma Add_present_is_identity_witness :
  let r := Robin.mk [node.mk 7 (Some 0%nat) (Some 0%nat)] (Some 0%nat)
             {[ 7 := 0%nat ]} 1 None in
  (∀ x, x ∈ [7; 7] → Robin.Contains x r = true) ∧ Robin.Add [7; 7] r = Ok r.
Proof.
  intros r.
  assert (H : ∀ x, x ∈ [7; 7] → Robin.Contains x r = true).
  { intros x Hx. rewrite !elem_of_cons, elem_of_nil in Hx.
    destruct Hx as [->|[->|[]]]; reflexivity. }
  exact (conj H (Add_present_is_identity [7; 7] r H)).
Defined.

(** X2. [Remove] of values that the Robin does not contain, values held
    in the buffer included, returns the Robin as it is. *)
Theorem Remove_absent_is_identity (vs : list Z) (r : Robin.t) :
  (∀ x, x ∈ vs → Robin.Contains x r = false) →
  Robin.Remove vs r = Ok r.
Proof.
  induction vs as [|x vs IH]; intros Hin; [done|].
  cbn [Robin.Remove].
  pose proof (Hin x ltac:(left)) as Hx. unfold Robin.Contains in Hx.
  destruct (Robin.nodes r !! x); [done|].
  apply IH. intros y Hy. apply Hin. by right.
Qed.

Lemma Remove_absent_is_identity_witness :
  let r := Robin.mk [node.mk 7 (Some 0%nat) (Some 0%nat)] (Some 0%nat)
             {[ 7 := 0%nat ]} 1
             (Some (LIFOBuffer.mk [8] 0 1 {[ 8 := 1 ]} 1)) in
  (∀ x, x ∈ [8; 9] → Robin.Contains x r = false) ∧
  Robin.Remove [8; 9] r = Ok r.
Proof.
  intros r.
  assert (H : ∀ x, x ∈ [8; 9] → Robin.Contains x r = false).
  { intros x Hx. rewrite !elem_of_cons, elem_of_nil in Hx.
    destruct Hx as [->|[->|[]]]; reflexivity. }
  exact (conj H (Remove_absent_is_identity [8; 9] r H)).
Defined.

(** ** A full round of [Next] *)

Lemma set_next_same (r : Robin.t) : Robin.set_next (Robin.next r) r = r.
Proof. by destruct r. Qed.

Lemma Nexts_Inv (l1 : list ptr) :
  ∀ (l2 : list ptr) (r : Robin.t),
    Inv r (l1 ++ l2) →
    Robin.Nexts (length l1) r
    = Ok ((λ p, (val (Robin.heap r) p, true)) <$> l1,
          Robin.set_next (head (l2 ++ l1)) r).
Proof.
  induction l1 as [|p l1 IH]; intros l2 r HI.
  - pose proof (inv_cursor _ _ HI) as Hc. cbn in Hc |- *.
    by rewrite app_nil_r, <- Hc, set_next_same.
  - cbn [length Robin.Nexts]. cbn [app] in HI.
    destruct (Next_Inv _ _ _ HI) as [-> HI'].
    cbn. rewrite <- (app_assoc l1 l2 [p]) in HI' |- *.
    rewrite (IH (l2 ++ [p]) _ HI'). cbn.
    by rewrite <- app_assoc.
Qed.

(** X3. On a well-formed Robin, [Len()] successive calls of [Next] return
    each contained value exactly once, every one with the flag [true], and
    leave the Robin exactly as it was: cursor, store, index and buffer. *)
Theorem Next_full_round (r : Robin.t) (cur : list Z)
    (bf : option (Z * list Z)) :
  Rep r cur bf →
  ∃ out, Robin.Nexts (Z.to_nat (Robin.Len r)) r = Ok (out, r) ∧
         out.*2 = replicate (Z.to_nat (Robin.Len r)) true ∧
         NoDup out.*1 ∧
         ∀ x, x ∈ out.*1 ↔ Robin.Contains x r = true.
Proof.
  intros HR. pose proof (Rep_NoDup _ _ _ HR) as Hnd.
  pose proof (Rep_Len _ _ _ HR) as HL.
  assert (HC := λ x, Rep_Contains r cur bf x HR).
  destruct HR as [(ps & HI & Hv) _].
  assert (length cur = length ps) as Hlen
    by (rewrite <- Hv; unfold vals; by rewrite length_fmap).
  rewrite HL, Nat2Z.id, Hlen.
  pose proof (Nexts_Inv ps [] r) as HN. rewrite app_nil_r in HN.
  specialize (HN HI). cbn [app] in HN.
  rewrite <- (inv_cursor _ _ HI), set_next_same in HN.
  eexists. split; [exact HN|].
  rewrite <- !list_fmap_compose.
  assert ((fst ∘ (λ p, (val (Robin.heap r) p, true))) <$> ps = cur) as ->
    by (rewrite <- Hv; done).
  split_and!.
  - clear. induction ps; cbn; congruence.
  - done.
  - intros x. rewrite HC. by rewrite bool_decide_eq_true.
Qed.

Lemma Next_full_round_witness :
  ∃ r, Rep r [1; 2; 3] None ∧
  ∃ out, Robin.Nexts (Z.to_nat (Robin.Len r)) r = Ok (out, r) ∧
         out.*2 = replicate (Z.to_nat (Robin.Len r)) true ∧
         NoDup out.*1 ∧
         ∀ x, x ∈ out.*1 ↔ Robin.Contains x r = true.
Proof.
  destruct (Add_refines [1; 2; 3] _ _ _ NewUnbounded_Rep) as (r & _ & HR & _).
  exists r. split; [exact HR|].
  exact (Next_full_round r _ _ HR).
Defined.

(** ** What a caller can observe *)

Lemma BufRep_None (r : Robin.t) : BufRep r None → Robin.buffer r = None.
Proof. unfold BufRep. by destruct (Robin.buffer r). Qed.

Lemma Rep_BufferContains (r : Robin.t) (cur : list Z)
    (bf : option (Z * list Z)) (x : Z) :
  Rep r cur bf →
  Robin.BufferContains x r
  = match bf with
    | None => false
    | Some (_, l) => bool_decide (x ∈ l)
    end.
Proof.
  intros [_ HB]. destruct bf as [[c l]|].
  - by apply (BufRep_BufferContains r c l).
  - unfold Robin.BufferContains. by rewrite (BufRep_None r HB).
Qed.

Lemma api_call_refines (c : api_call) (r : Robin.t) (cur : list Z)
    (bf : option (Z * list Z)) :
  Rep r cur bf →
  ∃ r', api_call_run c r
        = Ok ((model_call (Robin.maxLen r) c cur bf).1, r') ∧
        Rep r' (model_call (Robin.maxLen r) c cur bf).2.1
               (model_call (Robin.maxLen r) c cur bf).2.2 ∧
        Robin.maxLen r' = Robin.maxLen r.
Proof.
  intros HR. destruct c as [vs|vs| | |x|x| |]; cbn [api_call_run model_call].
  - destruct (Add_refines vs r cur bf HR) as (r' & -> & HR' & Hm). by exists r'.
  - destruct (Remove_refines vs r cur bf HR) as (r' & -> & HR' & Hm).
    by exists r'.
  - destruct (Next_refines r cur bf HR) as (r' & -> & HR' & Hm). by exists r'.
  - destruct (Reset_refines r cur bf HR) as [HR' Hm]. by eexists.
  - rewrite (Rep_Contains r cur bf x HR). by exists r.
  - rewrite (Rep_BufferContains r cur bf x HR). by exists r.
  - rewrite (Rep_Len r cur bf HR). by exists r.
  - rewrite (Rep_BufferLen r cur bf HR). by exists r.
Qed.

Lemma api_run_refines (cs : list api_call) :
  ∀ (r : Robin.t) (cur : list Z) (bf : option (Z * list Z)),
    Rep r cur bf →
    ∃ r', api_run cs r = Ok (model_run (Robin.maxLen r) cs cur bf, r').
Proof.
  induction cs as [|c cs IH]; intros r cur bf HR; [by exists r|].
  cbn [api_run model_run].
  destruct (api_call_refines c r cur bf HR) as (r1 & -> & HR1 & Hm).
  destruct (model_call (Robin.maxLen r) c cur bf) as [o [cur1 bf1]].
  cbn in HR1 |- *.
  destruct (IH r1 cur1 bf1 HR1) as (r2 & ->). rewrite Hm.
  by exists r2.
Qed.

Lemma same_rotation_same_answers_aux (r1 r2 : Robin.t) (cur : list Z)
    (bf : option (Z * list Z)) (cs : list api_call) :
  Rep r1 cur bf → Rep r2 cur bf → Robin.maxLen r1 = Robin.maxLen r2 →
  ∃ out r1' r2', api_run cs r1 = Ok (out, r1') ∧
                 api_run cs r2 = Ok (out, r2').
Proof.
  intros H1 H2 Hm.
  destruct (api_run_refines cs r1 cur bf H1) as (r1' & E1).
  destruct (api_run_refines cs r2 cur bf H2) as (r2' & E2).
  rewrite <- Hm in E2. eauto.
Qed.

(** X4. Two well-formed Robins with the same bound, the same rotation of
    values and the same buffer capacity and buffered values answer every
    sequence of API calls alike: where the cells lie in the store, cells
    left behind by [Remove] or [Reset], and stale entries of the buffer's
    array cannot be observed. *)
Theorem same_rotation_same_answers (r1 r2 : Robin.t) (cur : list Z)
    (bf : option (Z * list Z)) (cs : list api_call) :
  Rep r1 cur bf → Rep r2 cur bf → Robin.maxLen r1 = Robin.maxLen r2 →
  ∃ out r1' r2', api_run cs r1 = Ok (out, r1') ∧
                 api_run cs r2 = Ok (out, r2').
Proof. apply same_rotation_same_answers_aux. Qed.

Lemma same_rotation_same_answers_witness :
  ∃ r1 r2, r1 ≠ r2 ∧ Rep r1 [1; 2] None ∧ Rep r2 [1; 2] None ∧
  ∃ out r1' r2',
    api_run [CallNext; CallRemove [2]; CallLen; CallNext] r1 = Ok (out, r1') ∧
    api_run [CallNext; CallRemove [2]; CallLen; CallNext] r2 = Ok (out, r2').
Proof.
  destruct (Add_refines [1; 2] _ _ _ NewUnbounded_Rep) as (r1 & E1 & H1 & M1).
  destruct (Add_refines [2] _ _ _ NewUnbounded_Rep) as (r & E & H & M).
  destruct (Add_refines [1] _ _ _ H) as (r2 & E2 & H2 & M2).
  rewrite M in H2. exists r1, r2. split; [|split; [exact H1|split; [exact H2|]]].
  - vm_compute in E1. vm_compute in E. injection E1 as <-. injection E as <-.
    vm_compute in E2. injection E2 as <-. discriminate.
  - apply (same_rotation_same_answers r1 r2 [1; 2] None _ H1 H2).
    rewrite M1, M2, M. reflexivity.
Defined.

(** X5. After [Reset] a well-formed Robin answers every sequence of API
    calls as a new Robin does that the constructors build with the same
    bound and a new buffer of the same capacity. *)
Theorem Reset_behaves_as_new (r : Robin.t) (cur : list Z)
    (bf : option (Z * list Z)) (cs : list api_call) :
  Rep r cur bf → 0 <= Robin.maxLen r →
  (Robin.maxLen r = 0 → Robin.buffer r = None) →
  ∃ r0 out r1 r2, renew r = Ok r0 ∧
                  api_run cs (Robin.Reset r) = Ok (out, r1) ∧
                  api_run cs r0 = Ok (out, r2).
Proof.
  intros HR Hm Hb.
  destruct (Reset_refines r cur bf HR) as [HR1 Hm1].
  assert (∃ r0, renew r = Ok r0 ∧
                Rep r0 (Model.Reset bf).1 (Model.Reset bf).2 ∧
                Robin.maxLen r0 = Robin.maxLen r) as (r0 & E0 & HR0 & Hm0).
  { unfold renew. destruct HR as [_ HB]. unfold BufRep in HB.
    destruct (Robin.buffer r) as [b|] eqn:Eb.
    - destruct bf as [[c l]|]; [|done]. destruct HB as [Hc HC].
      assert (0 < Robin.maxLen r) as Hpos.
      { destruct (decide (Robin.maxLen r = 0)) as [Hz|]; [|lia].
        by specialize (Hb Hz). }
      pose proof (wf_capacity _ (rep_wf _ _ (cpl_rep _ _ _ HC))) as Hcap.
      destruct (NewLIFOBuffer_rep _ Hcap) as (b0 & -> & Hb0 & Hc0).
      eexists. split; [reflexivity|]. cbn [Model.Reset fst snd].
      rewrite <- Hc, <- Hc0. split.
      + by apply NewBounded_WithBuffer_Rep.
      + unfold Robin.NewBounded.
        destruct (Z.leb_spec (Robin.maxLen r) 0); [lia|done].
    - destruct bf as [[c l]|]; [done|].
      eexists. split; [reflexivity|]. cbn [Model.Reset fst snd].
      destruct (decide (Robin.maxLen r = 0)) as [Hz|Hnz].
      + rewrite Hz. split; [apply NewUnbounded_Rep|done].
      + split; [apply NewBounded_Rep; lia|].
        unfold Robin.NewBounded.
        destruct (Z.leb_spec (Robin.maxLen r) 0); [lia|done]. }
  destruct (same_rotation_same_answers_aux (Robin.Reset r) r0 _ _ cs HR1 HR0)
    as (out & r1 & r2 & E1 & E2); [congruence|].
  by exists r0, out, r1, r2.
Qed.

Lemma Reset_behaves_as_new_witness :
  ∃ b r, LIFOBuffer.NewLIFOBuffer 2 = Ok b ∧
         Robin.Add [1; 2; 3] (Robin.NewBounded 2 [Robin.WithBuffer b]) = Ok r ∧
  ∃ r0 out r1 r2,
    renew r = Ok r0 ∧
    api_run [CallAdd [5; 6; 7]; CallBufferLen; CallNext] (Robin.Reset r)
    = Ok (out, r1) ∧
    api_run [CallAdd [5; 6; 7]; CallBufferLen; CallNext] r0 = Ok (out, r2).
Proof.
  destruct (NewLIFOBuffer_rep 2 ltac:(done)) as (b & Eb & Hb & Hc).
  destruct (Add_refines [1; 2; 3] _ _ _
              (NewBounded_WithBuffer_Rep 2 b ltac:(done) Hb))
    as (r & E & HR & Hm).
  exists b, r. split; [exact Eb|]. split; [exact E|].
  apply (Reset_behaves_as_new r _ _ _ HR).
  - rewrite Hm. done.
  - rewrite Hm. done.
Defined.

(** ** [Remove] and [Add] as operations on the values *)

Lemma filter_ext_elem {A : Type} (P Q : A → Prop)
    `{!∀ x, Decision (P x), !∀ x, Decision (Q x)} (l : list A) :
  (∀ x, x ∈ l → P x ↔ Q x) → filter P l = filter Q l.
Proof.
  induction l as [|a l IH]; intros Hext; [done|].
  rewrite !filter_cons.
  pose proof (Hext a ltac:(left)) as Ha.
  rewrite IH by (intros y Hy; apply Hext; by right).
  destruct (decide (P a)), (decide (Q a)); tauto || done.
Qed.

Lemma filter_none {A : Type} (P : A → Prop) `{!∀ x, Decision (P x)}
    (l : list A) :
  (∀ x, x ∈ l → ¬ P x) → filter P l = [].
Proof.
  induction l as [|a l IH]; intros Hn; [done|].
  rewrite filter_cons.
  destruct (decide (P a)) as [Ha|_]; [by destruct (Hn a ltac:(left))|].
  apply IH. intros y Hy. apply Hn. by right.
Qed.

Lemma Model_Remove_filter (vs : list Z) :
  ∀ (cur : list Z) (bf : option (Z * list Z)),
    stack_len bf = 0 →
    Model.Remove vs cur bf = (filter (λ y, y ∉ vs) cur, bf).
Proof.
  induction vs as [|x vs IH]; intros cur bf Hb.
  - cbn. f_equal. symmetry. apply filter_all. intros y _. apply not_elem_of_nil.
  - cbn [Model.Remove].
    assert (Model.remove1 x cur bf = (filter (λ y, y ≠ x) cur, bf)) as E1.
    { by destruct bf as [[c [|w l]]|]. }
    destruct (decide (x ∈ cur)) as [Hx|Hx].
    + rewrite E1. cbn [fst snd]. rewrite (IH _ _ Hb). f_equal.
      rewrite list_filter_filter. apply list_filter_iff.
      intros y. rewrite not_elem_of_cons. tauto.
    + rewrite (IH _ _ Hb). f_equal. apply filter_ext_elem.
      intros y Hy. rewrite not_elem_of_cons.
      split; [|tauto]. intros Hn. split; [|done]. by intros ->.
Qed.

Lemma Remove_filter (vs : list Z) (r : Robin.t) (cur : list Z)
    (bf : option (Z * list Z)) :
  Rep r cur bf → Robin.BufferLen r = 0 →
  ∃ r', Robin.Remove vs r = Ok r' ∧
        Rep r' (filter (λ y, y ∉ vs) cur) bf ∧
        Robin.maxLen r' = Robin.maxLen r.
Proof.
  intros HR Hb. rewrite (Rep_BufferLen _ _ _ HR) in Hb.
  destruct (Remove_refines vs r cur bf HR) as (r' & E & HR' & Hm).
  rewrite (Model_Remove_filter vs cur bf Hb) in HR'. by exists r'.
Qed.

Lemma present_elems (vs : list Z) (r : Robin.t) (cur : list Z)
    (bf : option (Z * list Z)) :
  Rep r cur bf →
  present vs r = list_to_set cur ∩ list_to_set vs.
Proof.
  intros HR. apply set_eq. intros x. unfold present.
  rewrite elem_of_filter, elem_of_intersection, !elem_of_list_to_set.
  rewrite (Rep_Contains _ _ _ x HR), bool_decide_eq_true. tauto.
Qed.

Lemma missing_elems (vs : list Z) (r : Robin.t) (cur : list Z)
    (bf : option (Z * list Z)) :
  Rep r cur bf →
  missing vs r = list_to_set vs ∖ list_to_set cur.
Proof.
  intros HR. apply set_eq. intros x. unfold missing.
  rewrite elem_of_filter, elem_of_difference, !elem_of_list_to_set.
  rewrite (Rep_Contains _ _ _ x HR), bool_decide_eq_false. tauto.
Qed.

Lemma length_filter_out (vs cur : list Z) :
  NoDup cur →
  length cur
  = (length (filter (λ y, y ∉ vs) cur)
     + size (list_to_set cur ∩ list_to_set vs : gset Z))%nat.
Proof.
  intros Hnd.
  rewrite <- (size_list_to_set (C:=gset Z) cur Hnd).
  rewrite <- (size_list_to_set (C:=gset Z) (filter _ cur))
    by (by apply NoDup_filter).
  rewrite <- size_union.
  - f_equal. apply set_eq. intros x.
    rewrite elem_of_union, elem_of_intersection, !elem_of_list_to_set,
      list_elem_of_filter.
    destruct (decide (x ∈ vs)); tauto.
  - intros x. rewrite elem_of_intersection, !elem_of_list_to_set,
      list_elem_of_filter. tauto.
Qed.

(** X6. While the buffer holds no value (or there is none), [Remove(vs)]
    takes exactly the values of [vs] out of the rotation: the others stay,
    in their order and with the cursor on the first one that is left;
    [Contains] afterwards is [Contains] before minus the values of [vs],
    and [Len] drops by the number of distinct values of [vs] that were
    contained. *)
Theorem Remove_takes_out (vs : list Z) (r : Robin.t) (cur : list Z)
    (bf : option (Z * list Z)) :
  Rep r cur bf → Robin.BufferLen r = 0 →
  ∃ r', Robin.Remove vs r = Ok r' ∧
        Rep r' (filter (λ y, y ∉ vs) cur) bf ∧
        (∀ x, Robin.Contains x r'
              = Robin.Contains x r && negb (bool_decide (x ∈ vs))) ∧
        Robin.Len r' = Robin.Len r - Z.of_nat (size (present vs r)).
Proof.
  intros HR Hb.
  destruct (Remove_filter vs r cur bf HR Hb) as (r' & E & HR' & _).
  exists r'. split_and!; [done..| |].
  - intros x. rewrite (Rep_Contains _ _ _ x HR), (Rep_Contains _ _ _ x HR').
    rewrite <- bool_decide_not, <- bool_decide_and.
    apply bool_decide_ext. rewrite list_elem_of_filter. tauto.
  - rewrite (Rep_Len _ _ _ HR), (Rep_Len _ _ _ HR').
    rewrite (present_elems vs r cur bf HR).
    pose proof (length_filter_out vs cur (Rep_NoDup _ _ _ HR)). lia.
Qed.

Lemma Remove_takes_out_witness :
  ∃ r, Rep r [1; 2; 3] None ∧
  ∃ r', Robin.Remove [2; 9; 2] r = Ok r' ∧
        Rep r' (filter (λ y, y ∉ [2; 9; 2]) [1; 2; 3]) None ∧
        (∀ x, Robin.Contains x r'
              = Robin.Contains x r && negb (bool_decide (x ∈ [2; 9; 2]))) ∧
        Robin.Len r' = Robin.Len r - Z.of_nat (size (present [2; 9; 2] r)).
Proof.
  destruct (Add_refines [1; 2; 3] _ _ _ NewUnbounded_Rep) as (r & E & HR & _).
  exists r. split; [exact HR|].
  apply (Remove_takes_out [2; 9; 2] r _ _ HR).
  vm_compute in E. injection E as <-. reflexivity.
Defined.

Lemma Model_add_full (mx : Z) (vs cur new : list Z) :
  ∀ bf : option (Z * list Z),
    (0 <? mx) && (Z.of_nat (length (new ++ cur)) =? mx) = true →
    (Model.add mx vs cur new bf).1 = new.
Proof.
  induction vs as [|x vs IH]; intros bf Hf; [done|].
  cbn [Model.add]. rewrite Hf.
  destruct (decide (x ∈ new ++ cur)); [by apply IH|].
  destruct bf as [[c l]|]; [|done].
  destruct (decide (x ∈ l)); by apply IH.
Qed.

Lemma Model_add_suffix (mx : Z) (vs cur : list Z) :
  ∀ (new : list Z) (bf : option (Z * list Z)),
    ∃ sfx, (Model.add mx vs cur new bf).1 = new ++ sfx ∧
           ∀ x, x ∈ sfx → x ∈ vs.
Proof.
  induction vs as [|x vs IH]; intros new bf.
  - exists []. split; [by rewrite app_nil_r|]. by intros x ?%elem_of_nil.
  - assert (∀ new' bf', (∃ sfx, new' = new ++ sfx ∧ ∀ y, y ∈ sfx → y ∈ x :: vs) →
              ∃ sfx, (Model.add mx vs cur new' bf').1 = new ++ sfx ∧
                     ∀ y, y ∈ sfx → y ∈ x :: vs) as Hstep.
    { intros new' bf' (s1 & -> & H1).
      destruct (IH (new ++ s1) bf') as (s2 & -> & H2).
      exists (s1 ++ s2). split; [by rewrite app_assoc|].
      intros y [?|?]%elem_of_app; [by apply H1|right; by apply H2]. }
    assert (∃ sfx, new = new ++ sfx ∧ ∀ y, y ∈ sfx → y ∈ x :: vs) as Hnil.
    { exists []. split; [by rewrite app_nil_r|]. by intros y ?%elem_of_nil. }
    cbn [Model.add].
    destruct (decide (x ∈ new ++ cur)); [by apply Hstep|].
    destruct ((0 <? mx) && (Z.of_nat (length (new ++ cur)) =? mx)).
    + destruct bf as [[c l]|]; [|done].
      destruct (decide (x ∈ l)); by apply Hstep.
    + apply Hstep. exists [x]. split; [done|].
      intros y ->%list_elem_of_singleton. by left.
Qed.

Lemma Model_add_None (mx : Z) (vs cur : list Z) :
  ∀ new : list Z, (Model.add mx vs cur new None).2 = None.
Proof.
  induction vs as [|x vs IH]; intros new; [done|].
  cbn [Model.add].
  destruct (decide (x ∈ new ++ cur)); [by apply IH|].
  destruct ((0 <? mx) && (Z.of_nat (length (new ++ cur)) =? mx)); [done|].
  by apply IH.
Qed.

(** [Add] goes on until the Robin is full or every value is in. *)
Lemma Model_add_covers (mx : Z) (vs cur : list Z) :
  ∀ (new : list Z) (bf : option (Z * list Z)),
    let res := (Model.add mx vs cur new bf).1 in
    (0 <? mx) && (Z.of_nat (length (res ++ cur)) =? mx) = true ∨
    ∀ x, x ∈ vs → x ∈ res ++ cur.
Proof.
  induction vs as [|x vs IH]; intros new bf res.
  { right. by intros x ?%elem_of_nil. }
  destruct ((0 <? mx) && (Z.of_nat (length (new ++ cur)) =? mx)) eqn:Hf.
  { left. subst res. by rewrite (Model_add_full mx (x :: vs) cur new bf Hf). }
  subst res. cbn [Model.add]. rewrite Hf.
  destruct (decide (x ∈ new ++ cur)) as [Hx|Hx].
  - destruct (IH new bf) as [Hl|Hr]; [by left|right].
    intros y [->|Hy]%elem_of_cons; [|by apply Hr].
    destruct (Model_add_suffix mx vs cur new bf) as (sfx & -> & _).
    rewrite <- app_assoc, !elem_of_app. rewrite elem_of_app in Hx. tauto.
  - destruct (IH (new ++ [x]) bf) as [Hl|Hr]; [by left|right].
    intros y [->|Hy]%elem_of_cons; [|by apply Hr].
    destruct (Model_add_suffix mx vs cur (new ++ [x]) bf) as (sfx & -> & _).
    rewrite !elem_of_app, list_elem_of_singleton. tauto.
Qed.

Lemma size_add_new (x : Z) (A : gset Z) :
  x ∉ A → size ({[x]} ∪ A) = S (size A).
Proof.
  intros Hx. rewrite size_union, size_singleton; [done|].
  by intros y ->%elem_of_singleton.
Qed.

Lemma Model_add_length (mx : Z) (vs cur : list Z) :
  ∀ (new : list Z) (bf : option (Z * list Z)),
    (0 < mx → Z.of_nat (length (new ++ cur)) <= mx) →
    let d := Z.of_nat (size (list_to_set vs ∖ list_to_set (new ++ cur)
                             : gset Z)) in
    Z.of_nat (length ((Model.add mx vs cur new bf).1 ++ cur))
    = if 0 <? mx then Z.min mx (Z.of_nat (length (new ++ cur)) + d)
      else Z.of_nat (length (new ++ cur)) + d.
Proof.
  induction vs as [|x vs IH]; intros new bf Hle d.
  { subst d. cbn [Model.add fst list_to_set].
    replace (∅ ∖ list_to_set (new ++ cur) : gset Z) with (∅ : gset Z)
      by (apply set_eq; intros y; rewrite elem_of_difference, elem_of_empty;
          tauto).
    rewrite size_empty. destruct (Z.ltb_spec 0 mx); lia. }
  destruct ((0 <? mx) && (Z.of_nat (length (new ++ cur)) =? mx)) eqn:Hf.
  { rewrite (Model_add_full mx (x :: vs) cur new bf Hf).
    apply andb_true_iff in Hf as [H1 H2]. rewrite H1. lia. }
  cbn [Model.add]. rewrite Hf.
  destruct (decide (x ∈ new ++ cur)) as [Hx|Hx].
  - rewrite (IH new bf Hle). subst d.
    replace (list_to_set (x :: vs) ∖ list_to_set (new ++ cur) : gset Z)
      with (list_to_set vs ∖ list_to_set (new ++ cur) : gset Z); [done|].
    apply set_eq. intros y.
    rewrite !elem_of_difference, !elem_of_list_to_set, elem_of_cons.
    split; [tauto|]. intros [[->|?] ?]; tauto.
  - assert (0 < mx → Z.of_nat (length ((new ++ [x]) ++ cur)) <= mx) as Hle'.
    { intros Hpos. specialize (Hle Hpos).
      rewrite !length_app in *. cbn [length].
      apply andb_false_iff in Hf as [Hf|Hf]; [lia|].
      apply Z.eqb_neq in Hf. lia. }
    rewrite (IH (new ++ [x]) bf Hle'). subst d.
    replace (list_to_set (x :: vs) ∖ list_to_set (new ++ cur) : gset Z)
      with ({[x]} ∪ (list_to_set vs ∖ list_to_set ((new ++ [x]) ++ cur))
            : gset Z).
    + rewrite size_add_new.
      * rewrite !length_app. cbn [length].
        destruct (0 <? mx); lia.
      * rewrite elem_of_difference, !elem_of_list_to_set, !elem_of_app,
          list_elem_of_singleton. tauto.
    + apply set_eq. intros y.
      rewrite elem_of_union, elem_of_singleton, !elem_of_difference,
        !elem_of_list_to_set, elem_of_cons, !elem_of_app,
        list_elem_of_singleton.
      rewrite elem_of_app in Hx.
      destruct (decide (y = x)) as [->|]; tauto.
Qed.

(** X7. [Add(vs)] on a well-formed Robin returns, and afterwards [Len] is
    the old [Len] plus the number of distinct values of [vs] that were not
    contained, capped at [maxLen] for a bounded Robin. *)
Theorem Add_Len (vs : list Z) (r : Robin.t) (cur : list Z)
    (bf : option (Z * list Z)) :
  Rep r cur bf →
  ∃ r', Robin.Add vs r = Ok r' ∧
        Robin.Len r'
        = if 0 <? Robin.maxLen r
          then Z.min (Robin.maxLen r)
                     (Robin.Len r + Z.of_nat (size (missing vs r)))
          else Robin.Len r + Z.of_nat (size (missing vs r)).
Proof.
  intros HR.
  destruct (Add_refines vs r cur bf HR) as (r' & E & HR' & _).
  exists r'. split; [done|].
  rewrite (Rep_Len _ _ _ HR), (Rep_Len _ _ _ HR').
  rewrite (missing_elems vs r cur bf HR).
  unfold Model.Add.
  pose proof (Model_add_length (Robin.maxLen r) vs cur [] bf) as HL.
  destruct (Model.add (Robin.maxLen r) vs cur [] bf) as [new bf'].
  cbn [fst snd app] in HL |- *. apply HL.
  destruct HR as [(ps & HI & Hv) _]. intros Hpos.
  rewrite <- Hv. unfold vals. rewrite length_fmap.
  by apply (inv_bound _ _ HI).
Qed.

Lemma Add_Len_witness :
  ∃ r, Rep r [] None ∧ Robin.maxLen r = 3 ∧
  ∃ r', Robin.Add [4; 5; 4; 6; 7] r = Ok r' ∧
        Robin.Len r'
        = if 0 <? Robin.maxLen r
          then Z.min (Robin.maxLen r)
                 (Robin.Len r + Z.of_nat (size (missing [4; 5; 4; 6; 7] r)))
          else Robin.Len r + Z.of_nat (size (missing [4; 5; 4; 6; 7] r)).
Proof.
  exists (Robin.NewBounded 3 []).
  split; [exact (NewBounded_Rep 3 ltac:(done))|]. split; [reflexivity|].
  exact (Add_Len [4; 5; 4; 6; 7] _ _ _ (NewBounded_Rep 3 ltac:(done))).
Defined.

(** X8. [Add(vs)] never takes a value out and adds only values of [vs];
    and unless the Robin is full afterwards, every value of [vs] is
    contained afterwards. *)
Theorem Add_Contains (vs : list Z) (r r' : Robin.t) (cur : list Z)
    (bf : option (Z * list Z)) :
  Rep r cur bf → Robin.Add vs r = Ok r' →
  (∀ x, Robin.Contains x r = true → Robin.Contains x r' = true) ∧
  (∀ x, Robin.Contains x r' = true → Robin.Contains x r = true ∨ x ∈ vs) ∧
  (Robin.full r' = false → ∀ x, x ∈ vs → Robin.Contains x r' = true).
Proof.
  intros HR E.
  destruct (Add_refines vs r cur bf HR) as (r1 & E1 & HR' & Hm).
  rewrite E in E1. injection E1 as <-.
  assert (HC := λ x, Rep_Contains r cur bf x HR).
  assert (HC' := λ x, Rep_Contains r' _ _ x HR').
  pose proof (Rep_full _ _ _ HR') as Hfull. rewrite Hm in Hfull.
  unfold Model.Add in HC', Hfull.
  pose proof (Model_add_suffix (Robin.maxLen r) vs cur [] bf) as (sfx & Es & Hs).
  pose proof (Model_add_covers (Robin.maxLen r) vs cur [] bf) as Hcov.
  destruct (Model.add (Robin.maxLen r) vs cur [] bf) as [new bf'].
  cbn [fst snd app] in *. subst new.
  split_and!.
  - intros x. rewrite HC, HC', !bool_decide_eq_true, elem_of_app. tauto.
  - intros x. rewrite HC, HC', !bool_decide_eq_true, elem_of_app.
    intros [?|?]; [right; by apply Hs|by left].
  - intros Hnf x Hx. rewrite HC', bool_decide_eq_true.
    destruct Hcov as [Hf|Hall]; [congruence|by apply Hall].
Qed.

Lemma Add_Contains_witness :
  ∃ r', Robin.Add [1; 2; 3] (Robin.NewBounded 2 []) = Ok r' ∧
  (∀ x, Robin.Contains x (Robin.NewBounded 2 []) = true →
        Robin.Contains x r' = true) ∧
  (∀ x, Robin.Contains x r' = true →
        Robin.Contains x (Robin.NewBounded 2 []) = true ∨ x ∈ [1; 2; 3]) ∧
  (Robin.full r' = false → ∀ x, x ∈ [1; 2; 3] → Robin.Contains x r' = true).
Proof.
  eexists. split; [vm_compute; reflexivity|].
  eapply (Add_Contains [1; 2; 3] (Robin.NewBounded 2 []) _ [] None).
  - exact (NewBounded_Rep 2 ltac:(done)).
  - vm_compute. reflexivity.
Defined.

(** X9. On a well-formed Robin without buffer, [Add(vs)] a second time
    changes nothing: the second call returns the Robin the first call
    returned. *)
Theorem Add_twice_no_buffer (vs : list Z) (r r' : Robin.t) (cur : list Z) :
  Rep r cur None → Robin.Add vs r = Ok r' → Robin.Add vs r' = Ok r'.
Proof.
  intros HR E.
  destruct (Add_refines vs r cur None HR) as (r1 & E1 & HR' & Hm).
  rewrite E in E1. injection E1 as <-.
  assert (HC' := λ x, Rep_Contains r' _ _ x HR').
  pose proof (Rep_full _ _ _ HR') as Hfull. rewrite Hm in Hfull.
  destruct HR' as [_ HB].
  unfold Model.Add in HC', Hfull, HB.
  pose proof (Model_add_covers (Robin.maxLen r) vs cur [] None) as Hcov.
  pose proof (Model_add_None (Robin.maxLen r) vs cur []) as HN.
  destruct (Model.add (Robin.maxLen r) vs cur [] None) as [new bf'].
  cbn [fst snd] in *. subst bf'. apply BufRep_None in HB.
  destruct Hcov as [Hf|Hall].
  - unfold Robin.Add. by rewrite Hfull, Hf, HB.
  - apply Add_present. intros x Hx.
    rewrite HC', bool_decide_eq_true. by apply Hall.
Qed.

Lemma Add_twice_no_buffer_witness :
  ∃ r', Robin.Add [1; 2; 3] (Robin.NewBounded 2 []) = Ok r' ∧
        Robin.Add [1; 2; 3] r' = Ok r'.
Proof.
  eexists. split; [vm_compute; reflexivity|].
  eapply (Add_twice_no_buffer [1; 2; 3] (Robin.NewBounded 2 []) _ []).
  - exact (NewBounded_Rep 2 ltac:(done)).
  - vm_compute. reflexivity.
Defined.

(** X10. On a well-formed Robin without buffer, [Add(vs)] of values none
    of which is contained, followed by [Remove(vs)], gives back the
    rotation as it was, cursor included, however many of the values the
    bound let in. *)
Theorem Add_then_Remove (vs : list Z) (r : Robin.t) (cur : list Z) :
  Rep r cur None →
  (∀ x, x ∈ vs → Robin.Contains x r = false) →
  ∃ r1 r2, Robin.Add vs r = Ok r1 ∧ Robin.Remove vs r1 = Ok r2 ∧
           Rep r2 cur None ∧ Robin.maxLen r2 = Robin.maxLen r.
Proof.
  intros HR Hnew.
  destruct (Add_refines vs r cur None HR) as (r1 & E1 & HR1 & Hm1).
  unfold Model.Add in HR1.
  pose proof (Model_add_suffix (Robin.maxLen r) vs cur [] None)
    as (sfx & Es & Hs).
  pose proof (Model_add_None (Robin.maxLen r) vs cur []) as HN.
  destruct (Model.add (Robin.maxLen r) vs cur [] None) as [new bf'].
  cbn [fst snd app] in *. subst new bf'.
  assert (Robin.BufferLen r1 = 0) as Hb by by rewrite (Rep_BufferLen _ _ _ HR1).
  destruct (Remove_filter vs r1 _ _ HR1 Hb) as (r2 & E2 & HR2 & Hm2).
  exists r1, r2. split_and!; [done..| |congruence].
  replace (filter (λ y, y ∉ vs) (sfx ++ cur)) with cur in HR2; [done|].
  rewrite filter_app.
  replace (filter (λ y, y ∉ vs) sfx) with (@nil Z).
  - symmetry. apply filter_all. intros x Hx Hv.
    specialize (Hnew x Hv).
    rewrite (Rep_Contains _ _ _ x HR), bool_decide_eq_false in Hnew. done.
  - symmetry. apply filter_none. intros x Hx Hv. apply Hv. by apply Hs.
Qed.

Lemma Add_then_Remove_witness :
  ∃ r, Rep r [1; 2] None ∧ Robin.maxLen r = 3 ∧
       (∀ x, x ∈ [7; 8; 7; 9] → Robin.Contains x r = false) ∧
  ∃ r1 r2, Robin.Add [7; 8; 7; 9] r = Ok r1 ∧
           Robin.Remove [7; 8; 7; 9] r1 = Ok r2 ∧
           Rep r2 [1; 2] None ∧ Robin.maxLen r2 = Robin.maxLen r.
Proof.
  destruct (Add_refines [1; 2] _ _ _ (NewBounded_Rep 3 ltac:(done)))
    as (r & E & HR & Hm).
  assert (∀ x, x ∈ [7; 8; 7; 9] → Robin.Contains x r = false) as Hnew.
  { intros x Hx. rewrite (Rep_Contains _ _ _ x HR).
    rewrite !elem_of_cons, elem_of_nil in Hx.
    destruct Hx as [->|[->|[->|[->|[]]]]]; reflexivity. }
  exists r. split; [exact HR|]. split; [exact Hm|]. split; [exact Hnew|].
  exact (Add_then_Remove [7; 8; 7; 9] r [1; 2] HR Hnew).
Defined.

(** ** [LIFOBuffer] on its own *)

Lemma occ_filter_ne (x i : Z) (l : list Z) :
  occ x (filter (λ y, y ≠ i) l) = if decide (x = i) then 0 else occ x l.
Proof.
  unfold occ. rewrite list_filter_filter.
  destruct (decide (x = i)) as [->|Hne].
  - rewrite (filter_none _ l); [done|]. intros y _ [? ?]. done.
  - do 2 f_equal. apply list_filter_iff. intros y. split; [tauto|].
    intros ->. done.
Qed.

Lemma length_occ_filter (i : Z) (l : list Z) :
  Z.of_nat (length l) = occ i l + Z.of_nat (length (filter (λ y, y ≠ i) l)).
Proof.
  induction l as [|a l IH]; [done|].
  rewrite occ_cons, filter_cons. cbn [length].
  destruct (decide (a = i)), (decide (a ≠ i)); try done; cbn [length]; try lia.
Qed.

Lemma total_occ (m : gmap Z Z) :
  ∀ l : list Z, (∀ x, m !! x = cnt (occ x l)) →
                total m = Z.of_nat (length l).
Proof.
  induction m as [|i k m Hi IH] using map_ind; intros l Hl.
  - assert (l = []) as ->; [|done].
    destruct l as [|a l]; [done|].
    specialize (Hl a). rewrite lookup_empty in Hl. unfold cnt in Hl.
    destruct (Z.eqb_spec (occ a (a :: l)) 0) as [E|E]; [|done].
    apply occ_zero in E. destruct E. by left.
  - unfold total. rewrite map_fold_insert_L; [|intros; lia|done].
    fold (total m).
    rewrite (IH (filter (λ y, y ≠ i) l)).
    + pose proof (Hl i) as Hk. rewrite lookup_insert_eq in Hk.
      unfold cnt in Hk. destruct (occ i l =? 0); [done|].
      injection Hk as ->. symmetry. apply length_occ_filter.
    + intros x. rewrite occ_filter_ne.
      destruct (decide (x = i)) as [->|Hne]; [done|].
      by rewrite <- Hl, lookup_insert_ne.
Qed.

Lemma NewLIFOBuffer_Ok (c : Z) (b : LIFOBuffer.t) :
  LIFOBuffer.NewLIFOBuffer c = Ok b → 0 <= c <= maxSliceLen.
Proof.
  unfold LIFOBuffer.NewLIFOBuffer, make_slice.
  destruct (Z.ltb_spec c 0), (Z.ltb_spec maxSliceLen c); try done; lia.
Qed.

(** X11. In every state a buffer made by [NewLIFOBuffer(c)], [c > 0],
    reaches through [Push], [Pop] and [Reset], the capacity is [c], [Len]
    is between 0 and [c] and is the sum of the multiplicity map, every
    count in the map is positive, and the cursor is an index of the array,
    whose length is [c]. *)
Theorem LIFOBuffer_invariant (c : Z) (ops : list lifo_op)
    (b0 b : LIFOBuffer.t) (out : list (Z * bool)) :
  0 < c → LIFOBuffer.NewLIFOBuffer c = Ok b0 →
  lifo_run ops b0 = Ok (out, b) →
  LIFOBuffer.capacity b = c ∧
  0 <= LIFOBuffer.Len b <= c ∧
  total (LIFOBuffer.count b) = LIFOBuffer.Len b ∧
  (∀ x k, LIFOBuffer.count b !! x = Some k → 0 < k) ∧
  0 <= LIFOBuffer.i b < c ∧
  Z.of_nat (length (LIFOBuffer.buf b)) = c.
Proof.
  intros Hc E0 E.
  pose proof (NewLIFOBuffer_Ok c b0 E0) as Hmax.
  destruct (NewLIFOBuffer_rep c ltac:(lia)) as (b0' & E0' & Hrep0 & Hc0).
  rewrite E0 in E0'. injection E0' as <-.
  destruct (lifo_run_refines ops b0 [] Hrep0) as (b' & E' & Hrep & Hcap).
  rewrite E in E'. injection E' as _ <-.
  set (l := (stack_run (LIFOBuffer.capacity b0) ops []).2) in Hrep.
  clearbody l.
  pose proof (total_occ _ l (rep_count _ _ Hrep)) as Ht.
  destruct Hrep as [[Hw1 Hw2 Hw3 Hw4] Hn Hbuf Hcnt].
  unfold LIFOBuffer.Len. rewrite Hcap, Hc0 in *.
  split_and!; try done; try lia.
  intros x k Hk. rewrite Hcnt in Hk. unfold cnt in Hk.
  destruct (Z.eqb_spec (occ x l) 0); [done|]. injection Hk as <-.
  pose proof (occ_range x l). lia.
Qed.

Lemma LIFOBuffer_invariant_witness :
  ∃ b0 b out,
    0 < 2 ∧ LIFOBuffer.NewLIFOBuffer 2 = Ok b0 ∧
    lifo_run [OPush 1; OPush 1; OPush 3; OPop] b0 = Ok (out, b) ∧
    LIFOBuffer.capacity b = 2 ∧
    0 <= LIFOBuffer.Len b <= 2 ∧
    total (LIFOBuffer.count b) = LIFOBuffer.Len b ∧
    (∀ x k, LIFOBuffer.count b !! x = Some k → 0 < k) ∧
    0 <= LIFOBuffer.i b < 2 ∧
    Z.of_nat (length (LIFOBuffer.buf b)) = 2.
Proof.
  do 3 eexists. split; [lia|]. split; [reflexivity|].
  split; [vm_compute; reflexivity|].
  eapply (LIFOBuffer_invariant 2 [OPush 1; OPush 1; OPush 3; OPop]);
    [lia|reflexivity|vm_compute; reflexivity].
Defined.

Lemma Stack_push_take (c x : Z) (l : list Z) :
  0 < c → Z.of_nat (length l) <= c →
  Stack.push c x l = take (Z.to_nat c) (x :: l).
Proof.
  intros Hc Hl. unfold Stack.push.
  destruct (Z.eqb_spec (Z.of_nat (length l)) c) as [E|E].
  - replace (Z.to_nat c) with (S (length l - 1)) by lia. done.
  - rewrite take_ge; [done|]. cbn [length]. lia.
Qed.

Lemma Stack_pushes (c : Z) (vs : list Z) :
  ∀ l : list Z,
    0 < c → Z.of_nat (length l) <= c →
    fold_left (λ l x, Stack.push c x l) vs l
    = take (Z.to_nat c) (reverse vs ++ l).
Proof.
  induction vs as [|x vs IH]; intros l Hc Hl.
  - cbn. rewrite take_ge; [done|lia].
  - cbn [fold_left]. rewrite IH; [|done|].
    + rewrite (Stack_push_take c x l Hc Hl), reverse_cons, <- app_assoc.
      cbn [app]. rewrite !take_app, take_take. do 2 f_equal. lia.
    + rewrite (Stack_push_take c x l Hc Hl), length_take. lia.
Qed.

Lemma stack_run_pushes (c : Z) (vs : list Z) :
  ∀ l : list Z,
    stack_run c (OPush <$> vs) l
    = ([], fold_left (λ l x, Stack.push c x l) vs l).
Proof. induction vs as [|x vs IH]; intros l; [done|]. cbn. apply IH. Qed.

Lemma stack_run_pops (c : Z) (k : nat) :
  ∀ l : list Z,
    stack_run c (replicate k OPop) l
    = (((λ x, (x, true)) <$> take k l) ++ replicate (k - length l) (0, false),
       drop k l).
Proof.
  induction k as [|k IH]; intros l; [done|].
  cbn [replicate stack_run]. destruct l as [|x l].
  - cbn [Stack.pop]. rewrite IH. destruct k; done.
  - cbn [Stack.pop]. rewrite IH. done.
Qed.

(** X12. A new buffer of capacity [c > 0] into which the values [vs] are
    pushed holds the last [c] of them (all of them if there are fewer):
    [Len] is the smaller of [c] and the number of values, and [k] calls of
    [Pop] return them from the last pushed backwards, each with the flag
    [true], followed by [(0, false)] once they are used up. *)
Theorem LIFOBuffer_keeps_latest (c : Z) (vs : list Z) (k : nat) :
  0 < c <= maxSliceLen →
  ∃ b0 b b',
    LIFOBuffer.NewLIFOBuffer c = Ok b0 ∧
    lifo_run (OPush <$> vs) b0 = Ok ([], b) ∧
    LIFOBuffer.Len b = Z.min c (Z.of_nat (length vs)) ∧
    lifo_run (replicate k OPop) b
    = Ok (((λ x, (x, true)) <$> take k (take (Z.to_nat c) (reverse vs)))
          ++ replicate (k - Z.to_nat (LIFOBuffer.Len b)) (0, false), b').
Proof.
  intros Hc.
  destruct (NewLIFOBuffer_rep c Hc) as (b0 & E0 & Hrep0 & Hc0).
  destruct (lifo_run_refines (OPush <$> vs) b0 [] Hrep0)
    as (b & E & Hrep & Hcap).
  rewrite Hc0, stack_run_pushes in E, Hrep. cbn [fst snd] in E, Hrep.
  rewrite Stack_pushes in Hrep; [|lia|cbn [length]; lia].
  rewrite app_nil_r in Hrep.
  destruct (lifo_run_refines (replicate k OPop) b _ Hrep)
    as (b' & E' & _ & _).
  rewrite stack_run_pops in E'. cbn [fst] in E'.
  exists b0, b, b'. split_and!; [done..| |].
  - unfold LIFOBuffer.Len. rewrite (rep_n _ _ Hrep).
    rewrite length_take, length_reverse. lia.
  - rewrite E'. do 3 f_equal.
    unfold LIFOBuffer.Len. by rewrite (rep_n _ _ Hrep), Nat2Z.id.
Qed.

Lemma LIFOBuffer_keeps_latest_witness :
  0 < 2 <= maxSliceLen ∧
  ∃ b0 b b',
    LIFOBuffer.NewLIFOBuffer 2 = Ok b0 ∧
    lifo_run (OPush <$> [1; 2; 3]) b0 = Ok ([], b) ∧
    LIFOBuffer.Len b = Z.min 2 (Z.of_nat (length [1; 2; 3])) ∧
    lifo_run (replicate 3 OPop) b
    = Ok (((λ x, (x, true)) <$> take 3 (take (Z.to_nat 2) (reverse [1; 2; 3])))
          ++ replicate (3 - Z.to_nat (LIFOBuffer.Len b)) (0, false), b').
Proof.
  assert (0 < 2 <= maxSliceLen) as H by done.
  exact (conj H (LIFOBuffer_keeps_latest 2 [1; 2; 3] 3 H)).
Defined.

Lemma lifo_same_stack (b1 b2 : LIFOBuffer.t) (l : list Z)
    (ops : list lifo_op) :
  lifo_rep b1 l → lifo_rep b2 l →
  LIFOBuffer.capacity b1 = LIFOBuffer.capacity b2 →
  ∃ out b1' b2',
    lifo_run ops b1 = Ok (out, b1') ∧ lifo_run ops b2 = Ok (out, b2') ∧
    LIFOBuffer.Len b1' = LIFOBuffer.Len b2' ∧
    ∀ x, LIFOBuffer.Contains x b1' = LIFOBuffer.Contains x b2'.
Proof.
  intros H1 H2 Hc.
  destruct (lifo_run_refines ops b1 l H1) as (b1' & E1 & H1' & _).
  destruct (lifo_run_refines ops b2 l H2) as (b2' & E2 & H2' & _).
  rewrite <- Hc in E2, H2'.
  exists (stack_run (LIFOBuffer.capacity b1) ops l).1, b1', b2'.
  split_and!; [done..| |].
  - unfold LIFOBuffer.Len. by rewrite (rep_n _ _ H1'), (rep_n _ _ H2').
  - intros x. by rewrite (Contains_rep _ _ x H1'), (Contains_rep _ _ x H2').
Qed.

(** X13. After [Reset] a well-formed buffer behaves as a new buffer of the
    same capacity: every sequence of [Push], [Pop] and [Reset] returns the
    same values from both and leaves them with the same [Len] and the same
    [Contains]; what the array still holds from before is never read. *)
Theorem LIFOBuffer_Reset_as_new (b : LIFOBuffer.t) (ops : list lifo_op) :
  lifo_wf b →
  ∃ b0 out b1 b2,
    LIFOBuffer.NewLIFOBuffer (LIFOBuffer.capacity b) = Ok b0 ∧
    lifo_run ops (LIFOBuffer.Reset b) = Ok (out, b1) ∧
    lifo_run ops b0 = Ok (out, b2) ∧
    LIFOBuffer.Len b1 = LIFOBuffer.Len b2 ∧
    ∀ x, LIFOBuffer.Contains x b1 = LIFOBuffer.Contains x b2.
Proof.
  intros Hwf.
  destruct (Reset_rep b Hwf) as [Hr Hc].
  destruct (NewLIFOBuffer_rep _ (wf_capacity _ Hwf)) as (b0 & E0 & H0 & Hc0).
  destruct (lifo_same_stack (LIFOBuffer.Reset b) b0 [] ops Hr H0)
    as (out & b1 & b2 & ?); [congruence|].
  by exists b0, out, b1, b2.
Qed.

Lemma LIFOBuffer_Reset_as_new_witness :
  let b := LIFOBuffer.mk [7; 8] 1 2 {[ 7 := 1; 8 := 1 ]} 2 in
  lifo_wf b ∧
  ∃ b0 out b1 b2,
    LIFOBuffer.NewLIFOBuffer (LIFOBuffer.capacity b) = Ok b0 ∧
    lifo_run [OPop; OPush 3; OPop; OPop] (LIFOBuffer.Reset b) = Ok (out, b1) ∧
    lifo_run [OPop; OPush 3; OPop; OPop] b0 = Ok (out, b2) ∧
    LIFOBuffer.Len b1 = LIFOBuffer.Len b2 ∧
    ∀ x, LIFOBuffer.Contains x b1 = LIFOBuffer.Contains x b2.
Proof.
  intros b.
  assert (lifo_wf b) as H by (split; done).
  exact (conj H (LIFOBuffer_Reset_as_new b _ H)).
Defined.

(** X14. [Push(x)] directly followed by [Pop()] returns [x].  Below
    capacity the buffer is then as before the two calls, except that the
    array slot under the cursor holds [x]; at capacity the oldest value
    has been lost. *)
Theorem Push_then_Pop (b : LIFOBuffer.t) (l : list Z) (x : Z) :
  lifo_rep b l →
  ∃ b1 b2,
    LIFOBuffer.Push x b = Ok b1 ∧ LIFOBuffer.Pop b1 = Ok (x, true, b2) ∧
    (LIFOBuffer.n b < LIFOBuffer.capacity b →
     b2 = LIFOBuffer.mk (<[Z.to_nat (LIFOBuffer.i b) := x]> (LIFOBuffer.buf b))
            (LIFOBuffer.i b) (LIFOBuffer.n b) (LIFOBuffer.count b)
            (LIFOBuffer.capacity b)) ∧
    (LIFOBuffer.n b = LIFOBuffer.capacity b →
     lifo_rep b2 (take (length l - 1) l)).
Proof.
  intros Hrep.
  destruct (Push_rep b l x Hrep) as (b1 & E1 & Hrep1 & Hc1).
  unfold Stack.push in Hrep1.
  destruct (Pop_rep_cons b1 x _ Hrep1) as (b2 & E2 & Hrep2 & Hc2).
  exists b1, b2. split_and!; [done..| |].
  - intros Hlt. pose proof (lifo_rep_length _ _ Hrep) as Hlen.
    pose proof maxSliceLen_bound as Hmax.
    destruct Hrep as [[Hc Hb Hi Hn] Hl Hbuf Hcnt].
    unfold LIFOBuffer.Push in E1.
    destruct (Z.eqb_spec (LIFOBuffer.n b) (LIFOBuffer.capacity b)); [lia|].
    simpl in E1. rewrite slice_set_ok in E1 by lia. simpl in E1.
    rewrite rem_push in E1 by lia. simpl in E1. injection E1 as <-.
    assert (Hj : 0 <= (LIFOBuffer.i b + 1) mod LIFOBuffer.capacity b
                 < LIFOBuffer.capacity b) by (apply Z.mod_pos_bound; lia).
    unfold LIFOBuffer.Pop in E2. simpl in E2.
    assert (add64 (LIFOBuffer.n b) 1 = LIFOBuffer.n b + 1) as En
      by (unfold add64; apply wrap64_small; lia).
    rewrite En in E2.
    destruct (Z.eqb_spec (LIFOBuffer.n b + 1) 0); [lia|].
    rewrite rem_pop in E2 by lia.
    pose proof (slot_push_new (LIFOBuffer.i b) (LIFOBuffer.capacity b)
                  ltac:(lia) Hi) as Ei.
    rewrite Z.sub_0_r in Ei. rewrite Ei in E2. simpl in E2.
    unfold slice_get in E2.
    destruct (Z.ltb_spec (LIFOBuffer.i b) 0); [lia|].
    rewrite list_lookup_insert_eq in E2 by lia. simpl in E2.
    injection E2 as <-. unfold LIFOBuffer.decCount. simpl.
    rewrite lookup_insert_eq. simpl.
    assert (sub64 (LIFOBuffer.n b + 1) 1 = LIFOBuffer.n b) as ->
      by (unfold sub64; rewrite wrap64_small; lia).
    f_equal.
    pose proof (Hcnt x) as Hx. pose proof (occ_range x l) as Ho.
    unfold cnt in Hx.
    assert (sub64 (add64 (default 0 (LIFOBuffer.count b !! x)) 1) 1
            = occ x l) as ->.
    { unfold sub64, add64. rewrite Hx.
      destruct (occ x l =? 0) eqn:Ez; simpl.
      - apply Z.eqb_eq in Ez. rewrite Ez. done.
      - rewrite (wrap64_small (occ x l + 1)) by lia.
        rewrite wrap64_small by lia. lia. }
    destruct (occ x l =? 0).
    + by apply delete_insert_id.
    + rewrite insert_insert_eq. by apply insert_id.
  - intros Heq. rewrite (rep_n _ _ Hrep) in Heq.
    apply Z.eqb_eq in Heq. by rewrite Heq in Hrep2.
Qed.

Lemma Push_then_Pop_witness :
  ∃ b l, lifo_rep b l ∧ LIFOBuffer.n b < LIFOBuffer.capacity b ∧
  ∃ b1 b2,
    LIFOBuffer.Push 5 b = Ok b1 ∧ LIFOBuffer.Pop b1 = Ok (5, true, b2) ∧
    (LIFOBuffer.n b < LIFOBuffer.capacity b →
     b2 = LIFOBuffer.mk (<[Z.to_nat (LIFOBuffer.i b) := 5]> (LIFOBuffer.buf b))
            (LIFOBuffer.i b) (LIFOBuffer.n b) (LIFOBuffer.count b)
            (LIFOBuffer.capacity b)) ∧
    (LIFOBuffer.n b = LIFOBuffer.capacity b →
     lifo_rep b2 (take (length l - 1) l)).
Proof.
  destruct (NewLIFOBuffer_rep 2 ltac:(done)) as (b & E & Hrep & Hc).
  exists b, []. split; [exact Hrep|]. split.
  - vm_compute in E. injection E as <-. reflexivity.
  - exact (Push_then_Pop b [] 5 Hrep).
Defined.

(** ** Promotion from the buffer *)

Lemma replaced_length (xs : list Z) :
  ∀ cur ws : list Z, length (replaced cur xs ws) = length cur.
Proof.
  induction xs as [|x xs IH]; intros cur ws; [done|].
  destruct ws as [|w ws]; [done|].
  unfold replaced. cbn [zip zip_with fold_left].
  fold (replaced ((λ y, if decide (y = x) then w else y) <$> cur) xs ws).
  by rewrite IH, length_fmap.
Qed.

Lemma Model_Remove_replaced (c : Z) (vs : list Z) :
  ∀ cur l : list Z,
    NoDup vs → (∀ x, x ∈ vs → x ∈ cur) → (length vs ≤ length l)%nat →
    Model.Remove vs cur (Some (c, l))
    = (replaced cur vs l, Some (c, drop (length vs) l)).
Proof.
  induction vs as [|x vs IH]; intros cur l Hnd Hin Hlen; [done|].
  destruct l as [|w l]; [cbn in Hlen; lia|].
  apply NoDup_cons in Hnd as [Hx Hnd].
  cbn [Model.Remove]. rewrite decide_True by (apply Hin; by left).
  cbn [Model.remove1 fst snd].
  rewrite IH; [done|done| |cbn in Hlen; lia].
  intros y Hy. apply list_elem_of_fmap. exists y.
  split; [|apply Hin; by right].
  rewrite decide_False; [done|]. by intros ->.
Qed.

(** X15. [Remove(vs)] of distinct contained values, when the buffer holds
    at least as many values, puts the buffered values in their places, the
    most recently buffered one in the place of the first value of [vs] and
    so on: the rotation keeps its length and order of places, and
    [BufferLen] drops by the number of values removed. *)
Theorem Remove_promotes_in_order (vs : list Z) (r : Robin.t) (cur : list Z)
    (c : Z) (l : list Z) :
  Rep r cur (Some (c, l)) → NoDup vs →
  (∀ x, x ∈ vs → Robin.Contains x r = true) →
  Z.of_nat (length vs) <= Robin.BufferLen r →
  ∃ r', Robin.Remove vs r = Ok r' ∧
        Rep r' (replaced cur vs l) (Some (c, drop (length vs) l)) ∧
        Robin.Len r' = Robin.Len r ∧
        Robin.BufferLen r' = Robin.BufferLen r - Z.of_nat (length vs).
Proof.
  intros HR Hnd Hin Hlen.
  rewrite (Rep_BufferLen _ _ _ HR) in Hlen |- *. cbn [stack_len] in Hlen |- *.
  destruct (Remove_refines vs r cur _ HR) as (r' & E & HR' & _).
  rewrite Model_Remove_replaced in HR'; [|done| |lia].
  - cbn [fst snd] in HR'. exists r'. split_and!; [done..| |].
    + rewrite (Rep_Len _ _ _ HR), (Rep_Len _ _ _ HR').
      by rewrite replaced_length.
    + rewrite (Rep_BufferLen _ _ _ HR'). cbn [stack_len].
      rewrite length_drop. lia.
  - intros x Hx. specialize (Hin x Hx).
    by rewrite (Rep_Contains _ _ _ x HR), bool_decide_eq_true in Hin.
Qed.

Lemma Remove_promotes_in_order_witness :
  ∃ r, Rep r [0; 1; 2; 3] (Some (2, [5; 4])) ∧
  ∃ r', Robin.Remove [0; 1] r = Ok r' ∧
        Rep r' (replaced [0; 1; 2; 3] [0; 1] [5; 4])
               (Some (2, drop (length [0; 1]) [5; 4])) ∧
        Robin.Len r' = Robin.Len r ∧
        Robin.BufferLen r' = Robin.BufferLen r - Z.of_nat (length [0; 1]).
Proof.
  destruct (NewLIFOBuffer_rep 2 ltac:(done)) as (b & Eb & Hb & Hc).
  pose proof (NewBounded_WithBuffer_Rep 4 b ltac:(done) Hb) as H0.
  rewrite Hc in H0.
  destruct (Add_refines [0; 1; 2; 3; 4; 5] _ _ _ H0) as (r & E & HR & Hm).
  exists r. split; [exact HR|].
  apply (Remove_promotes_in_order [0; 1] r _ _ _ HR).
  - apply NoDup_cons. split; [|apply NoDup_singleton].
    rewrite list_elem_of_singleton. discriminate.
  - intros x Hx. rewrite (Rep_Contains _ _ _ x HR).
    rewrite !elem_of_cons, elem_of_nil in Hx.
    destruct Hx as [->|[->|[]]]; reflexivity.
  - rewrite (Rep_BufferLen _ _ _ HR). done.
Defined.

(** ** The whole API on the model *)

(** X16. Every sequence of API calls, queries included, on a Robin made by
    [NewBounded(len, WithBuffer(b))], [len > 0], with a new buffer [b] of
    capacity [c > 0] returns, and its results are those of the rotation
    model started empty with an empty buffer of capacity [c]. *)
Theorem API_refines_model (len c : Z) (cs : list api_call) :
  0 < len → 0 < c <= maxSliceLen →
  ∃ b r',
    LIFOBuffer.NewLIFOBuffer c = Ok b ∧
    api_run cs (Robin.NewBounded len [Robin.WithBuffer b])
    = Ok (model_run len cs [] (Some (c, [])), r').
Proof.
  intros Hlen Hc.
  destruct (NewLIFOBuffer_rep c Hc) as (b & Eb & Hb & Hcap).
  pose proof (NewBounded_WithBuffer_Rep len b Hlen Hb) as H0.
  rewrite Hcap in H0.
  destruct (api_run_refines cs _ _ _ H0) as (r' & E).
  exists b, r'. split; [done|]. rewrite E. do 2 f_equal.
  unfold Robin.NewBounded. destruct (Z.leb_spec len 0); [lia|done].
Qed.

Lemma API_refines_model_witness :
  0 < 2 ∧ 0 < 1 <= maxSliceLen ∧
  ∃ b r',
    LIFOBuffer.NewLIFOBuffer 1 = Ok b ∧
    api_run [CallAdd [1; 2; 3]; CallBufferLen; CallRemove [1]; CallNext;
             CallContains 3; CallBufferContains 3; CallLen; CallReset]
            (Robin.NewBounded 2 [Robin.WithBuffer b])
    = Ok (model_run 2
            [CallAdd [1; 2; 3]; CallBufferLen; CallRemove [1]; CallNext;
             CallContains 3; CallBufferContains 3; CallLen; CallReset]
            [] (Some (1, [])), r').
Proof.
  assert (0 < 2) as H1 by done.
  assert (0 < 1 <= maxSliceLen) as H2 by done.
  exact (conj H1 (conj H2 (API_refines_model 2 1 _ H1 H2))).
Defined.

(** ** A buffer of capacity 0 under [Add] *)

Lemma Add_loop_zero_capacity (vs : list Z) (r : Robin.t)
    (hd tl : option ptr) :
  ZeroCap r → Robin.full r = true →
  (∃ x, x ∈ vs ∧ Robin.Contains x r = false) →
  Robin.Add_loop vs r hd tl = Panic.
Proof.
  intros Hz Hf. induction vs as [|y vs IH]; intros (x & Hx & Hc).
  { by apply elem_of_nil in Hx. }
  cbn [Robin.Add_loop]. unfold Robin.Contains in Hc.
  destruct (Robin.nodes r !! y) eqn:Ey.
  - apply IH. exists x. split; [|done].
    apply elem_of_cons in Hx as [->|Hx]; [|done]. by rewrite Ey in Hc.
  - rewrite Hf, Hz. reflexivity.
Qed.

(** X17. [NewLIFOBuffer(0)] returns a buffer, but a full Robin that has it
    as its buffer cannot overflow into it: [Add(vs)] panics (the eviction
    in [Push] reads the empty array) exactly when some value of [vs] is
    not contained, and returns the Robin unchanged otherwise. *)
Theorem Add_zero_capacity (vs : list Z) (r : Robin.t) (b : LIFOBuffer.t) :
  LIFOBuffer.NewLIFOBuffer 0 = Ok b → Robin.buffer r = Some b →
  Robin.full r = true →
  (Robin.Add vs r = Panic ↔ ∃ x, x ∈ vs ∧ Robin.Contains x r = false) ∧
  (Robin.Add vs r ≠ Panic → Robin.Add vs r = Ok r).
Proof.
  intros Eb Hb Hf. injection Eb as <-.
  assert (Hp : (∃ x, x ∈ vs ∧ Robin.Contains x r = false) →
               Robin.Add vs r = Panic).
  { intros Hex. unfold Robin.Add. rewrite Hf, Hb. cbn.
    by rewrite (Add_loop_zero_capacity vs r None None Hb Hf Hex). }
  assert (Hall : ¬ (∃ x, x ∈ vs ∧ Robin.Contains x r = false) →
                 Robin.Add vs r = Ok r).
  { intros Hn. apply Add_present. intros x Hx.
    destruct (Robin.Contains x r) eqn:Ec; [done|].
    destruct Hn. by exists x. }
  assert (Hdec : Decision (∃ x, x ∈ vs ∧ Robin.Contains x r = false)).
  { destruct (decide (Exists (λ x, Robin.Contains x r = false) vs))
      as [He|He]; [left|right]; by rewrite <- Exists_exists. }
  split.
  - split; [|done]. intros E. destruct Hdec as [|Hn]; [done|].
    rewrite (Hall Hn) in E. done.
  - intros Hnp. destruct Hdec as [He|Hn]; [|by apply Hall].
    destruct Hnp. by apply Hp.
Qed.

Lemma Add_zero_capacity_witness :
  ∃ b r,
    LIFOBuffer.NewLIFOBuffer 0 = Ok b ∧
    Robin.Add [1] (Robin.NewBounded 1 [Robin.WithBuffer b]) = Ok r ∧
    Robin.buffer r = Some b ∧ Robin.full r = true ∧
    (Robin.Add [1; 2] r = Panic ↔
     ∃ x, x ∈ [1; 2] ∧ Robin.Contains x r = false) ∧
    (Robin.Add [1; 2] r ≠ Panic → Robin.Add [1; 2] r = Ok r).
Proof.
  do 2 eexists. split; [reflexivity|]. split; [vm_compute; reflexivity|].
  split; [reflexivity|]. split; [reflexivity|].
  eapply (Add_zero_capacity [1; 2]); reflexivity.
Defined.

(** * The repository's tests and examples on the embedding *)

(** README, "Basic usage": prints [0 1 3 2 0 1 3 2]. *)
Example README_basic_usage :
  (r ← Robin.Add [0; 1; 2] Robin.NewUnbounded;
   '(o1, r) ← Robin.Nexts 2 r;
   r ← Robin.Add [3] r;
   '(o2, r) ← Robin.Nexts 6 r;
   Ok ((o1 ++ o2).*1))
  = Ok [0; 1; 3; 2; 0; 1; 3; 2].
Proof. vm_compute. reflexivity. Qed.

(** README, "Buffered robin": prints [0 1 2 0 1 2] and [5 4 2 5 4 2]. *)
Example README_buffered_robin :
  (b ← LIFOBuffer.NewLIFOBuffer 2;
   r ← Robin.Add [0; 1; 2; 3; 4; 5] (Robin.NewBounded 3 [Robin.WithBuffer b]);
   '(o1, r) ← Robin.Nexts 6 r;
   r ← Robin.Remove [0; 1] r;
   '(o2, r) ← Robin.Nexts 6 r;
   Ok (o1.*1, o2.*1))
  = Ok ([0; 1; 2; 0; 1; 2], [5; 4; 2; 5; 4; 2]).
Proof. vm_compute. reflexivity. Qed.

(** robin_test.go, "basic round-robin". *)
Example test_basic_round_robin :
  (r ← Robin.Add [1; 2; 3] Robin.NewUnbounded;
   '(o1, r) ← Robin.Nexts 2 r;
   r ← Robin.Add [4] r;
   '(o2, r) ← Robin.Nexts 4 r;
   Ok ((o1 ++ o2).*1))
  = Ok [1; 2; 4; 3; 1; 2].
Proof. vm_compute. reflexivity. Qed.

(** robin_test.go, "removing from robin and next on empty robin". *)
Example test_removing_and_next_on_empty :
  (r ← Robin.Add [1; 2; 3] Robin.NewUnbounded;
   r ← Robin.Remove [1] r;
   '(v1, _, r) ← Robin.Next r;
   r ← Robin.Remove [2] r;
   '(v2, _, r) ← Robin.Next r;
   '(v3, _, r) ← Robin.Next r;
   r ← Robin.Remove [1; 3] r;
   '(_, ok, r) ← Robin.Next r;
   Ok (v1, v2, v3, ok))
  = Ok (2, 3, 3, false).
Proof. vm_compute. reflexivity. Qed.

(** robin_test.go, "duplicates should be ignored". *)
Example test_duplicates_ignored :
  (let r0 := Robin.NewUnbounded in
   r1 ← Robin.Add [1; 2; 3] r0;
   r2 ← Robin.Add [1; 2; 3] r1;
   r3 ← Robin.Remove [1] r2;
   r4 ← Robin.Remove [2] r3;
   r5 ← Robin.Remove [3] r4;
   Ok (Robin.Len <$> [r0; r1; r2; r3; r4; r5]))
  = Ok [0; 3; 3; 2; 1; 0].
Proof. vm_compute. reflexivity. Qed.

(** robin_test.go, "adding to full bounded robin without buffer should be
    no-op", continued after the two [Add]s. *)
Example test_full_bounded_without_buffer :
  (r ← Robin.Add [1; 2; 3] (Robin.NewBounded 2 []);
   r ← Robin.Add [4] r;
   r ← Robin.Remove [1] r;
   '(o, r') ← Robin.Nexts 2 r;
   Ok (Robin.Len r, o.*1))
  = Ok (1, [2; 2]).
Proof. vm_compute. reflexivity. Qed.

(** robin_test.go, "adding and removing from full bounded robin with
    buffer should push and pop buffer". *)
Example test_full_bounded_with_buffer :
  (b ← LIFOBuffer.NewLIFOBuffer 2;
   r ← Robin.Add [1; 2; 3] (Robin.NewBounded 2 [Robin.WithBuffer b]);
   r' ← Robin.Remove [2] r;
   '(o, _) ← Robin.Nexts 2 r';
   Ok (Robin.Len r, Robin.Contains 3 r, Robin.BufferLen r,
       Robin.BufferContains 3 r, Robin.Len r', Robin.BufferContains 3 r',
       Robin.BufferLen r', o.*1))
  = Ok (2, false, 1, true, 2, false, 0, [1; 3]).
Proof. vm_compute. reflexivity. Qed.

(** robin_test.go, "basic reset". *)
Example test_basic_reset :
  (b ← LIFOBuffer.NewLIFOBuffer 2;
   r ← Robin.Add [1; 2; 3] (Robin.NewBounded 2 [Robin.WithBuffer b]);
   let r := Robin.Reset r in
   '(_, ok, _) ← Robin.Next r;
   Ok (Robin.Len r, Robin.BufferLen r, ok))
  = Ok (0, 0, false).
Proof. vm_compute. reflexivity. Qed.

(** lifobuffer_test.go, "basic push and pop", "basic len" and "basic
    contains". *)
Example test_lifo_basics :
  (b0 ← LIFOBuffer.NewLIFOBuffer 2;
   b1 ← LIFOBuffer.Push 1 b0;
   b2 ← LIFOBuffer.Push 2 b1;
   b3 ← LIFOBuffer.Push 3 b2;
   '(o, _) ← lifo_run [OPop; OPop; OPop] b2;
   b1' ← LIFOBuffer.Push 1 b1;
   '(_, _, c1) ← LIFOBuffer.Pop b1';
   '(_, _, c2) ← LIFOBuffer.Pop c1;
   Ok (o, LIFOBuffer.Len <$> [b0; b1; b2; b3],
       LIFOBuffer.Contains 1 b1, LIFOBuffer.Contains 2 b1,
       LIFOBuffer.Contains 1 c1, LIFOBuffer.Contains 1 c2))
  = Ok ([(2, true); (1, true); (0, false)], [0; 1; 2; 2],
        true, false, true, false).
Proof. vm_compute. reflexivity. Qed.
